(** * candump capture core: a shallow embedding of [candump.c]

    The development follows the C source: the frame ring buffer
    ([frame_buffer], [buffer_ptr], [read_ptr]), the interface index cache
    ([idx2dindex]), the filter option parser inside [loop], the per-event
    dispatch of the capture loop, the byte reversal helper and the Python
    method table.  C integers are [Z] with their wrap-around written out,
    [double] is the kernel's binary64 [float], arrays are lists updated by
    index. *)

From Stdlib Require Import ZArith Floats Ascii String Lia ZifyNat.
From stdpp Require Import base list.

Set Warnings "-inexact-float".
Local Open Scope Z_scope.

(** ** Constants of the source and of the kernel headers *)

Definition FRAME_BUFFER_SIZE : Z := 256.
Definition CAN_EXTENDED_ID_MASK : Z := 0x1FFFFFFF.
Definition DEFAULT_TIMEOUT : float := 0.2%float.
Definition MAXSOCK : Z := 16.
Definition MAXIFNAMES : nat := 30.
Definition SILENT_OFF : Z := 0.
Definition SILENT_ANI : Z := 1.
Definition SILENT_ON : Z := 2.
Definition MAXANI : Z := 4.

(** From <linux/can.h>, <linux/can/raw.h> and <sys/socket.h>. *)
Definition CAN_EFF_FLAG : Z := 0x80000000.
Definition CAN_RTR_FLAG : Z := 0x40000000.
Definition CAN_ERR_FLAG : Z := 0x20000000.
Definition CAN_INV_FILTER : Z := 0x20000000.
Definition CAN_MAX_DLEN : Z := 8.
Definition CANFD_MAX_DLEN : Z := 64.
Definition CAN_MTU : Z := 16.
Definition CANFD_MTU : Z := 72.
Definition SOL_SOCKET : Z := 1.
Definition SO_TIMESTAMP : Z := 29.
Definition SO_TIMESTAMPING : Z := 37.
Definition SO_RXQ_OVFL : Z := 40.
Definition EINTR : Z := 4.
Definition ENETDOWN : Z := 100.
Definition MSG_DONTROUTE : Z := 4.
Definition CANLIB_VIEW_INDENT_SFF : Z := 0x10.

(** ** C arithmetic *)

Definition u32 (z : Z) : Z := z mod 2 ^ 32.
Definition u8 (z : Z) : Z := z mod 2 ^ 8.
(** Two's complement reading of a 32-bit pattern, as [printf("%d")] shows it. *)
Definition s32 (z : Z) : Z := if u32 z <? 2 ^ 31 then u32 z else u32 z - 2 ^ 32.

(** [(double) x] for an integer [x]: rounding to nearest even on binary64. *)
Definition double_of_long (z : Z) : float :=
  SF2Prim (binary_normalize prec emax z 0 false).

(** Conversion of a [double] to [int] as an argument is converted to an
    [int] parameter: the fractional part is discarded; a NaN or an infinity
    has no defined result. *)
Definition int_of_double (f : float) : option Z :=
  match Prim2SF f with
  | S754_zero _ => Some 0
  | S754_finite sign m e =>
      let mag := if 0 <=? e then Z.pos m * 2 ^ e else Z.pos m / 2 ^ (- e) in
      Some (if sign then - mag else mag)
  | _ => None
  end.

(** [memcpy(dst, src, n)] on byte lists: the first [n] bytes of [dst] are
    replaced by those of [src]. *)
Definition memcpy (dst src : list Z) (n : nat) : list Z :=
  take n src ++ drop n dst.

(** ** Data *)

Record timeval := { tv_sec : Z; tv_usec : Z }.

(** [struct canfd_frame] of <linux/can.h>, as [recvmsg] fills it. *)
Record canfd_frame := {
  can_id : Z;
  fd_len : Z;
  fd_flags : Z;
  fd_data : list Z
}.

(** [struct canframe]: one slot of the ring buffer. *)
Record canframe := {
  timestamp : float;
  len : Z;
  arbitration_id : Z;
  data : list Z
}.

(** The ring buffer: the array and its two cursors. *)
Record ring := {
  frame_buffer : list canframe;
  buffer_ptr : Z;
  read_ptr : Z
}.

(** What [Py_BuildValue("(H,I,y#,d)", ...)] returns to the caller: the
    arbitration id, the length, [len] bytes of the data and the timestamp. *)
Record pyframe := {
  py_id : Z;
  py_len : Z;
  py_data : list Z;
  py_ts : float
}.

Inductive pyobject :=
  | Py_None
  | Py_Frame (f : pyframe).

Definition zero_frame : canframe :=
  {| timestamp := 0%float; len := 0; arbitration_id := 0;
     data := replicate 8 0 |}.

Definition slot_at (b : list canframe) (i : Z) : canframe :=
  default zero_frame (b !! Z.to_nat i).

Definition set_slot (b : list canframe) (i : Z) (f : canframe) : list canframe :=
  <[Z.to_nat i := f]> b.

(** ** Ring buffer *)

(** [init_buffer]: every slot is cleared; the cursors are not touched. *)
Definition init_buffer (b : list canframe) : list canframe :=
  foldl (fun b i => <[i := zero_frame]> b) b (seq 0 (Z.to_nat FRAME_BUFFER_SIZE)).

(** The state of the program image before [loop] runs: [buffer_ptr] and
    [read_ptr] are zero-initialised statics. *)
Definition ring_start : ring :=
  {| frame_buffer := init_buffer (replicate (Z.to_nat FRAME_BUFFER_SIZE) zero_frame);
     buffer_ptr := 0; read_ptr := 0 |}.

(** The five statements that register a received frame (lines 737-744),
    one definition per statement. *)

Definition store_id (frame : canfd_frame) (r : ring) : ring :=
  let s := slot_at (frame_buffer r) (buffer_ptr r) in
  {| frame_buffer :=
       set_slot (frame_buffer r) (buffer_ptr r)
         {| timestamp := timestamp s; len := len s;
            arbitration_id := u32 (Z.land (can_id frame) CAN_EXTENDED_ID_MASK);
            data := data s |};
     buffer_ptr := buffer_ptr r; read_ptr := read_ptr r |}.

Definition store_len (frame : canfd_frame) (r : ring) : ring :=
  let s := slot_at (frame_buffer r) (buffer_ptr r) in
  {| frame_buffer :=
       set_slot (frame_buffer r) (buffer_ptr r)
         {| timestamp := timestamp s; len := u8 (fd_len frame);
            arbitration_id := arbitration_id s; data := data s |};
     buffer_ptr := buffer_ptr r; read_ptr := read_ptr r |}.

(** The copy of [frame.len] bytes into the 8-byte [data] field.  A length
    above 8 writes past the field: no result is defined for it. *)
Definition store_data (frame : canfd_frame) (r : ring) : option ring :=
  if (0 <=? fd_len frame) && (fd_len frame <=? 8) then
    let s := slot_at (frame_buffer r) (buffer_ptr r) in
    Some {| frame_buffer :=
              set_slot (frame_buffer r) (buffer_ptr r)
                {| timestamp := timestamp s; len := len s;
                   arbitration_id := arbitration_id s;
                   data := memcpy (data s) (fd_data frame) (Z.to_nat (fd_len frame)) |};
            buffer_ptr := buffer_ptr r; read_ptr := read_ptr r |}
  else None.

Definition timestamp_of (tv : timeval) : float :=
  (double_of_long (tv_sec tv) + double_of_long (tv_usec tv) / 1E6)%float.

Definition store_timestamp (tv : timeval) (r : ring) : ring :=
  let s := slot_at (frame_buffer r) (buffer_ptr r) in
  {| frame_buffer :=
       set_slot (frame_buffer r) (buffer_ptr r)
         {| timestamp := timestamp_of tv; len := len s;
            arbitration_id := arbitration_id s; data := data s |};
     buffer_ptr := buffer_ptr r; read_ptr := read_ptr r |}.

Definition advance_buffer_ptr (r : ring) : ring :=
  {| frame_buffer := frame_buffer r;
     buffer_ptr := Z.rem (buffer_ptr r + 1) FRAME_BUFFER_SIZE;
     read_ptr := read_ptr r |}.

(** Registering a frame: the five statements in program order. *)
Definition register_frame (frame : canfd_frame) (tv : timeval) (r : ring) : option ring :=
  r3 ← store_data frame (store_len frame (store_id frame r));
  Some (advance_buffer_ptr (store_timestamp tv r3)).

(** The tuple built from a slot. *)
Definition build_value (s : canframe) : pyframe :=
  {| py_id := arbitration_id s; py_len := len s;
     py_data := take (Z.to_nat (len s)) (data s); py_ts := timestamp s |}.

Definition advance_read_ptr (r : ring) : ring :=
  {| frame_buffer := frame_buffer r;
     buffer_ptr := buffer_ptr r;
     read_ptr := Z.rem (read_ptr r + 1) FRAME_BUFFER_SIZE |}.

(** [get_frame_from_buffer]. *)
Definition get_frame_from_buffer (r : ring) : pyobject * ring :=
  if read_ptr r =? buffer_ptr r then (Py_None, r)
  else (Py_Frame (build_value (slot_at (frame_buffer r) (read_ptr r))),
        advance_read_ptr r).

(** Whole operations, one after the other. *)
Inductive op :=
  | Push (frame : canfd_frame) (tv : timeval)
  | Pop.

Fixpoint run_ops (ops : list op) (r : ring) : option (list pyobject * ring) :=
  match ops with
  | [] => Some ([], r)
  | Push frame tv :: ops' =>
      r' ← register_frame frame tv r;
      run_ops ops' r'
  | Pop :: ops' =>
      let '(v, r') := get_frame_from_buffer r in
      '(vs, r'') ← run_ops ops' r';
      Some (v :: vs, r'')
  end.

Fixpoint push_all (fs : list (canfd_frame * timeval)) (r : ring) : option ring :=
  match fs with
  | [] => Some r
  | (frame, tv) :: fs' => r' ← register_frame frame tv r; push_all fs' r'
  end.

(** Calling [get_frame_from_buffer] until it answers [None], at most
    [fuel] times: the frames it returned, and the ring it left. *)
Fixpoint drain (fuel : nat) (r : ring) : list pyframe * ring :=
  match fuel with
  | O => ([], r)
  | S fuel' =>
      match get_frame_from_buffer r with
      | (Py_None, r') => ([], r')
      | (Py_Frame v, r') => let '(vs, r'') := drain fuel' r' in (v :: vs, r'')
      end
  end.

Definition frames_of (vs : list pyobject) : list pyframe :=
  omap (fun v => match v with Py_Frame f => Some f | Py_None => None end) vs.

(** What a reader is due for a received frame. *)
Definition view (ft : canfd_frame * timeval) : pyframe :=
  {| py_id := u32 (Z.land (can_id ft.1) CAN_EXTENDED_ID_MASK);
     py_len := u8 (fd_len ft.1);
     py_data := take (Z.to_nat (fd_len ft.1)) (fd_data ft.1);
     py_ts := timestamp_of ft.2 |}.

(** A frame as the kernel delivers it, restricted to the payload the slot
    can hold. *)
Definition classic_frame (frame : canfd_frame) : Prop :=
  0 <= fd_len frame <= 8 /\ (Z.to_nat (fd_len frame) <= length (fd_data frame))%nat.

(** ** The two threads, statement by statement

    The capture thread runs the five statements of a registration.  The
    reader thread runs [get_frame_from_buffer]: the test of the cursors;
    the loads of the arguments of [Py_BuildValue] from the slot, which
    are the arbitration id, the length, the length again (for [y#]) and
    the timestamp, passed by value, while [data] is passed as a pointer;
    the copy of the data bytes, which [Py_BuildValue] makes through that
    pointer; and the advance of [read_ptr].  The loads are taken in the
    order of the arguments; the language leaves their order open, and
    the condition under which the reader is safe ([undisturbed]) keeps
    the slot unchanged from the first load to the copy, whatever the
    order.  A schedule says which thread runs its next statement; each
    statement takes effect at once and in program order. *)

Inductive consumer :=
  | C_idle
  | C_checked
  | C_id (id : Z)
  | C_len (id len : Z)
  | C_len2 (id len len2 : Z)
  | C_args (id len len2 : Z) (ts : float)
  | C_built (v : pyframe).

Record machine := {
  m_ring : ring;
  m_pending : list (canfd_frame * timeval);
  m_ppc : nat;
  m_cpc : consumer;
  m_out : list pyobject
}.

Inductive actor := Producer | Consumer.

Definition producer_step (m : machine) : option machine :=
  match m_pending m with
  | [] => Some m
  | (frame, tv) :: rest =>
      let next r' pc pend :=
        {| m_ring := r'; m_pending := pend; m_ppc := pc;
           m_cpc := m_cpc m; m_out := m_out m |} in
      match m_ppc m with
      | 0%nat => Some (next (store_id frame (m_ring m)) 1%nat (m_pending m))
      | 1%nat => Some (next (store_len frame (m_ring m)) 2%nat (m_pending m))
      | 2%nat => r' ← store_data frame (m_ring m); Some (next r' 3%nat (m_pending m))
      | 3%nat => Some (next (store_timestamp tv (m_ring m)) 4%nat (m_pending m))
      | _ => Some (next (advance_buffer_ptr (m_ring m)) 0%nat rest)
      end
  end.

Definition consumer_step (m : machine) : machine :=
  let r := m_ring m in
  let sl := slot_at (frame_buffer r) (read_ptr r) in
  let at_pc c :=
    {| m_ring := r; m_pending := m_pending m; m_ppc := m_ppc m;
       m_cpc := c; m_out := m_out m |} in
  match m_cpc m with
  | C_idle =>
      if read_ptr r =? buffer_ptr r then
        {| m_ring := r; m_pending := m_pending m; m_ppc := m_ppc m;
           m_cpc := C_idle; m_out := m_out m ++ [Py_None] |}
      else at_pc C_checked
  | C_checked => at_pc (C_id (arbitration_id sl))
  | C_id id => at_pc (C_len id (len sl))
  | C_len id n => at_pc (C_len2 id n (len sl))
  | C_len2 id n n2 => at_pc (C_args id n n2 (timestamp sl))
  | C_args id n n2 ts =>
      at_pc (C_built {| py_id := id; py_len := n;
                        py_data := take (Z.to_nat n2) (data sl); py_ts := ts |})
  | C_built v =>
      {| m_ring := advance_read_ptr r; m_pending := m_pending m;
         m_ppc := m_ppc m; m_cpc := C_idle; m_out := m_out m ++ [Py_Frame v] |}
  end.

Definition step (a : actor) (m : machine) : option machine :=
  match a with
  | Producer => producer_step m
  | Consumer => Some (consumer_step m)
  end.

Fixpoint run_schedule (sched : list actor) (m : machine) : option machine :=
  match sched with
  | [] => Some m
  | a :: sched' => m' ← step a m; run_schedule sched' m'
  end.

Definition machine_start (fs : list (canfd_frame * timeval)) : machine :=
  {| m_ring := ring_start; m_pending := fs; m_ppc := 0; m_cpc := C_idle;
     m_out := [] |}.

(** The reader is about to take its first load from the very slot a
    registration has begun to write. *)
Definition reads_slot_in_progress (m : machine) : bool :=
  match m_cpc m with
  | C_checked =>
      negb (Nat.eqb (m_ppc m) 0) && (read_ptr (m_ring m) =? buffer_ptr (m_ring m))
  | _ => false
  end.

(** The reader has loaded from the slot and has not yet copied the data. *)
Definition mid_read (c : consumer) : bool :=
  match c with
  | C_id _ | C_len _ _ | C_len2 _ _ _ | C_args _ _ _ _ => true
  | _ => false
  end.

(** The capture thread is about to write a field of the slot that the
    reader is in the middle of reading. *)
Definition writes_slot_being_read (m : machine) : bool :=
  mid_read (m_cpc m)
  && (read_ptr (m_ring m) =? buffer_ptr (m_ring m))
  && (m_ppc m <? 4)%nat
  && match m_pending m with [] => false | _ :: _ => true end.

(** Under [sched] the reader never starts on a slot in progress, and the
    capture thread never writes a slot between the reader's first load
    from it and the copy of its data. *)
Fixpoint undisturbed (sched : list actor) (m : machine) : bool :=
  match sched with
  | [] => true
  | a :: sched' =>
      match a with
      | Consumer => negb (reads_slot_in_progress m)
      | Producer => negb (writes_slot_being_read m)
      end
      && match step a m with
         | Some m' => undisturbed sched' m'
         | None => true
         end
  end.

(** ** Interface index cache *)

Record ifcache := {
  dindex : list Z;
  devname : list string;
  max_devname_len : Z
}.

Inductive idx_result :=
  | Idx_return (i : nat) (c : ifcache) (stderr : list string)
  | Idx_exit (status : Z) (c : ifcache) (stderr : list string).

Definition dindex_at (d : list Z) (i : nat) : Z := default 0 (d !! i).

Definition cache_exhausted_msg : string :=
  "Interface index cache only supports 30 interfaces.".

Section Idx2dindex.

(** [ioctl(socket, SIOCGIFNAME, &ifr)] for the interface index put in
    [ifr]: the name it writes to [ifr.ifr_name], or [None] when it
    returns a negative value. *)
Variable ioctl_SIOCGIFNAME : Z -> option string.

(** [for (i = from; i < from + n; i++) if (p dindex[i]) break;]: the
    value of [i] after the loop. *)
Fixpoint scan (p : Z -> bool) (d : list Z) (from n : nat) : nat :=
  match n with
  | O => from
  | S n' => if p (dindex_at d from) then from else scan p d (S from) n'
  end.

(** Removal of the index cache zombies: the entries of the occupied
    slots are asked for their names; [ifr_name] follows the content of
    the local [ifr.ifr_name]. *)
Fixpoint sweep (d : list Z) (ifr_name : string) (from n : nat) : list Z * string :=
  match n with
  | O => (d, ifr_name)
  | S n' =>
      if dindex_at d from =? 0 then sweep d ifr_name (S from) n'
      else
        match ioctl_SIOCGIFNAME (dindex_at d from) with
        | None => sweep (<[from := 0]> d) ifr_name (S from) n'
        | Some name => sweep d name (S from) n'
        end
  end.

(** [idx2dindex]; [ifr_name0] is what the uninitialised local [ifr]
    holds on entry. *)
Definition idx2dindex (ifr_name0 : string) (ifidx : Z) (c : ifcache) : idx_result :=
  let hit := scan (fun x => x =? ifidx) (dindex c) 0 MAXIFNAMES in
  if (hit <? MAXIFNAMES)%nat then Idx_return hit c []
  else
    let '(d1, name1) := sweep (dindex c) ifr_name0 0 MAXIFNAMES in
    let i := scan (fun x => x =? 0) d1 0 MAXIFNAMES in
    if (i =? MAXIFNAMES)%nat then
      Idx_exit 1 {| dindex := d1; devname := devname c;
                    max_devname_len := max_devname_len c |}
        [cache_exhausted_msg]
    else
      let d2 := <[i := ifidx]> d1 in
      let '(name2, err) :=
        match ioctl_SIOCGIFNAME ifidx with
        | Some name => (name, [])
        | None => (name1, ["SIOCGIFNAME"%string])
        end in
      let maxlen :=
        if max_devname_len c <? Z.of_nat (String.length name2)
        then Z.of_nat (String.length name2) else max_devname_len c in
      Idx_return i {| dindex := d2; devname := <[i := name2]> (devname c);
                      max_devname_len := maxlen |} err.

End Idx2dindex.

(** ** Byte reversal

    Memory is one list of bytes; [src] and [dst] are offsets into it, so
    that the two buffers may be the same bytes.  An access outside the
    memory has no defined result. *)

Fixpoint reverse_endian_loop (src dst : nat) (len : Z) (i n : nat) (mem : list Z)
  : option (list Z) :=
  match n with
  | O => Some mem
  | S n' =>
      b ← mem !! (src + Z.to_nat (len - Z.of_nat i - 1))%nat;
      if decide (dst + i < length mem)%nat
      then reverse_endian_loop src dst len (S i) n' (<[(dst + i)%nat := b]> mem)
      else None
  end.

Definition reverse_endian (src dst : nat) (len : Z) (mem : list Z) : option (list Z) :=
  reverse_endian_loop src dst len 0 (Z.to_nat len) mem.

(** The [n] bytes of [mem] from offset [p]. *)
Definition bytes_at (p n : nat) (mem : list Z) : list Z := take n (drop p mem).

(** ** Filter options

    A filter option is read where it lies in memory: [mem] lists the bytes
    from the pointer [ptr] on, the characters of the string, its
    terminating NUL and whatever bytes follow it. *)

Definition NUL : ascii := Ascii.zero.

Fixpoint cstring (mem : list ascii) : list ascii :=
  match mem with
  | [] => []
  | c :: mem' => if Ascii.eqb c NUL then [] else c :: cstring mem'
  end.

Definition c_string (s : string) : list ascii := list_ascii_of_string s ++ [NUL].

Definition isspace (c : ascii) : bool :=
  let n := nat_of_ascii c in
  (n =? 32)%nat || ((9 <=? n)%nat && (n <=? 13)%nat).

Definition hex_value (c : ascii) : option Z :=
  let n := Z.of_nat (nat_of_ascii c) in
  if (48 <=? n) && (n <=? 57) then Some (n - 48)
  else if (97 <=? n) && (n <=? 102) then Some (n - 87)
  else if (65 <=? n) && (n <=? 70) then Some (n - 55)
  else None.

Definition is_hex (c : ascii) : bool :=
  match hex_value c with Some _ => true | None => false end.

Fixpoint skip_space (s : list ascii) : list ascii :=
  match s with
  | c :: s' => if isspace c then skip_space s' else s
  | [] => []
  end.

Fixpoint scan_digits (s : list ascii) (acc : Z) : Z * list ascii :=
  match s with
  | c :: s' =>
      match hex_value c with
      | Some v => scan_digits s' (16 * acc + v)
      | None => (acc, s)
      end
  | [] => (acc, [])
  end.

Inductive conversion :=
  | Conv_ok (v : Z) (rest : list ascii)
  | Conv_mismatch
  | Conv_eof.

(** The conversion [%x] of [sscanf]: white space is skipped, then a sign,
    a [0x] or [0X] prefix and hexadecimal digits are read as [strtoul]
    reads them in base 16; the value is stored in an [unsigned int]. *)
Definition scan_x (s : list ascii) : conversion :=
  match skip_space s with
  | [] => Conv_eof
  | c :: t =>
      let '(neg, s2) :=
        if Ascii.eqb c "-" then (true, t)
        else if Ascii.eqb c "+" then (false, t)
        else (false, c :: t) in
      let s3 :=
        match s2 with
        | z :: x :: t' =>
            if Ascii.eqb z "0" && (Ascii.eqb x "x" || Ascii.eqb x "X") then t' else s2
        | _ => s2
        end in
      match s3 with
      | d :: _ =>
          if is_hex d then
            let '(v, rest) := scan_digits s3 0 in
            Conv_ok (u32 (if neg then - v else v)) rest
          else Conv_mismatch
      | [] => Conv_mismatch
      end
  end.

(** [sscanf(ptr, "%x<sep>%x", &id, &mask)]: the returned count and the
    values assigned. *)
Definition sscanf_x_sep_x (sep : ascii) (s : list ascii) : Z * option Z * option Z :=
  match scan_x s with
  | Conv_eof => (-1, None, None)
  | Conv_mismatch => (0, None, None)
  | Conv_ok id rest =>
      match rest with
      | c :: rest' =>
          if Ascii.eqb c sep then
            match scan_x rest' with
            | Conv_ok m _ => (2, Some id, Some m)
            | _ => (1, Some id, None)
            end
          else (1, Some id, None)
      | [] => (1, Some id, None)
      end
  end.

(** [sscanf(ptr, "#%x", &err_mask)]. *)
Definition sscanf_hash_x (s : list ascii) : Z * option Z :=
  match s with
  | [] => (-1, None)
  | c :: rest =>
      if Ascii.eqb c "#" then
        match scan_x rest with
        | Conv_ok v _ => (1, Some v)
        | Conv_mismatch => (0, None)
        | Conv_eof => (-1, None)
        end
      else (0, None)
  end.

Record can_filter := { filter_can_id : Z; filter_can_mask : Z }.

(** The filter set under construction: the first [numfilter] entries of
    [rfilter], the error mask and the join flag. *)
Record filter_set := {
  rfilter : list can_filter;
  err_mask : Z;
  join_filter : Z
}.

Definition numfilter (fs : filter_set) : nat := length (rfilter fs).

(** The outcome of the parse: the filter set, the option that the error
    message quotes before [_raise_system_error] is called, or no defined
    result (a read outside [mem]). *)
Inductive parse_outcome :=
  | Parse_ok (fs : filter_set)
  | Parse_error (option : list ascii)
  | Parse_undefined.

Definition add_filter (fs : filter_set) (id mask : Z) : filter_set :=
  {| rfilter := rfilter fs ++ [{| filter_can_id := id; filter_can_mask := mask |}];
     err_mask := err_mask fs; join_filter := join_filter fs |}.

(** [|= CAN_EFF_FLAG] when [*(ptr + 8)] is the separator.  The byte is
    read whatever the length of the string; outside [mem] the read has no
    defined result. *)
Definition eff_by_position (mem : list ascii) (sep : ascii) (id : Z) : option Z :=
  c ← mem !! 8%nat;
  Some (if Ascii.eqb c sep then Z.lor id CAN_EFF_FLAG else id).

Definition clear_err_flag (mask : Z) : Z := Z.land mask (u32 (Z.lnot CAN_ERR_FLAG)).

(** One turn of the loop over [filters] (lines 480-505). *)
Definition parse_filter (mem : list ascii) (fs : filter_set) : parse_outcome :=
  let s := cstring mem in
  match sscanf_x_sep_x ":" s with
  | (2, Some id, Some mask) =>
      match eff_by_position mem ":" id with
      | Some id' => Parse_ok (add_filter fs id' (clear_err_flag mask))
      | None => Parse_undefined
      end
  | _ =>
      match sscanf_x_sep_x "~" s with
      | (2, Some id, Some mask) =>
          match eff_by_position mem "~" (Z.lor id CAN_INV_FILTER) with
          | Some id' => Parse_ok (add_filter fs id' (clear_err_flag mask))
          | None => Parse_undefined
          end
      | _ =>
          match mem with
          | [] => Parse_undefined
          | c :: _ =>
              if Ascii.eqb c "j" || Ascii.eqb c "J" then
                Parse_ok {| rfilter := rfilter fs; err_mask := err_mask fs;
                            join_filter := 1 |}
              else
                match sscanf_hash_x s with
                | (1, Some v) =>
                    Parse_ok {| rfilter := rfilter fs; err_mask := v;
                                join_filter := join_filter fs |}
                | _ => Parse_error s
                end
          end
      end
  end.

Definition filter_set_start : filter_set :=
  {| rfilter := []; err_mask := 0; join_filter := 0 |}.

Fixpoint parse_filters (filters : list (list ascii)) (fs : filter_set) : parse_outcome :=
  match filters with
  | [] => Parse_ok fs
  | mem :: filters' =>
      match parse_filter mem fs with
      | Parse_ok fs' => parse_filters filters' fs'
      | other => other
      end
  end.


(** ** The capture loop *)

Record if_info := {
  s : Z;
  cmdlinename : string;
  dropcnt : Z;
  last_dropcnt : Z
}.

Record timespec := { ts_sec : Z; ts_nsec : Z }.

(** A control message: level, type, and its data as the three readings
    the loop takes of it ([struct timeval], [stamp[2]] of three
    [struct timespec], [__u32]). *)
Record cmsghdr := {
  cmsg_level : Z;
  cmsg_type : Z;
  cmsg_timeval : timeval;
  cmsg_stamp2 : timespec;
  cmsg_u32 : Z
}.

(** What [recvmsg] leaves behind for one ready socket: the instance the
    event carries (an index into [sock_info]), the returned byte count,
    [errno], [addr.can_ifindex], [frame], the control messages and
    [msg.msg_flags].  [ev_errno_lookup] is the value that [errno] has
    after the [ioctl] and [perror] calls that [idx2dindex] makes when the
    index is not in its table. *)
Record recv_event := {
  ev_obj : nat;
  ev_nbytes : Z;
  ev_errno : Z;
  ev_errno_lookup : Z;
  ev_ifindex : Z;
  ev_frame : canfd_frame;
  ev_cmsgs : list cmsghdr;
  ev_msg_flags : Z
}.

(** The option variables of [loop]: set once at their declaration. *)
Record settings := {
  timestamp_opt : Z;
  logtimestamp : Z;
  hwtimestamp : Z;
  down_causes_exit : Z;
  dropmonitor : Z;
  extra_msg_info : Z;
  silent : Z;
  color : Z;
  log : Z;
  logfrmt : Z
}.

Definition loop_settings : settings :=
  {| timestamp_opt := 1; logtimestamp := 97; hwtimestamp := 0;
     down_causes_exit := 1; dropmonitor := 0; extra_msg_info := 0;
     silent := SILENT_ON; color := 0; log := 0; logfrmt := 0 |}.

(** The variables of [loop] that change while it runs. *)
Record locals := {
  count : Z;
  view_flags : Z;
  silentani : Z;
  tv : timeval;
  last_tv : timeval
}.

(** The static variables of the file, and the error indicator of the
    interpreter as the code of this file sets it. *)
Record program := {
  running : Z;
  frame_ctr : Z;
  the_ring : ring;
  cache : ifcache;
  sock_info : list if_info;
  _got_keyboard_interrupt : Z;
  py_error : option string
}.

(** A DROPCOUNT line: the values its conversions print. *)
Record drop_line := {
  dl_frames : Z;
  dl_plural : bool;
  dl_devname : string;
  dl_total : Z
}.

Inductive stamp_text :=
  | Stamp_absolute (t : timeval)
  | Stamp_date (t : timeval)
  | Stamp_delta (diff : timeval)
  | Stamp_unchanged.

(** What the loop writes and the system calls it makes, in order; the
    texts are given without their final newline. *)
Inductive output :=
  | Stderr (msg : string)
  | Perror (what : string)
  | Stdout_text (msg : string) (n : Z)
  | Stdout_dropcount (l : drop_line)
  | Logfile_dropcount (l : drop_line)
  | Logfile_frame (stamp : stamp_text) (dev : string) (frame : canfd_frame)
      (maxdlen : Z) (extra_info : string)
  | Stdout_logfrmt (stamp : stamp_text) (dev : string) (frame : canfd_frame)
      (maxdlen : Z) (extra_info : string)
  | Stdout_animation (i : Z)
  | Stdout_frame (stamp : stamp_text) (dev : string) (frame : canfd_frame)
      (view : Z) (maxdlen : Z)
  | Sys_epoll_wait (maxevents : Z) (timeout : Z)
  | Sys_close_all (total_devices : Z).

Record cstate := {
  prog : program;
  loc : locals;
  out : list output
}.

(** How a turn of the loop ends.  [loop] runs between
    Py_BEGIN_ALLOW_THREADS (line 410) and Py_END_ALLOW_THREADS (line
    805), with the thread state of the interpreter saved away: a
    [return (_raise_system_error())] in between calls [PyErr_SetString]
    without a thread state, which the interpreter does not survive.
    [Process_killed] is that end, with the state reached before the
    call; [Process_exit] is the [exit] of [idx2dindex]. *)
Inductive flow :=
  | Next (st : cstate)
  | Process_killed (st : cstate)
  | Process_exit (status : Z) (st : cstate)
  | Undefined_behaviour.

Definition devname_at (c : ifcache) (i : nat) : string :=
  default EmptyString (devname c !! i).

(** [sprint_timestamp]: the text and the new [*last_tv]. *)
Definition sprint_timestamp (mode : Z) (t last : timeval) : stamp_text * timeval :=
  if mode =? 97 then (Stamp_absolute t, last)
  else if mode =? 65 then (Stamp_date t, last)
  else if (mode =? 100) || (mode =? 122) then
    let last1 := if tv_sec last =? 0 then t else last in
    let d_sec := tv_sec t - tv_sec last1 in
    let d_usec := tv_usec t - tv_usec last1 in
    let '(d_sec, d_usec) :=
      if d_usec <? 0 then (d_sec - 1, d_usec + 1000000) else (d_sec, d_usec) in
    let '(d_sec, d_usec) := if d_sec <? 0 then (0, 0) else (d_sec, d_usec) in
    (Stamp_delta {| tv_sec := d_sec; tv_usec := d_usec |},
     if mode =? 100 then t else last1)
  else (Stamp_unchanged, last).

(** The size test on the byte count (lines 675-682). *)
Definition maxdlen_of (nbytes : Z) : option Z :=
  if nbytes =? CAN_MTU then Some CAN_MAX_DLEN
  else if nbytes =? CANFD_MTU then Some CANFD_MAX_DLEN
  else None.

Definition store_hw_timestamp (t : timeval) (r : ring) : ring :=
  let sl := slot_at (frame_buffer r) (buffer_ptr r) in
  {| frame_buffer :=
       set_slot (frame_buffer r) (buffer_ptr r)
         {| timestamp := (double_of_long (tv_usec t) / 1E6)%float; len := len sl;
            arbitration_id := arbitration_id sl; data := data sl |};
     buffer_ptr := buffer_ptr r; read_ptr := read_ptr r |}.

(** The walk over the control messages (lines 686-707). *)
Fixpoint walk_cmsgs (cmsgs : list cmsghdr) (t : timeval) (drops : Z) (r : ring)
  : timeval * Z * ring :=
  match cmsgs with
  | [] => (t, drops, r)
  | c :: rest =>
      if cmsg_level c =? SOL_SOCKET then
        if cmsg_type c =? SO_TIMESTAMP then
          walk_cmsgs rest (cmsg_timeval c) drops r
        else if cmsg_type c =? SO_TIMESTAMPING then
          let t' := {| tv_sec := ts_sec (cmsg_stamp2 c);
                       tv_usec := Z.quot (ts_nsec (cmsg_stamp2 c)) 1000 |} in
          walk_cmsgs rest t' drops (store_hw_timestamp t' r)
        else if cmsg_type c =? SO_RXQ_OVFL then
          walk_cmsgs rest t (cmsg_u32 c) r
        else walk_cmsgs rest t drops r
      else (t, drops, r)
  end.

(** The check for dropped frames on one socket (lines 709-723). *)
Definition check_dropcnt (cfg : settings) (dev : string) (obj : if_info)
  : list output * if_info :=
  if dropcnt obj =? last_dropcnt obj then ([], obj)
  else
    let frames := u32 (dropcnt obj - last_dropcnt obj) in
    let line := {| dl_frames := s32 frames; dl_plural := 1 <? frames;
                   dl_devname := dev; dl_total := s32 (dropcnt obj) |} in
    ((if silent cfg =? SILENT_ON then [] else [Stdout_dropcount line])
       ++ (if log cfg =? 0 then [] else [Logfile_dropcount line]),
     {| s := s obj; cmdlinename := cmdlinename obj; dropcnt := dropcnt obj;
        last_dropcnt := dropcnt obj |}).

Definition no_if_info : if_info :=
  {| s := 0; cmdlinename := EmptyString; dropcnt := 0; last_dropcnt := 0 |}.

(** The first loop of [idx2dindex] finds the index: the function returns
    without a call to the system. *)
Definition idx_cached (ifidx : Z) (c : ifcache) : bool :=
  let hit := scan (fun x => x =? ifidx) (dindex c) 0 MAXIFNAMES in
  (hit <? MAXIFNAMES)%nat.

(** [errno] as line 667 reads it: [idx2dindex] has run since [recvmsg]
    returned (line 664), and on a miss its calls have written [errno]. *)
Definition errno_at_read_test (ev : recv_event) (c : ifcache) : Z :=
  if idx_cached (ev_ifindex ev) c then ev_errno ev else ev_errno_lookup ev.

Section Loop.

Variable ioctl_SIOCGIFNAME : Z -> option string.
(** The content of the uninitialised [ifr] of [idx2dindex]. *)
Variable ifr_name0 : string.
Variable cfg : settings.

(** The text written for a registered frame (lines 746-801); colour
    escapes and the TX/RX column are left out of the events. *)
Definition present (idx : nat) (c : ifcache) (frame : canfd_frame) (maxdlen : Z)
    (extra_info : string) (l : locals) : list output * locals :=
  let dev := devname_at c idx in
  let '(out_log, last1) :=
    if log cfg =? 0 then ([], last_tv l)
    else
      let '(stamp, last') := sprint_timestamp (logtimestamp cfg) (tv l) (last_tv l) in
      ([Logfile_frame stamp dev frame maxdlen extra_info], last') in
  if negb (logfrmt cfg =? 0) && (silent cfg =? SILENT_OFF) then
    let '(stamp, last') := sprint_timestamp (logtimestamp cfg) (tv l) last1 in
    (out_log ++ [Stdout_logfrmt stamp dev frame maxdlen extra_info],
     {| count := count l; view_flags := view_flags l; silentani := silentani l;
        tv := tv l; last_tv := last' |})
  else if negb (silent cfg =? SILENT_OFF) then
    if silent cfg =? SILENT_ANI then
      (out_log ++ [Stdout_animation (silentani l mod MAXANI)],
       {| count := count l; view_flags := view_flags l;
          silentani := silentani l mod MAXANI + 1;
          tv := tv l; last_tv := last1 |})
    else
      (out_log,
       {| count := count l; view_flags := view_flags l; silentani := silentani l;
          tv := tv l; last_tv := last1 |})
  else
    let '(stamp, last') := sprint_timestamp (timestamp_opt cfg) (tv l) last1 in
    (out_log ++ [Stdout_frame stamp dev frame (view_flags l) maxdlen],
     {| count := count l; view_flags := view_flags l; silentani := silentani l;
        tv := tv l; last_tv := last' |}).

(** One turn of the loop over the ready sockets (lines 652-802). *)
Definition dispatch (ev : recv_event) (st : cstate) : flow :=
  let p := prog st in
  let obj := default no_if_info (sock_info p !! ev_obj ev) in
  let with_cache c o :=
    {| prog := {| running := running p; frame_ctr := frame_ctr p;
                  the_ring := the_ring p; cache := c; sock_info := sock_info p;
                  _got_keyboard_interrupt := _got_keyboard_interrupt p;
                  py_error := py_error p |};
       loc := loc st; out := out st ++ o |} in
  let raise st' := Process_killed st' in
  match idx2dindex ioctl_SIOCGIFNAME ifr_name0 (ev_ifindex ev) (cache p) with
  | Idx_exit status c err => Process_exit status (with_cache c (map Stderr err))
  | Idx_return idx c err =>
      if ev_nbytes ev <? 0 then
        if (errno_at_read_test ev (cache p) =? ENETDOWN)
           && (down_causes_exit cfg =? 0) then
          Next (with_cache c (map Perror err
                                ++ [Stderr (devname_at c idx ++ ": interface down")]))
        else raise (with_cache c (map Perror err ++ [Perror "read"]))
      else
        match maxdlen_of (ev_nbytes ev) with
        | None =>
            raise (with_cache c (map Perror err
                                   ++ [Stderr "read: incomplete CAN frame"]))
        | Some maxdlen =>
            let l := loc st in
            let count' := if count l =? 0 then 0 else count l - 1 in
            let running' :=
              if negb (count l =? 0) && (count' =? 0) then 0 else running p in
            let '(tv', drops, r1) :=
              walk_cmsgs (ev_cmsgs ev) (tv l) (dropcnt obj) (the_ring p) in
            let '(out_drop, obj') :=
              check_dropcnt cfg (devname_at c idx)
                {| s := s obj; cmdlinename := cmdlinename obj; dropcnt := drops;
                   last_dropcnt := last_dropcnt obj |} in
            let view' :=
              if Z.land (can_id (ev_frame ev)) CAN_EFF_FLAG =? 0 then view_flags l
              else Z.lor (view_flags l) CANLIB_VIEW_INDENT_SFF in
            let extra_info :=
              if extra_msg_info cfg =? 0 then ""%string
              else if Z.land (ev_msg_flags ev) MSG_DONTROUTE =? 0 then " R"%string
              else " T"%string in
            match register_frame (ev_frame ev) tv' r1 with
            | None => Undefined_behaviour
            | Some r2 =>
                let '(out_text, l') :=
                  present idx c (ev_frame ev) maxdlen extra_info
                    {| count := count'; view_flags := view'; silentani := silentani l;
                       tv := tv'; last_tv := last_tv l |} in
                Next {| prog := {| running := running'; frame_ctr := frame_ctr p;
                                   the_ring := r2; cache := c;
                                   sock_info := <[ev_obj ev := obj']> (sock_info p);
                                   _got_keyboard_interrupt := _got_keyboard_interrupt p;
                                   py_error := py_error p |};
                        loc := l';
                        out := out st ++ map Perror err ++ out_drop ++ out_text |}
            end
        end
  end.

Fixpoint dispatch_all (evs : list recv_event) (st : cstate) : flow :=
  match evs with
  | [] => Next st
  | ev :: evs' =>
      match dispatch ev st with
      | Next st' => dispatch_all evs' st'
      | other => other
      end
  end.

End Loop.

(** [sigterm], the handler of SIGTERM, SIGHUP and SIGINT, run to its
    end: that is its effect in a thread that holds the thread state of
    the interpreter, whose error indicator [PyErr_SetString] sets. *)
Definition sigterm (signo : Z) (st : cstate) : cstate :=
  let p := prog st in
  {| prog := {| running := 0; frame_ctr := frame_ctr p; the_ring := the_ring p;
                cache := cache p; sock_info := sock_info p;
                _got_keyboard_interrupt := 1;
                py_error := Some "CTRL + C received"%string |};
     loc := loc st;
     out := out st ++ [Stdout_text "%d frame received" (frame_ctr p)] |}.

(** [sigterm] in a thread whose thread state is saved away, as the
    thread that runs [loop] is: the statements before [PyErr_SetString]
    take effect, and the call ends the process. *)
Definition sigterm_before_raise (signo : Z) (st : cstate) : cstate :=
  let p := prog st in
  {| prog := {| running := 0; frame_ctr := frame_ctr p; the_ring := the_ring p;
                cache := cache p; sock_info := sock_info p;
                _got_keyboard_interrupt := 1;
                py_error := py_error p |};
     loc := loc st;
     out := out st ++ [Stdout_text "%d frame received" (frame_ctr p)] |}.

Inductive wait_result :=
  | Wait_failed (errno : Z)
  | Wait_ready (evs : list recv_event).

(** The thread that the system picks to run the signal handler: one that
    holds the thread state of the interpreter (a Python thread between
    two calls into this module), or one that does not (the thread that
    runs [loop] among them). *)
Inductive handler_thread :=
  | With_thread_state
  | Without_thread_state.

(** What reaches the loop from outside, in order of arrival: a signal, or
    the return of one [epoll_wait]. *)
Inductive env_step :=
  | Env_signal (signo : Z) (thread : handler_thread)
  | Env_wait (w : wait_result).

Inductive loop_result :=
  | Loop_none (st : cstate)
  | Loop_killed (st : cstate)
  | Loop_exit (status : Z) (st : cstate)
  | Loop_undefined
  | Loop_running (st : cstate).

Definition set_running (v : Z) (p : program) : program :=
  {| running := v; frame_ctr := frame_ctr p; the_ring := the_ring p;
     cache := cache p; sock_info := sock_info p;
     _got_keyboard_interrupt := _got_keyboard_interrupt p;
     py_error := py_error p |}.

Definition add_frame_ctr (n : Z) (p : program) : program :=
  {| running := running p; frame_ctr := frame_ctr p + n; the_ring := the_ring p;
     cache := cache p; sock_info := sock_info p;
     _got_keyboard_interrupt := _got_keyboard_interrupt p;
     py_error := py_error p |}.

Definition close_sockets (total_devices : Z) (st : cstate) : cstate :=
  {| prog := prog st; loc := loc st; out := out st ++ [Sys_close_all total_devices] |}.

Section While.

Variable ioctl_SIOCGIFNAME : Z -> option string.
Variable ifr_name0 : string.
Variable cfg : settings.
Variable total_devices : Z.

(** The [while (running)] loop and what follows it (lines 644-806), run
    against the steps of the environment. *)
Fixpoint loop_while (env : list env_step) (st : cstate) : loop_result :=
  match env with
  | [] =>
      if running (prog st) =? 0 then Loop_none (close_sockets total_devices st)
      else Loop_running st
  | Env_signal signo With_thread_state :: env' => loop_while env' (sigterm signo st)
  | Env_signal signo Without_thread_state :: _ =>
      Loop_killed (sigterm_before_raise signo st)
  | Env_wait w :: env' =>
      if running (prog st) =? 0 then Loop_none (close_sockets total_devices st)
      else
        match int_of_double DEFAULT_TIMEOUT with
        | None => Loop_undefined
        | Some timeout =>
            let st1 := {| prog := prog st; loc := loc st;
                          out := out st ++ [Sys_epoll_wait total_devices timeout] |} in
            match w with
            | Wait_failed errno =>
                loop_while env'
                  (if errno =? EINTR then st1
                   else {| prog := set_running 0 (prog st1); loc := loc st1;
                           out := out st1 |})
            | Wait_ready evs =>
                let st2 := {| prog := add_frame_ctr (Z.of_nat (length evs)) (prog st1);
                              loc := loc st1; out := out st1 |} in
                match dispatch_all ioctl_SIOCGIFNAME ifr_name0 cfg evs st2 with
                | Next st3 => loop_while env' st3
                | Process_killed st3 => Loop_killed st3
                | Process_exit status st3 => Loop_exit status st3
                | Undefined_behaviour => Loop_undefined
                end
            end
        end
  end.

End While.

(** The timeout argument of every [epoll_wait] of the loop. *)
Definition epoll_timeout : option Z := int_of_double DEFAULT_TIMEOUT.

(** ** The Python module *)

(** [terminate]. *)
Definition terminate (p : program) : pyobject * program :=
  (Py_None, set_running 0 p).

(** [get_frame_from_buffer] on the statics of the file. *)
Definition recv (p : program) : pyobject * program :=
  let '(v, r) := get_frame_from_buffer (the_ring p) in
  (v, {| running := running p; frame_ctr := frame_ctr p; the_ring := r;
         cache := cache p; sock_info := sock_info p;
         _got_keyboard_interrupt := _got_keyboard_interrupt p;
         py_error := py_error p |}).

Inductive cfunction :=
  | Fn_call_loop
  | Fn_get_frame_from_buffer
  | Fn_terminate.

Record PyMethodDef := {
  ml_name : string;
  ml_meth : cfunction;
  ml_doc : string
}.

Definition FputsMethods : list PyMethodDef :=
  [ {| ml_name := "loop"; ml_meth := Fn_call_loop;
       ml_doc := "Python interface for candump C library function" |};
    {| ml_name := "recv"; ml_meth := Fn_get_frame_from_buffer;
       ml_doc := "Extracts last message from buffer" |};
    {| ml_name := "terminate"; ml_meth := Fn_get_frame_from_buffer;
       ml_doc := "Stops the reception loop" |} ].

Definition find_method (name : string) : option PyMethodDef :=
  List.find (fun m => String.eqb (ml_name m) name) FputsMethods.

(** A call of the module's method [name] without arguments; [call_loop]
    runs the capture loop and is not a function of the statics alone. *)
Definition call_method (name : string) (p : program) : option (pyobject * program) :=
  m ← find_method name;
  match ml_meth m with
  | Fn_get_frame_from_buffer => Some (recv p)
  | Fn_terminate => Some (terminate p)
  | Fn_call_loop => None
  end.

(** The statics as the program image has them. *)
Definition program_start : program :=
  {| running := 1; frame_ctr := 0; the_ring := ring_start;
     cache := {| dindex := replicate MAXIFNAMES 0;
                 devname := replicate MAXIFNAMES EmptyString;
                 max_devname_len := 0 |};
     sock_info := replicate (Z.to_nat MAXSOCK) no_if_info;
     _got_keyboard_interrupt := 0; py_error := None |}.

(** Frames told apart by their identifier, for the examples. *)
Definition sample_frame (k : Z) (n : Z) : canfd_frame * timeval :=
  ({| can_id := k; fd_len := n; fd_flags := 0;
      fd_data := replicate 8 (k mod 256) ++ replicate 56 0 |},
   {| tv_sec := k; tv_usec := 0 |}).

Definition sample_frames (count : nat) : list (canfd_frame * timeval) :=
  map (fun k => sample_frame (Z.of_nat k) 1) (seq 0 count).

(** A program with one frame waiting in the ring, and the state of a loop
    that has not seen an event yet. *)
Definition one_frame_program : program :=
  {| running := 1; frame_ctr := 1;
     the_ring :=
       {| frame_buffer :=
            <[0%nat := {| timestamp := 1%float; len := 1; arbitration_id := 0x123;
                          data := [7; 0; 0; 0; 0; 0; 0; 0] |}]>
              (frame_buffer ring_start);
          buffer_ptr := 1; read_ptr := 0 |};
     cache := cache program_start; sock_info := sock_info program_start;
     _got_keyboard_interrupt := 0; py_error := None |}.

Definition idle_state : cstate :=
  {| prog := program_start;
     loc := {| count := 0; view_flags := 0; silentani := 0;
               tv := {| tv_sec := 0; tv_usec := 0 |};
               last_tv := {| tv_sec := 0; tv_usec := 0 |} |};
     out := [] |}.

Definition sampled_107 : if_info :=
  {| s := 3; cmdlinename := "vcan0"; dropcnt := 107; last_dropcnt := 100 |}.

(** A receive that returned five bytes on the first socket. *)
Definition short_read : recv_event :=
  {| ev_obj := 0; ev_nbytes := 5; ev_errno := 0; ev_errno_lookup := 0;
     ev_ifindex := 0;
     ev_frame := (sample_frame 0x123 1).1; ev_cmsgs := []; ev_msg_flags := 0 |}.

(** An entry whose interface has gone: occupied, and without a name. *)
Definition zombie (ioctl : Z -> option string) (x : Z) : bool :=
  negb (x =? 0) && match ioctl x with None => true | Some _ => false end.

Definition full_cache : ifcache :=
  {| dindex := map Z.of_nat (seq 1 MAXIFNAMES);
     devname := replicate MAXIFNAMES EmptyString; max_devname_len := 0 |}.

(** A run of hexadecimal digits. *)
Definition hex_digits (ds : list ascii) : Prop :=
  ds <> [] /\ Forall (fun c => is_hex c = true) ds.

(** What may follow the digits of a number: the end of the string, or a
    character that no number contains. *)
Definition stops (tail : list ascii) : Prop :=
  match tail with
  | [] => True
  | c :: _ => is_hex c = false /\ Ascii.eqb c "x" = false /\ Ascii.eqb c "X" = false
  end.

(** Arithmetic of the cursors: goals with [mod 256] and [/ 256]. *)
Ltac mod_lia := zify; Z.to_euclidean_division_equations; lia.
#[local] Arguments Nat.modulo : simpl never.
#[local] Arguments Nat.div : simpl never.

(** ** What holds of the two threads at every step

    [all] are the frames handed to the capture thread, [P] the number of
    registrations it has finished, [R] the number of frames the reader has
    moved past (returned or lost to an overwrite). *)

(** The fields of the slot under [buffer_ptr] that the registration in
    progress has written so far. *)
Definition in_progress (all : list (canfd_frame * timeval)) (m : machine) (P : nat)
  : Prop :=
  match all !! P with
  | Some (f, t) =>
      let sl := slot_at (frame_buffer (m_ring m)) (buffer_ptr (m_ring m)) in
      ((1 <= m_ppc m)%nat ->
       arbitration_id sl = u32 (Z.land (can_id f) CAN_EXTENDED_ID_MASK)) /\
      ((2 <= m_ppc m)%nat -> len sl = u8 (fd_len f)) /\
      ((3 <= m_ppc m)%nat ->
       take (Z.to_nat (fd_len f)) (data sl) = take (Z.to_nat (fd_len f)) (fd_data f)) /\
      ((4 <= m_ppc m)%nat -> timestamp sl = timestamp_of t)
  | None => m_ppc m = 0%nat
  end.

(** Frame [n] is the frame that the reader is reading: it lies in the
    slot under [read_ptr], whole. *)
Definition reading (all : list (canfd_frame * timeval)) (m : machine) (P R n : nat)
    (ft : canfd_frame * timeval) : Prop :=
  (R <= n < P)%nat /\ (n mod 256 = R mod 256)%nat /\ all !! n = Some ft /\
  (P - n < 256 \/ P - n = 256 /\ m_ppc m = 0)%nat.

Definition reader_ok (all : list (canfd_frame * timeval)) (m : machine) (P R : nat)
  : Prop :=
  match m_cpc m with
  | C_idle => True
  | C_checked => (R < P)%nat
  | C_id id =>
      exists n ft, reading all m P R n ft /\ id = py_id (view ft)
  | C_len id l =>
      exists n ft, reading all m P R n ft /\ id = py_id (view ft) /\
                   l = py_len (view ft)
  | C_len2 id l l2 =>
      exists n ft, reading all m P R n ft /\ id = py_id (view ft) /\
                   l = py_len (view ft) /\ l2 = py_len (view ft)
  | C_args id l l2 ts =>
      exists n ft, reading all m P R n ft /\ id = py_id (view ft) /\
                   l = py_len (view ft) /\ l2 = py_len (view ft) /\
                   ts = py_ts (view ft)
  | C_built v =>
      exists n ft, (R <= n < P)%nat /\ (n mod 256 = R mod 256)%nat /\
                   all !! n = Some ft /\ v = view ft
  end.

Record inv (all : list (canfd_frame * timeval)) (m : machine) (P R : nat) : Prop := {
  inv_pending : m_pending m = drop P all;
  inv_done : (P <= length all)%nat;
  inv_len : length (frame_buffer (m_ring m)) = 256%nat;
  inv_bp : buffer_ptr (m_ring m) = Z.of_nat (P mod 256);
  inv_rp : read_ptr (m_ring m) = Z.of_nat (R mod 256);
  inv_le : (R <= P)%nat;
  inv_ppc : (m_ppc m <= 4)%nat;
  inv_slots :
    forall n ft, all !! n = Some ft -> (n < P)%nat ->
      (P - n < 256 \/ P - n = 256 /\ m_ppc m = 0)%nat ->
      build_value (slot_at (frame_buffer (m_ring m)) (Z.of_nat (n mod 256))) = view ft;
  inv_partial : in_progress all m P;
  inv_reader : reader_ok all m P R;
  inv_out : frames_of (m_out m) `sublist_of` map view (take R all)
}.

(** Two schedules of a torn read, on 257 frames of which the last
    differs from the first in every field.  In both the capture thread
    registers 255 frames and the reader tests the cursors.  In the first
    the capture thread then registers frame 255 and writes the id of
    frame 256 into slot 0 before the reader takes its loads.  In the
    second the reader takes its four loads from slot 0, the capture
    thread registers frame 255 and writes id, length and data of frame
    256 into slot 0, and the reader copies the data. *)
Definition lapping_frames : list (canfd_frame * timeval) :=
  sample_frames 256 ++ [sample_frame 511 2].

Definition lapping_schedule : list actor :=
  replicate (5 * 255) Producer ++ [Consumer]
    ++ replicate 5 Producer ++ [Producer] ++ replicate 6 Consumer.

Definition copy_lapping_schedule : list actor :=
  replicate (5 * 255) Producer ++ replicate 5 Consumer
    ++ replicate 5 Producer ++ replicate 3 Producer ++ replicate 2 Consumer.

(** The frames that a sequence of operations registers. *)
Definition pushes_of (ops : list op) : list (canfd_frame * timeval) :=
  omap (fun o => match o with Push frame t => Some (frame, t) | Pop => None end) ops.

(** An extended frame and the standard frame with the same low bits. *)
Definition eff_frame : canfd_frame :=
  {| can_id := 0x80000123; fd_len := 2; fd_flags := 0;
     fd_data := [0xAB; 0xCD] ++ replicate 62 0 |}.

Definition sff_frame : canfd_frame :=
  {| can_id := 0x123; fd_len := 2; fd_flags := 0;
     fd_data := [0xAB; 0xCD] ++ replicate 62 0 |}.

(** The array has its 256 slots and the cursors point into it. *)
Definition ring_ok (r : ring) : Prop :=
  length (frame_buffer r) = 256%nat /\
  0 <= buffer_ptr r < 256 /\ 0 <= read_ptr r < 256.

(** An empty ring whose cursors stand two slots before the end of the
    array, and a ring with three slots between the cursors across the
    end. *)
Definition ring_near_end : ring :=
  {| frame_buffer := frame_buffer ring_start; buffer_ptr := 254; read_ptr := 254 |}.

Definition ring_across_end : ring :=
  {| frame_buffer := frame_buffer ring_start; buffer_ptr := 1; read_ptr := 254 |}.

(** The ring as the call of [init_buffer] at the start of [loop] leaves
    it: the array cleared, the static cursors as they were. *)
Definition ring_after_init (r : ring) : ring :=
  {| frame_buffer := init_buffer (frame_buffer r);
     buffer_ptr := buffer_ptr r; read_ptr := read_ptr r |}.

Definition is_pop (o : op) : bool :=
  match o with Pop => true | Push _ _ => false end.

(** A control message with the three hardware timestamps, and one with
    the software timestamp. *)
Definition hw_stamp_cmsg : cmsghdr :=
  {| cmsg_level := SOL_SOCKET; cmsg_type := SO_TIMESTAMPING;
     cmsg_timeval := {| tv_sec := 0; tv_usec := 0 |};
     cmsg_stamp2 := {| ts_sec := 7; ts_nsec := 250000000 |}; cmsg_u32 := 0 |}.

Definition sw_stamp_cmsg (t : timeval) : cmsghdr :=
  {| cmsg_level := SOL_SOCKET; cmsg_type := SO_TIMESTAMP;
     cmsg_timeval := t;
     cmsg_stamp2 := {| ts_sec := 0; ts_nsec := 0 |}; cmsg_u32 := 0 |}.

(** The cache that a call of [idx2dindex] leaves. *)
Definition cache_after (res : idx_result) : ifcache :=
  match res with
  | Idx_return _ c _ => c
  | Idx_exit _ c _ => c
  end.

(** No interface index occupies two slots. *)
Definition distinct_indices (d : list Z) : Prop :=
  forall j k, (j < MAXIFNAMES)%nat -> (k < MAXIFNAMES)%nat ->
    dindex_at d j = dindex_at d k -> dindex_at d j <> 0 -> j = k.

(** [max_devname_len] is at least the length of every cached name. *)
Definition names_fit (c : ifcache) : Prop :=
  forall i, Z.of_nat (String.length (devname_at c i)) <= max_devname_len c.

(** A table with the indices 3 and 5 in its first two slots. *)
Definition two_cached : ifcache :=
  {| dindex := [3; 5] ++ replicate 28 0;
     devname := ["can0"%string; "can1"%string] ++ replicate 28 EmptyString;
     max_devname_len := 4 |}.

(** The number that a run of hexadecimal digits spells. *)
Definition hex_number (ds : list ascii) : Z := (scan_digits ds 0).1.

(** The characters with which no option can begin. *)
Definition starts_no_option (c : ascii) : Prop :=
  isspace c = false /\ is_hex c = false /\
  Ascii.eqb c "+" = false /\ Ascii.eqb c "-" = false /\
  Ascii.eqb c "j" = false /\ Ascii.eqb c "J" = false /\ Ascii.eqb c "#" = false.

(** A time in microseconds. *)
Definition micros (t : timeval) : Z := tv_sec t * 1000000 + tv_usec t.

Definition is_epoll_wait (o : output) : bool :=
  match o with Sys_epoll_wait _ _ => true | _ => false end.

(** The environment does not begin with a signal. *)
Definition no_signal_first (env : list env_step) : Prop :=
  match env with Env_signal _ _ :: _ => False | _ => True end.

(** A state of the loop with an empty ring near the end of the array, a
    CAN FD frame of twelve bytes, and the events that deliver a classic
    frame and the long one on the first socket. *)
Definition near_end_state : cstate :=
  {| prog := {| running := 1; frame_ctr := 0; the_ring := ring_near_end;
                cache := two_cached; sock_info := sock_info program_start;
                _got_keyboard_interrupt := 0; py_error := None |};
     loc := loc idle_state; out := [] |}.

Definition long_fd_frame : canfd_frame :=
  {| can_id := 0x123; fd_len := 12; fd_flags := 0; fd_data := replicate 64 1 |}.

Definition classic_event (t : timeval) : recv_event :=
  {| ev_obj := 0; ev_nbytes := CAN_MTU; ev_errno := 0; ev_errno_lookup := 0;
     ev_ifindex := 3;
     ev_frame := eff_frame; ev_cmsgs := [sw_stamp_cmsg t]; ev_msg_flags := 0 |}.

Definition long_fd_event : recv_event :=
  {| ev_obj := 0; ev_nbytes := CANFD_MTU; ev_errno := 0; ev_errno_lookup := 0;
     ev_ifindex := 3;
     ev_frame := long_fd_frame; ev_cmsgs := []; ev_msg_flags := 0 |}.

Definition failed_read (errno : Z) : recv_event :=
  {| ev_obj := 0; ev_nbytes := -1; ev_errno := errno; ev_errno_lookup := errno;
     ev_ifindex := 3;
     ev_frame := sff_frame; ev_cmsgs := []; ev_msg_flags := 0 |}.

(** The step is the return of an [epoll_wait] with ready sockets. *)
Definition is_ready (e : env_step) : bool :=
  match e with Env_wait (Wait_ready _) => true | _ => false end.

(** The loop has returned normally. *)
Definition returns_none (r : loop_result) : bool :=
  match r with Loop_none _ => true | _ => false end.

(** What [call_loop] returns once [loop] has returned (lines 841-847):
    NULL, here [None], when [_got_keyboard_interrupt] is set, and the
    Python [None] otherwise; the value that [loop] returned is not
    looked at. *)
Definition call_loop_return (p : program) : option pyobject :=
  if _got_keyboard_interrupt p =? 0 then Some Py_None else None.

(** The state in which a run of the loop ends, if it ends in one. *)
Definition final_state (r : loop_result) : option cstate :=
  match r with
  | Loop_none st | Loop_killed st | Loop_exit _ st | Loop_running st => Some st
  | Loop_undefined => None
  end.

Definition is_signal (e : env_step) : bool :=
  match e with Env_signal _ _ => true | Env_wait _ => false end.


(** [st2] is a state in which a later call of [loop] reaches its [while],
    [st1] being the state the call before left: [init_buffer] (line 405)
    has cleared the slots, and nothing between the entry of [loop] and
    the [while] writes [running], [frame_ctr] or the cursors. *)
Definition reentered (st1 st2 : cstate) : Prop :=
  running (prog st2) = running (prog st1) /\
  frame_ctr (prog st2) = frame_ctr (prog st1) /\
  the_ring (prog st2) = ring_after_init (the_ring (prog st1)).


(** The state that the loop leaves when a signal, handled in a thread
    that holds the thread state, has stopped it before its first wait;
    and a state in which a later call of [loop] then reaches its
    [while], the error of the first call handled by the caller. *)
Definition interrupted_state : cstate :=
  close_sockets 1 (sigterm 2 idle_state).

Definition second_call_state : cstate :=
  {| prog := {| running := 0; frame_ctr := 0;
                the_ring := ring_after_init ring_start;
                cache := cache program_start; sock_info := sock_info program_start;
                _got_keyboard_interrupt := 1; py_error := None |};
     loc := loc idle_state; out := [] |}.

(** * Properties *)

(** ** Ring buffer: slots and cursors *)

Lemma ring_start_ok : ring_ok ring_start.
Proof. repeat split; try reflexivity; simpl; lia. Qed.

Lemma slot_at_set_same (b : list canframe) i f :
  0 <= i -> (Z.to_nat i < length b)%nat -> slot_at (set_slot b i f) i = f.
Proof.
  intros Hi Hlt. unfold slot_at, set_slot.
  by rewrite list_lookup_insert_eq.
Qed.

Lemma slot_at_set_other (b : list canframe) i j f :
  0 <= i -> 0 <= j -> i <> j -> slot_at (set_slot b i f) j = slot_at b j.
Proof.
  intros Hi Hj Hne. unfold slot_at, set_slot.
  rewrite list_lookup_insert_ne; [done | lia].
Qed.

Lemma length_set_slot (b : list canframe) i f :
  length (set_slot b i f) = length b.
Proof. apply length_insert. Qed.

Lemma rem_next (p : Z) :
  0 <= p < 256 -> Z.rem (p + 1) FRAME_BUFFER_SIZE = (p + 1) mod 256.
Proof. intros Hp. unfold FRAME_BUFFER_SIZE. apply Z.rem_mod_nonneg; lia. Qed.

Lemma u8_small (n : Z) : 0 <= n <= 8 -> u8 n = n.
Proof. intros Hn. unfold u8. apply Z.mod_small. lia. Qed.

Lemma take_memcpy (dst src : list Z) (n : nat) :
  (n <= length src)%nat -> take n (memcpy dst src n) = take n src.
Proof.
  intros Hn. unfold memcpy.
  rewrite take_app_le by (rewrite length_take; lia).
  rewrite take_take. f_equal. lia.
Qed.

(** A registration writes the slot under [buffer_ptr], leaves the others
    and moves the cursor by one. *)
Lemma register_frame_spec (frame : canfd_frame) (t : timeval) (r : ring) :
  ring_ok r -> classic_frame frame ->
  exists r',
    register_frame frame t r = Some r' /\
    ring_ok r' /\
    read_ptr r' = read_ptr r /\
    buffer_ptr r' = (buffer_ptr r + 1) mod 256 /\
    build_value (slot_at (frame_buffer r') (buffer_ptr r)) = view (frame, t) /\
    (forall j, 0 <= j -> j <> buffer_ptr r ->
               slot_at (frame_buffer r') j = slot_at (frame_buffer r) j).
Proof.
  intros (Hlen & Hbp & Hrp) (Hfl & Hdata).
  unfold register_frame, store_data.
  replace ((0 <=? fd_len frame) && (fd_len frame <=? 8)) with true
    by (symmetry; apply andb_true_intro; split; lia).
  destruct r as [b bp rp]; simpl in *.
  eexists; split; [reflexivity |].
  assert (Hin : (Z.to_nat bp < length b)%nat) by lia.
  unfold ring_ok; simpl.
  rewrite !length_set_slot, rem_next by lia.
  repeat split; try lia; try (apply Z.mod_pos_bound; lia).
  - repeat (rewrite slot_at_set_same by (rewrite ?length_set_slot; lia); simpl).
    unfold build_value, view; simpl.
    rewrite u8_small by lia. f_equal.
    by apply take_memcpy.
  - intros j Hj Hne.
    rewrite !slot_at_set_other by (auto; lia). done.
Qed.

Lemma push_all_spec (fs : list (canfd_frame * timeval)) :
  forall r, ring_ok r -> Forall (fun ft => classic_frame ft.1) fs ->
  exists r',
    push_all fs r = Some r' /\
    ring_ok r' /\
    read_ptr r' = read_ptr r /\
    buffer_ptr r' = (buffer_ptr r + Z.of_nat (length fs)) mod 256 /\
    (forall (n : nat) ft, fs !! n = Some ft -> (length fs - n <= 256)%nat ->
       build_value (slot_at (frame_buffer r') ((buffer_ptr r + Z.of_nat n) mod 256))
       = view ft) /\
    (forall j, 0 <= j < 256 ->
       (forall k : nat, (k < length fs)%nat -> (buffer_ptr r + Z.of_nat k) mod 256 <> j) ->
       slot_at (frame_buffer r') j = slot_at (frame_buffer r) j).
Proof.
  induction fs as [| [frame t] fs IH]; intros r Hok Hcl.
  - exists r. simpl. repeat split; try apply Hok.
    + rewrite Z.add_0_r, Z.mod_small; [done | apply Hok].
    + intros n ft Hn. by rewrite lookup_nil in Hn.
  - apply Forall_cons in Hcl as [Hf Hcl]. simpl in Hf.
    destruct (register_frame_spec frame t r Hok Hf)
      as (r1 & Hreg & Hok1 & Hrp1 & Hbp1 & Hslot1 & Hframe1).
    destruct (IH r1 Hok1 Hcl) as (r' & Hpush & Hok' & Hrp' & Hbp' & Hslots & Hframe').
    assert (Hb : 0 <= buffer_ptr r < 256) by apply Hok.
    exists r'. simpl. rewrite Hreg. simpl. rewrite Hpush.
    repeat split; try apply Hok'.
    + congruence.
    + rewrite Hbp', Hbp1, Zplus_mod_idemp_l. f_equal. lia.
    + intros n ft Hn Hlen. destruct n as [| n]; simpl in Hn.
      * injection Hn as <-. rewrite Z.add_0_r, Z.mod_small by lia.
        rewrite Hframe'; [done | lia |].
        intros k Hk. rewrite Hbp1, Zplus_mod_idemp_l.
        simpl in Hlen.
        intros Heq.
        assert (Hm : (buffer_ptr r + (1 + Z.of_nat k)) mod 256 = buffer_ptr r mod 256).
        { rewrite <- Heq at 2. rewrite Z.mod_mod by lia. f_equal. lia. }
        rewrite Z.add_mod in Hm by lia.
        rewrite (Z.mod_small (1 + Z.of_nat k)) in Hm by lia.
        rewrite (Z.mod_small (buffer_ptr r)) in Hm by lia.
        destruct (Z_lt_dec (buffer_ptr r + (1 + Z.of_nat k)) 256).
        -- rewrite Z.mod_small in Hm by lia. lia.
        -- replace (buffer_ptr r + (1 + Z.of_nat k))
             with ((buffer_ptr r + (1 + Z.of_nat k) - 256) + 1 * 256) in Hm by lia.
           rewrite Z.mod_add, Z.mod_small in Hm by lia. lia.
      * replace ((buffer_ptr r + Z.of_nat (S n)) mod 256)
          with ((buffer_ptr r1 + Z.of_nat n) mod 256).
        -- apply Hslots; [done | simpl in Hlen; lia].
        -- rewrite Hbp1, Zplus_mod_idemp_l. f_equal. lia.
    + intros j Hj Hfree.
      rewrite Hframe'; [| done |].
      * apply Hframe1; [lia |].
        specialize (Hfree 0%nat). simpl in Hfree.
        rewrite Z.add_0_r, Z.mod_small in Hfree by lia.
        intros ->. apply Hfree; [lia | done].
      * intros k Hk. rewrite Hbp1, Zplus_mod_idemp_l.
        replace (buffer_ptr r + 1 + Z.of_nat k) with (buffer_ptr r + Z.of_nat (S k)) by lia.
        apply Hfree. simpl. lia.
Qed.
Lemma get_frame_empty (r : ring) :
  read_ptr r = buffer_ptr r -> get_frame_from_buffer r = (Py_None, r).
Proof. intros H. unfold get_frame_from_buffer. by rewrite H, Z.eqb_refl. Qed.

Lemma get_frame_nonempty (r : ring) :
  read_ptr r <> buffer_ptr r ->
  get_frame_from_buffer r
  = (Py_Frame (build_value (slot_at (frame_buffer r) (read_ptr r))), advance_read_ptr r).
Proof.
  intros H. unfold get_frame_from_buffer.
  destruct (Z.eqb_spec (read_ptr r) (buffer_ptr r)); [done | reflexivity].
Qed.

(** Draining a ring whose read cursor is behind the write cursor returns
    the slots between the two, in order, and stops on the empty answer. *)
Lemma drain_spec (fuel : nat) :
  forall r, ring_ok r -> read_ptr r <= buffer_ptr r ->
  (Z.to_nat (buffer_ptr r - read_ptr r) <= fuel)%nat ->
  drain fuel r
  = (map (fun j => build_value (slot_at (frame_buffer r) (Z.of_nat j)))
       (seq (Z.to_nat (read_ptr r)) (Z.to_nat (buffer_ptr r - read_ptr r))),
     {| frame_buffer := frame_buffer r; buffer_ptr := buffer_ptr r;
        read_ptr := buffer_ptr r |}).
Proof.
  induction fuel as [| fuel IH]; intros [b bp rp] (Hlen & Hbp & Hrp) Hle Hfuel;
    simpl in *.
  - assert (rp = bp) by lia. subst rp.
    replace (Z.to_nat (bp - bp)) with 0%nat by lia. done.
  - destruct (Z.eq_dec rp bp) as [-> | Hne].
    + rewrite get_frame_empty by done.
      replace (Z.to_nat (bp - bp)) with 0%nat by lia. done.
    + rewrite get_frame_nonempty by done. unfold advance_read_ptr; simpl.
      rewrite rem_next by lia. rewrite Z.mod_small by lia.
      rewrite IH; simpl; [| repeat split; simpl; lia | lia | lia].
      replace (Z.to_nat (bp - rp)) with (S (Z.to_nat (bp - (rp + 1)))) by lia.
      simpl. rewrite Z2Nat.id by lia.
      replace (Z.to_nat (rp + 1)) with (S (Z.to_nat rp)) by lia. done.
Qed.
(** ** C1: what is readable after pushes without pops *)

(** C1, as the code has it: after [n] registrations from the initial
    ring, without any call of [get_frame_from_buffer] in between, the
    reader gets exactly [n mod 256] frames, which are the last [n mod 256]
    frames registered, in the order of their registration, and then the
    empty answer. *)
Theorem overwrite_keeps_tail (fs : list (canfd_frame * timeval)) :
  Forall (fun ft => classic_frame ft.1) fs ->
  exists r r',
    push_all fs ring_start = Some r /\
    drain (Z.to_nat FRAME_BUFFER_SIZE) r
    = (map view (drop (length fs - length fs mod 256) fs), r') /\
    length (drain (Z.to_nat FRAME_BUFFER_SIZE) r).1 = (length fs mod 256)%nat /\
    get_frame_from_buffer r' = (Py_None, r').
Proof.
  intros Hcl.
  destruct (push_all_spec fs ring_start ring_start_ok Hcl)
    as (r & Hpush & Hok & Hrp & Hbp & Hslots & _).
  change (read_ptr ring_start) with 0 in Hrp.
  change (buffer_ptr ring_start) with 0 in Hbp, Hslots.
  set (n := length fs) in *.
  assert (Hk : Z.of_nat n mod 256 = Z.of_nat (n mod 256)).
  { by rewrite Nat2Z.inj_mod. }
  assert (Hklt : (n mod 256 < 256)%nat) by (apply Nat.mod_upper_bound; lia).
  assert (Hdiv : n = (256 * (n / 256) + n mod 256)%nat) by (apply Nat.div_mod; lia).
  rewrite Z.add_0_l, Hk in Hbp.
  assert (Hdrain :
    drain (Z.to_nat FRAME_BUFFER_SIZE) r
    = (map view (drop (n - n mod 256) fs),
       {| frame_buffer := frame_buffer r; buffer_ptr := buffer_ptr r;
          read_ptr := buffer_ptr r |})).
  { rewrite drain_spec; [| done | lia | unfold FRAME_BUFFER_SIZE; lia].
    f_equal. rewrite Hrp, Hbp, Z.sub_0_r, Nat2Z.id. simpl Z.to_nat.
    apply list_eq. intros i.
    rewrite !list_lookup_fmap, lookup_drop.
    destruct (decide (i < n mod 256)%nat) as [Hi | Hi].
    - rewrite lookup_seq_lt by done.
      destruct (fs !! (n - n mod 256 + i)%nat) as [ft |] eqn:Hft.
      + cbn [fmap option_fmap option_map]. f_equal.
        rewrite <- (Hslots _ _ Hft) by lia.
        do 2 f_equal. rewrite Nat.add_0_l, Z.add_0_l.
        replace (Z.of_nat (n - n mod 256 + i))
          with (Z.of_nat i + Z.of_nat (n / 256) * 256) by lia.
        rewrite Z.mod_add, Z.mod_small; lia.
      + apply lookup_ge_None in Hft. fold n in Hft. lia.
    - rewrite lookup_seq_ge by lia.
      rewrite (proj2 (lookup_ge_None fs _)); [done | fold n; lia]. }
  exists r, {| frame_buffer := frame_buffer r; buffer_ptr := buffer_ptr r;
               read_ptr := buffer_ptr r |}.
  split; [done |]. split; [done |]. split.
  - rewrite Hdrain. cbn [fst]. rewrite length_map, length_drop. fold n. lia.
  - by apply get_frame_empty.
Qed.

(** The theorem at 257 frames. *)
Lemma overwrite_keeps_tail_witness :
  exists r r',
    push_all (sample_frames 257) ring_start = Some r /\
    drain (Z.to_nat FRAME_BUFFER_SIZE) r
    = (map view (drop (257 - 257 mod 256) (sample_frames 257)), r') /\
    length (drain (Z.to_nat FRAME_BUFFER_SIZE) r).1 = (257 mod 256)%nat /\
    get_frame_from_buffer r' = (Py_None, r').
Proof.
  apply (overwrite_keeps_tail (sample_frames 257)).
  apply Forall_forall. intros ft Hin.
  apply list_elem_of_fmap in Hin as (k & -> & _).
  split; simpl; lia.
Defined.

(** C1 as stated fails: 257 frames registered without a read leave one
    frame to read, the last one, and not 256. *)
Lemma overwrite_leaves_one_of_257 :
  (r ← push_all (sample_frames 257) ring_start;
   Some (drain (S (Z.to_nat FRAME_BUFFER_SIZE)) r).1)
  = Some [view (sample_frame 256 1)].
Proof. vm_compute. reflexivity. Qed.

(** ** C2: the method exported as "terminate" *)

(** C2: the entry "terminate" of [FputsMethods] holds
    [get_frame_from_buffer], not [terminate]: a call of it leaves
    [running] as it was and takes a frame out of the ring, where the
    function [terminate] would have cleared [running] and left the ring. *)
Theorem exported_terminate_reads_buffer :
  (forall p, call_method "terminate" p = Some (recv p) /\
             running (recv p).2 = running p) /\
  call_method "terminate" one_frame_program
  = Some (Py_Frame {| py_id := 0x123; py_len := 1; py_data := [7]; py_ts := 1%float |},
          {| running := 1; frame_ctr := 1;
             the_ring := {| frame_buffer := frame_buffer (the_ring one_frame_program);
                            buffer_ptr := 1; read_ptr := 1 |};
             cache := cache program_start; sock_info := sock_info program_start;
             _got_keyboard_interrupt := 0; py_error := None |}) /\
  terminate one_frame_program
  = (Py_None, set_running 0 one_frame_program) /\
  (forall p, (terminate (terminate p).2) = terminate p /\
             the_ring (terminate p).2 = the_ring p).
Proof.
  split; [| split; [| split]].
  - intros p. split; [reflexivity |].
    unfold recv. by destruct (get_frame_from_buffer (the_ring p)).
  - reflexivity.
  - reflexivity.
  - intros p. split; reflexivity.
Qed.

(** ** C4: the timeout handed to [epoll_wait] *)

(** C4: [DEFAULT_TIMEOUT] is the [double] 0.2; [epoll_wait] takes an [int]
    of milliseconds, so the value it receives is 0 and the wait returns at
    once: one idle turn of the loop asks for [epoll_wait(..., 0)]. *)
Theorem epoll_timeout_is_zero :
  epoll_timeout = Some 0 /\
  forall ioctl name0 cfg total_devices,
    loop_while ioctl name0 cfg total_devices [Env_wait (Wait_ready [])] idle_state
    = Loop_running
        {| prog := program_start; loc := loc idle_state;
           out := [Sys_epoll_wait total_devices 0] |}.
Proof.
  split; [reflexivity |].
  intros. reflexivity.
Qed.

(** ** The check for dropped frames *)

Lemma s32_u32_small (z : Z) : - 2 ^ 31 <= z < 2 ^ 31 -> s32 (u32 z) = z.
Proof.
  intros Hz. unfold s32, u32. rewrite Z.mod_mod by lia.
  destruct (Z_lt_dec z 0) as [Hneg | Hpos].
  - replace (z mod 2 ^ 32) with (z + 2 ^ 32).
    + destruct (Z.ltb_spec (z + 2 ^ 32) (2 ^ 31)); lia.
    + symmetry. rewrite <- (Z.mod_add z 1 (2 ^ 32)) by lia.
      rewrite Z.mul_1_l. apply Z.mod_small. lia.
  - rewrite Z.mod_small by lia.
    destruct (Z.ltb_spec z (2 ^ 31)); lia.
Qed.

(** The check of lines 709-723, for any values of the two counters and
    of the options.  When the sampled counter differs from the last value
    seen, the DROPCOUNT line carries the difference (reduced to 32 bits,
    and equal to current - last when that fits an [int]) and
    [last_dropcnt] takes the sampled value, so that the same sample
    checked again writes nothing.  The line goes to stdout only when
    [silent] is not SILENT_ON and to the log file only when [log] is set;
    with the option values of [loop] neither holds, and no line is
    written. *)
Theorem drop_delta_is_gated (cfg : settings) (dev : string) (obj : if_info) :
  dropcnt obj <> last_dropcnt obj ->
  exists line obj',
    check_dropcnt cfg dev obj
    = ((if silent cfg =? SILENT_ON then [] else [Stdout_dropcount line])
         ++ (if log cfg =? 0 then [] else [Logfile_dropcount line]), obj') /\
    dl_frames line = s32 (u32 (dropcnt obj - last_dropcnt obj)) /\
    (- 2 ^ 31 <= dropcnt obj - last_dropcnt obj < 2 ^ 31 ->
     dl_frames line = dropcnt obj - last_dropcnt obj) /\
    last_dropcnt obj' = dropcnt obj /\
    dropcnt obj' = dropcnt obj /\
    check_dropcnt cfg dev obj' = ([], obj') /\
    check_dropcnt loop_settings dev obj = ([], obj').
Proof.
  intros Hne. unfold check_dropcnt.
  destruct (Z.eqb_spec (dropcnt obj) (last_dropcnt obj)) as [Heq | _]; [done |].
  eexists; eexists. split; [reflexivity |]. simpl.
  split; [reflexivity |]. split.
  - intros Hfit. by apply s32_u32_small.
  - rewrite Z.eqb_refl. repeat split; reflexivity.
Qed.

Lemma drop_delta_is_gated_witness :
  exists line obj',
    check_dropcnt loop_settings "vcan0" sampled_107
    = ((if silent loop_settings =? SILENT_ON then [] else [Stdout_dropcount line])
         ++ (if log loop_settings =? 0 then [] else [Logfile_dropcount line]), obj') /\
    dl_frames line = s32 (u32 (dropcnt sampled_107 - last_dropcnt sampled_107)) /\
    (- 2 ^ 31 <= dropcnt sampled_107 - last_dropcnt sampled_107 < 2 ^ 31 ->
     dl_frames line = dropcnt sampled_107 - last_dropcnt sampled_107) /\
    last_dropcnt obj' = dropcnt sampled_107 /\
    dropcnt obj' = dropcnt sampled_107 /\
    check_dropcnt loop_settings "vcan0" obj' = ([], obj') /\
    check_dropcnt loop_settings "vcan0" sampled_107 = ([], obj').
Proof.
  apply (drop_delta_is_gated loop_settings "vcan0" sampled_107).
  simpl. lia.
Defined.

(** ** C8: the size of what [recvmsg] returned *)






(** ** C10: byte reversal *)

(** The loop from index [i] on: the bytes of [dst] from [i] take the
    bytes of [src] in reverse; everything else stays. *)
Lemma reverse_endian_loop_spec (src dst : nat) (len : Z) (n : nat) :
  forall (i : nat) (mem : list Z),
    (i + n)%nat = Z.to_nat len -> 0 <= len ->
    (src + Z.to_nat len <= length mem)%nat ->
    (dst + Z.to_nat len <= length mem)%nat ->
    (src + Z.to_nat len <= dst \/ dst + Z.to_nat len <= src)%nat ->
    exists mem',
      reverse_endian_loop src dst len i n mem = Some mem' /\
      length mem' = length mem /\
      forall j : nat,
        mem' !! j =
        if decide (dst + i <= j < dst + Z.to_nat len)%nat
        then mem !! (src + (Z.to_nat len - 1 - (j - dst)))%nat
        else mem !! j.
Proof.
  induction n as [| n IH]; intros i mem Hin Hlen Hsrc Hdst Hsep.
  - exists mem. simpl. repeat split.
    intros j. destruct (decide _); [lia | done].
  - simpl.
    assert (Hidx : Z.to_nat (len - Z.of_nat i - 1) = (Z.to_nat len - 1 - i)%nat) by lia.
    rewrite Hidx.
    destruct (mem !! (src + (Z.to_nat len - 1 - i))%nat) as [b |] eqn:Hb.
    2: { apply lookup_ge_None in Hb. lia. }
    simpl. destruct (decide (dst + i < length mem)%nat) as [_ | Hout]; [| lia].
    destruct (IH (S i) (<[(dst + i)%nat := b]> mem)) as (mem' & Hrun & Hlen' & Hget);
      rewrite ?length_insert; try lia.
    exists mem'. split; [done |]. split; [by rewrite Hlen', length_insert |].
    intros j. rewrite Hget.
    destruct (decide (dst + S i <= j < dst + Z.to_nat len)%nat) as [Hj | Hj].
    + destruct (decide (dst + i <= j < dst + Z.to_nat len)%nat); [| lia].
      rewrite list_lookup_insert_ne by lia. done.
    + destruct (decide (dst + i <= j < dst + Z.to_nat len)%nat) as [Hj' | Hj'].
      * assert (j = (dst + i)%nat) by lia. subst j.
        rewrite list_lookup_insert_eq by lia.
        rewrite <- Hb. f_equal. lia.
      * rewrite list_lookup_insert_ne by lia. done.
Qed.

(** C10, as the code has it: when the [len] bytes at [dst] do not overlap
    the [len] bytes at [src], [reverse_endian] returns, [dst[i]] is
    [src[len - 1 - i]] for every [i < len], every byte outside [dst], those
    of [src] among them, is unchanged, and a second reversal from [dst]
    into any buffer [out] apart from [dst] gives the bytes of [src] in
    their first order. *)
Theorem reverse_endian_apart (src dst out : nat) (len : Z) (mem : list Z) :
  0 <= len ->
  (src + Z.to_nat len <= length mem)%nat ->
  (dst + Z.to_nat len <= length mem)%nat ->
  (out + Z.to_nat len <= length mem)%nat ->
  (src + Z.to_nat len <= dst \/ dst + Z.to_nat len <= src)%nat ->
  (out + Z.to_nat len <= dst \/ dst + Z.to_nat len <= out)%nat ->
  exists mem' mem'',
    reverse_endian src dst len mem = Some mem' /\
    (forall i : nat, (i < Z.to_nat len)%nat ->
       mem' !! (dst + i)%nat = mem !! (src + (Z.to_nat len - 1 - i))%nat) /\
    (forall j : nat, ~ (dst <= j < dst + Z.to_nat len)%nat -> mem' !! j = mem !! j) /\
    bytes_at src (Z.to_nat len) mem' = bytes_at src (Z.to_nat len) mem /\
    reverse_endian dst out len mem' = Some mem'' /\
    bytes_at out (Z.to_nat len) mem'' = bytes_at src (Z.to_nat len) mem.
Proof.
  intros Hlen Hsrc Hdst Hout Hsep Hsep'.
  destruct (reverse_endian_loop_spec src dst len (Z.to_nat len) 0 mem)
    as (mem' & Hrun & Hlen' & Hget); try done.
  destruct (reverse_endian_loop_spec dst out len (Z.to_nat len) 0 mem')
    as (mem'' & Hrun' & Hlen'' & Hget'); try done; try lia.
  exists mem', mem''. unfold reverse_endian.
  split; [done |]. split; [| split; [| split; [| split; [done |]]]].
  - intros i Hi. rewrite Hget.
    destruct (decide _); [| lia]. f_equal. lia.
  - intros j Hj. rewrite Hget. destruct (decide _); [lia | done].
  - unfold bytes_at. apply list_eq. intros k.
    destruct (decide (k < Z.to_nat len)%nat) as [Hk | Hk].
    + rewrite !lookup_take_lt, !lookup_drop by done.
      rewrite Hget. destruct (decide _); [lia | done].
    + rewrite !lookup_take_ge by lia. done.
  - unfold bytes_at. apply list_eq. intros k.
    destruct (decide (k < Z.to_nat len)%nat) as [Hk | Hk].
    + rewrite !lookup_take_lt, !lookup_drop by done.
      rewrite Hget'. destruct (decide _); [| lia].
      rewrite Hget. destruct (decide _); [| lia]. f_equal. lia.
    + rewrite !lookup_take_ge by lia. done.
Qed.

Lemma reverse_endian_apart_witness :
  exists mem' mem'',
    reverse_endian 0 3 3 [1; 2; 3; 0; 0; 0] = Some mem' /\
    (forall i : nat, (i < Z.to_nat 3)%nat ->
       mem' !! (3 + i)%nat = [1; 2; 3; 0; 0; 0] !! (0 + (Z.to_nat 3 - 1 - i))%nat) /\
    (forall j : nat, ~ (3 <= j < 3 + Z.to_nat 3)%nat ->
       mem' !! j = [1; 2; 3; 0; 0; 0] !! j) /\
    bytes_at 0 (Z.to_nat 3) mem' = bytes_at 0 (Z.to_nat 3) [1; 2; 3; 0; 0; 0] /\
    reverse_endian 3 0 3 mem' = Some mem'' /\
    bytes_at 0 (Z.to_nat 3) mem'' = bytes_at 0 (Z.to_nat 3) [1; 2; 3; 0; 0; 0].
Proof.
  apply (reverse_endian_apart 0 3 0 3 [1; 2; 3; 0; 0; 0]); simpl; lia.
Defined.

(** C10 as stated fails when [dst] is [src]: the three bytes 1 2 3
    reversed in place become 3 2 3, so [src] is changed and the last byte
    written is not the first byte [src] had. *)
Lemma reverse_endian_in_place :
  reverse_endian 0 0 3 [1; 2; 3] = Some [3; 2; 3].
Proof. reflexivity. Qed.

(** ** C6: the interface index cache *)

Lemma scan_spec (p : Z -> bool) (d : list Z) (n : nat) :
  forall from,
    (from <= scan p d from n <= from + n)%nat /\
    (forall j, (from <= j < scan p d from n)%nat -> p (dindex_at d j) = false) /\
    ((scan p d from n < from + n)%nat -> p (dindex_at d (scan p d from n)) = true).
Proof.
  induction n as [| n IH]; intros from; simpl.
  - repeat split; intros; lia.
  - destruct (p (dindex_at d from)) eqn:Hp.
    + repeat split; intros; try lia; done.
    + destruct (IH (S from)) as (Hrange & Hbefore & Hat).
      repeat split; try lia.
      * intros j Hj. destruct (decide (j = from)) as [-> | Hne]; [done |].
        apply Hbefore. lia.
      * intros Hlt. apply Hat. lia.
Qed.

Lemma sweep_length ioctl (n : nat) :
  forall d name from, length (sweep ioctl d name from n).1 = length d.
Proof.
  induction n as [| n IH]; intros d name from; simpl; [done |].
  destruct (dindex_at d from =? 0); [apply IH |].
  destruct (ioctl (dindex_at d from)); rewrite IH; [done | apply length_insert].
Qed.

Lemma dindex_at_insert (d : list Z) (i j : nat) (v : Z) :
  (i < length d)%nat ->
  dindex_at (<[i := v]> d) j = if decide (j = i) then v else dindex_at d j.
Proof.
  intros Hi. unfold dindex_at. destruct (decide (j = i)) as [-> | Hne].
  - by rewrite list_lookup_insert_eq.
  - by rewrite list_lookup_insert_ne.
Qed.

(** The sweep clears the zombies among the slots it visits and nothing
    else. *)
Lemma sweep_spec ioctl (n : nat) :
  forall d name from j,
    (from + n <= length d)%nat ->
    dindex_at (sweep ioctl d name from n).1 j =
    if decide (from <= j < from + n)%nat
    then (if zombie ioctl (dindex_at d j) then 0 else dindex_at d j)
    else dindex_at d j.
Proof.
  induction n as [| n IH]; intros d name from j Hlen; simpl.
  - destruct (decide _); [lia | done].
  - unfold zombie in *.
    destruct (Z.eqb_spec (dindex_at d from) 0) as [Hz | Hnz].
    + rewrite IH by lia.
      destruct (decide (S from <= j < S from + n)%nat);
        destruct (decide (from <= j < from + S n)%nat); try lia; try done.
      assert (j = from) by lia. subst j. rewrite Hz. done.
    + destruct (ioctl (dindex_at d from)) as [nm |] eqn:Hio.
      * rewrite IH by lia.
        destruct (decide (S from <= j < S from + n)%nat);
          destruct (decide (from <= j < from + S n)%nat); try lia; try done.
        assert (j = from) by lia. subst j. rewrite Hio.
        by rewrite andb_false_r.
      * rewrite IH by (rewrite length_insert; lia).
        rewrite !dindex_at_insert by lia.
        destruct (decide (S from <= j < S from + n)%nat);
          destruct (decide (from <= j < from + S n)%nat); try lia.
        -- destruct (decide (j = from)); [lia | done].
        -- assert (j = from) by lia. subst j.
           destruct (decide (from = from)); [| done]. rewrite Hio.
           destruct (Z.eqb_spec (dindex_at d from) 0); done.
        -- destruct (decide (j = from)); [lia | done].
Qed.

(** C6: on a miss, the slots whose index has lost its name are cleared
    ([d1] is the table after the sweep), the first free slot of [d1] takes
    the new index, and the process ends with status 1 and the diagnostic
    exactly when [d1] has no free slot. *)
Theorem cache_miss_sweeps_then_allocates ioctl name0 (ifidx : Z) (c : ifcache) :
  length (dindex c) = MAXIFNAMES ->
  (forall i, (i < MAXIFNAMES)%nat -> dindex_at (dindex c) i <> ifidx) ->
  exists d1,
    length d1 = MAXIFNAMES /\
    (forall i, (i < MAXIFNAMES)%nat ->
       dindex_at d1 i =
       if zombie ioctl (dindex_at (dindex c) i) then 0 else dindex_at (dindex c) i) /\
    ((exists i, (i < MAXIFNAMES)%nat /\ dindex_at d1 i = 0) ->
     exists i c' err,
       idx2dindex ioctl name0 ifidx c = Idx_return i c' err /\
       (i < MAXIFNAMES)%nat /\ dindex_at d1 i = 0 /\
       (forall j, (j < i)%nat -> dindex_at d1 j <> 0) /\
       dindex c' = <[i := ifidx]> d1) /\
    ((forall i, (i < MAXIFNAMES)%nat -> dindex_at d1 i <> 0) <->
     exists c', idx2dindex ioctl name0 ifidx c = Idx_exit 1 c' [cache_exhausted_msg]).
Proof.
  intros Hlen Hmiss.
  exists (sweep ioctl (dindex c) name0 0 MAXIFNAMES).1.
  assert (Hsweep : forall i, (i < MAXIFNAMES)%nat ->
            dindex_at (sweep ioctl (dindex c) name0 0 MAXIFNAMES).1 i =
            if zombie ioctl (dindex_at (dindex c) i) then 0
            else dindex_at (dindex c) i).
  { intros i Hi. rewrite sweep_spec by lia. destruct (decide _); [done | lia]. }
  split; [by rewrite sweep_length |]. split; [done |].
  unfold idx2dindex.
  destruct (scan_spec (fun x => x =? ifidx) (dindex c) MAXIFNAMES 0%nat)
    as (Hhit & _ & Hhit_at).
  destruct (Nat.ltb_spec (scan (fun x => x =? ifidx) (dindex c) 0 MAXIFNAMES) MAXIFNAMES)
    as [Hlt | _].
  { specialize (Hhit_at ltac:(lia)). simpl in Hhit_at.
    apply Z.eqb_eq in Hhit_at. by apply Hmiss in Hhit_at. }
  destruct (sweep ioctl (dindex c) name0 0 MAXIFNAMES) as [d1 name1] eqn:Hsw.
  cbn [fst] in *.
  destruct (scan_spec (fun x => x =? 0) d1 MAXIFNAMES 0%nat)
    as (Hfree & Hbefore & Hfree_at).
  set (i := scan (fun x => x =? 0) d1 0 MAXIFNAMES) in *.
  destruct (Nat.eqb_spec i MAXIFNAMES) as [Hfull | Hroom].
  - split.
    + intros (j & Hj & Hzero).
      specialize (Hbefore j ltac:(lia)). simpl in Hbefore. lia.
    + split; [intros _; by eexists |].
      intros _ j Hj. specialize (Hbefore j ltac:(lia)). simpl in Hbefore. lia.
  - assert (Hi : (i < MAXIFNAMES)%nat) by lia.
    specialize (Hfree_at ltac:(lia)). simpl in Hfree_at.
    apply Z.eqb_eq in Hfree_at.
    split.
    + intros _.
      destruct (ioctl ifidx) as [nm |]; eexists i, _, _;
        (split; [reflexivity |]); repeat split; try done;
        intros j Hj; specialize (Hbefore j ltac:(lia)); simpl in Hbefore; lia.
    + split.
      * intros Hall. by apply Hall in Hfree_at.
      * intros (c' & Hexit). destruct (ioctl ifidx); discriminate.
Qed.

(** The theorem on a full table whose entry 7 has lost its name: the
    lookup of the new index 99 takes the slot 6 that entry 7 held. *)
Lemma cache_miss_sweeps_then_allocates_witness :
  exists i c' err,
    idx2dindex (fun x => if x =? 7 then None else Some "vcan"%string) "" 99 full_cache
    = Idx_return i c' err /\ dindex_at (dindex c') 6 = 99.
Proof.
  destruct (cache_miss_sweeps_then_allocates
              (fun x => if x =? 7 then None else Some "vcan"%string) "" 99 full_cache)
    as (d1 & Hlen & Hd1 & Halloc & _).
  - reflexivity.
  - intros i Hi. unfold MAXIFNAMES in Hi.
    do 30 (destruct i as [| i]; [vm_compute; discriminate |]). lia.
  - destruct Halloc as (i & c' & err & Hrun & _).
    + exists 6%nat. split; [unfold MAXIFNAMES; lia |].
      rewrite Hd1 by (unfold MAXIFNAMES; lia). reflexivity.
    + vm_compute in Hrun. injection Hrun as <- <- <-.
      eexists _, _, _. split; reflexivity.
Defined.

(** ** C5: filter options *)

Lemma is_hex_plain (c : ascii) :
  is_hex c = true ->
  isspace c = false /\ Ascii.eqb c "-" = false /\ Ascii.eqb c "+" = false /\
  Ascii.eqb c "x" = false /\ Ascii.eqb c "X" = false /\
  Ascii.eqb c ":" = false /\ Ascii.eqb c "~" = false /\ Ascii.eqb c NUL = false.
Proof.
  destruct c as [[] [] [] [] [] [] [] []]; vm_compute; intros H;
    try discriminate H; repeat split.
Qed.

Lemma hex_value_range (c : ascii) (v : Z) : hex_value c = Some v -> 0 <= v < 16.
Proof.
  destruct c as [[] [] [] [] [] [] [] []]; intros H; vm_compute in H;
    try discriminate H; injection H as <-; lia.
Qed.

(** The digits are read to their end, and their value is below
    [16 ^ length]. *)
Lemma scan_digits_spec (ds : list ascii) :
  Forall (fun c => is_hex c = true) ds ->
  forall (acc : Z) (tail : list ascii),
    stops tail -> 0 <= acc ->
    exists v,
      scan_digits (ds ++ tail) acc = (v, tail) /\
      acc * 16 ^ Z.of_nat (length ds) <= v < (acc + 1) * 16 ^ Z.of_nat (length ds).
Proof.
  induction 1 as [| d ds Hd Hds IH]; intros acc tail Htail Hacc; simpl.
  - exists acc. split; [| lia].
    destruct tail as [| c rest]; [done |]. simpl.
    destruct Htail as (Hc & _). unfold is_hex in Hc.
    by destruct (hex_value c).
  - unfold is_hex in Hd. destruct (hex_value d) as [v |] eqn:Hv; [| discriminate].
    apply hex_value_range in Hv.
    destruct (IH (16 * acc + v) tail Htail ltac:(lia)) as (w & Hrun & Hw).
    exists w. split; [done |].
    rewrite Nat2Z.inj_succ, Z.pow_succ_r by lia. nia.
Qed.

Lemma scan_x_digits (ds tail : list ascii) :
  hex_digits ds -> stops tail ->
  exists v,
    scan_x (ds ++ tail) = Conv_ok (u32 v) tail /\
    0 <= v < 16 ^ Z.of_nat (length ds).
Proof.
  intros [Hne Hds] Htail.
  destruct ds as [| d ds]; [done |].
  apply Forall_cons in Hds as [Hd Hds].
  destruct (is_hex_plain d Hd) as (Hsp & Hminus & Hplus & _).
  destruct (scan_digits_spec (d :: ds) (Forall_cons_2 _ _ _ Hd Hds) 0 tail Htail)
    as (v & Hrun & Hv); [lia |].
  exists v. split; [| lia].
  unfold scan_x. cbn [app skip_space]. rewrite Hsp, Hminus, Hplus.
  assert (Hnoprefix :
    match d :: ds ++ tail with
    | z :: x :: t' =>
        if Ascii.eqb z "0" && (Ascii.eqb x "x" || Ascii.eqb x "X") then t'
        else d :: ds ++ tail
    | _ => d :: ds ++ tail
    end = d :: ds ++ tail).
  { destruct ds as [| e ds]; cbn [app].
    - destruct tail as [| c rest]; [done |].
      destruct Htail as (_ & Hx & HX). by rewrite Hx, HX, andb_false_r.
    - apply Forall_cons in Hds as [He _].
      destruct (is_hex_plain e He) as (_ & _ & _ & Hex & HeX & _).
      by rewrite Hex, HeX, andb_false_r. }
  rewrite Hnoprefix, Hd. cbn [app] in Hrun. by rewrite Hrun.
Qed.

Lemma cstring_terminated (body rest : list ascii) :
  Forall (fun c => Ascii.eqb c NUL = false) body ->
  cstring (body ++ NUL :: rest) = body.
Proof.
  induction 1 as [| c body Hc _ IH]; simpl.
  - done.
  - by rewrite Hc, IH.
Qed.


Lemma byte_at_8 (ids masks rest : list ascii) (sep : ascii) :
  Forall (fun c => is_hex c = true) masks -> sep = ":"%char \/ sep = "~"%char ->
  (length ids = 8%nat ->
   (ids ++ sep :: masks ++ NUL :: rest) !! 8%nat = Some sep) /\
  ((length ids < 8)%nat -> (8 <= length ids + 1 + length masks)%nat ->
   exists c, (ids ++ sep :: masks ++ NUL :: rest) !! 8%nat = Some c /\
             Ascii.eqb c sep = false).
Proof.
  intros Hmasks Hsep. split.
  - intros Hlen. rewrite lookup_app_r by lia. by rewrite Hlen.
  - intros Hlt Hge. rewrite lookup_app_r by lia.
    destruct (8 - length ids)%nat as [| k] eqn:Hk; [lia |]. simpl.
    destruct (decide (k < length masks)%nat) as [Hin | Hout].
    + rewrite lookup_app_l by done.
      destruct (masks !! k) as [c |] eqn:Hc; [| apply lookup_ge_None in Hc; lia].
      exists c. split; [done |].
      assert (Hhex : is_hex c = true).
      { rewrite Forall_forall in Hmasks. apply Hmasks.
        apply list_elem_of_lookup. by exists k. }
      destruct (is_hex_plain c Hhex) as (_ & _ & _ & _ & _ & Hcolon & Htilde & _).
      by destruct Hsep as [-> | ->].
    + rewrite lookup_app_r by lia.
      replace (k - length masks)%nat with 0%nat by lia. simpl.
      exists NUL. split; [done |]. by destruct Hsep as [-> | ->].
Qed.


Lemma hex_digits_no_nul (ds : list ascii) :
  Forall (fun c => is_hex c = true) ds -> Forall (fun c => Ascii.eqb c NUL = false) ds.
Proof.
  intros H. eapply Forall_impl; [exact H |].
  intros c Hc. apply is_hex_plain in Hc. apply Hc.
Qed.




(** The option [123:7FF] alone in its buffer: the test reads the byte
    after the terminator, which the buffer does not hold; with a colon
    in that place the rule gets the flag. *)
Lemma short_option_reads_past_terminator :
  parse_filter (c_string "123:7FF") filter_set_start = Parse_undefined /\
  parse_filter (c_string "123:7FF" ++ [":"%char]) filter_set_start
  = Parse_ok (add_filter filter_set_start 0x80000123 0x7FF).
Proof. split; reflexivity. Qed.

(** ** The two threads: what the schedule preserves *)

Lemma inv_start (all : list (canfd_frame * timeval)) :
  inv all (machine_start all) 0 0.
Proof.
  split; simpl; try done; try lia.
  - unfold in_progress. simpl. destruct (all !! 0%nat) as [[f t] |]; [| done].
    repeat split; lia.
Qed.

Lemma drop_head {A} (l : list A) (n : nat) (x : A) (rest : list A) :
  drop n l = x :: rest -> l !! n = Some x /\ drop (S n) l = rest /\ (n < length l)%nat.
Proof.
  intros H.
  assert (Hx : l !! n = Some x).
  { rewrite <- (Nat.add_0_r n), <- lookup_drop, H. done. }
  split; [done |]. split.
  - apply drop_S in Hx. rewrite Hx in H. by injection H.
  - by apply lookup_lt_Some in Hx.
Qed.

Lemma reader_ok_producer all m m' P P' R :
  reader_ok all m P R -> m_cpc m' = m_cpc m -> (P <= P')%nat ->
  (mid_read (m_cpc m) = true ->
   forall n, (R <= n < P)%nat -> (n mod 256 = R mod 256)%nat ->
     (P - n < 256 \/ P - n = 256 /\ m_ppc m = 0)%nat ->
     (P' - n < 256 \/ P' - n = 256 /\ m_ppc m' = 0)%nat) ->
  reader_ok all m' P' R.
Proof.
  unfold reader_ok, reading. intros Hok -> HP Hnear.
  destruct (m_cpc m); [done | lia | | | | |].
  1-4: destruct Hok as (n & ft & (Hn & Hmod & Hft & Hslot) & Hrest);
       exists n, ft; (split; [| exact Hrest]);
       (split; [lia |]); (split; [done |]); (split; [done |]);
       by apply Hnear.
  destruct Hok as (n & ft & Hn & Hmod & Hft & Hv).
  exists n, ft. repeat split; try done; lia.
Qed.

(** A statement of the capture thread keeps the invariant, unless it
    writes the slot that the reader is in the middle of reading. *)
Lemma producer_step_inv all m P R :
  Forall (fun ft => classic_frame ft.1) all ->
  inv all m P R -> writes_slot_being_read m = false ->
  exists m' P', producer_step m = Some m' /\ inv all m' P' R.
Proof.
  intros Hcl [Hpend Hdone Hlen Hbp Hrp Hle Hppc Hslots Hpart Hreader Hout] Hclean.
  unfold producer_step.
  destruct (m_pending m) as [| [f t] rest] eqn:Hp.
  { exists m, P. split; [done |]. split; try done. by rewrite Hp. }
  pose proof Hpend as Hdrop. symmetry in Hdrop.
  apply drop_head in Hdrop as (HP & Hrest & HPlt).
  assert (Hf : classic_frame f).
  { rewrite Forall_lookup in Hcl. apply (Hcl _ _ HP). }
  destruct Hf as (Hfl & Hfd).
  unfold in_progress in Hpart. rewrite HP in Hpart.
  destruct Hpart as (H1 & H2 & H3 & H4).
  assert (Hother : forall n, (n < P)%nat -> (P - n < 256)%nat ->
                             Z.of_nat (n mod 256) <> Z.of_nat (P mod 256))
    by (intros; mod_lia).
  assert (Hin : (Z.to_nat (Z.of_nat (P mod 256)) < 256)%nat) by mod_lia.
  (* the reader's frame stays out of the way of a write *)
  assert (Hwrite : forall m' : machine,
            m_cpc m' = m_cpc m -> (m_ppc m < 4)%nat ->
            reader_ok all m' P R).
  { intros m' Hcpc Hlt. apply (reader_ok_producer all m m' P P R); try done.
    intros Hmid n Hn Hmod [Hnear | [Hfull Hzero]]; [by left |].
    exfalso. unfold writes_slot_being_read in Hclean.
    rewrite Hmid, Hp, Hrp, Hbp in Hclean.
    replace (Z.of_nat (R mod 256) =? Z.of_nat (P mod 256)) with true in Hclean
      by (symmetry; apply Z.eqb_eq; mod_lia).
    replace (m_ppc m <? 4)%nat with true in Hclean
      by (symmetry; apply Nat.ltb_lt; lia).
    discriminate Hclean. }
  destruct m as [[b bp rp] pend ppc cpc out]. simpl in *. subst bp.
  assert (Hkeep : forall x n ft, all !! n = Some ft -> (n < P)%nat ->
            (P - n < 256)%nat ->
            build_value (slot_at (set_slot b (Z.of_nat (P mod 256)) x)
                           (Z.of_nat (n mod 256))) = view ft).
  { intros x n ft Hn HnP Hnear.
    rewrite slot_at_set_other by (try lia; by apply not_eq_sym, Hother).
    apply Hslots; [done | done | by left]. }
  destruct ppc as [| [| [| [| [| ppc]]]]]; [| | | | | lia].
  - eexists _, P. split; [reflexivity |].
    split; simpl; try done; rewrite ?length_set_slot; try done; try lia.
    + intros n ft Hn HnP [Hnear | [_ Hno]]; [by apply Hkeep | done].
    + unfold in_progress. rewrite HP. simpl.
      rewrite slot_at_set_same by lia. simpl.
      repeat split; intros; try done; lia.
    + apply Hwrite; [done | lia].
  - eexists _, P. split; [reflexivity |].
    split; simpl; try done; rewrite ?length_set_slot; try done; try lia.
    + intros n ft Hn HnP [Hnear | [_ Hno]]; [by apply Hkeep | done].
    + unfold in_progress. rewrite HP. simpl.
      rewrite slot_at_set_same by lia. simpl.
      repeat split; intros; try done; try lia; apply H1; lia.
    + apply Hwrite; [done | lia].
  - unfold store_data. simpl.
    replace ((0 <=? fd_len f) && (fd_len f <=? 8)) with true
      by (symmetry; apply andb_true_intro; split; lia).
    eexists _, P. split; [reflexivity |].
    split; simpl; try done; rewrite ?length_set_slot; try done; try lia.
    + intros n ft Hn HnP [Hnear | [_ Hno]]; [by apply Hkeep | done].
    + unfold in_progress. rewrite HP. simpl.
      rewrite slot_at_set_same by lia. simpl.
      split; [intros _; apply H1; lia |].
      split; [intros _; apply H2; lia |].
      split; [intros _; by apply take_memcpy | lia].
    + apply Hwrite; [done | lia].
  - eexists _, P. split; [reflexivity |].
    split; simpl; try done; rewrite ?length_set_slot; try done; try lia.
    + intros n ft Hn HnP [Hnear | [_ Hno]]; [by apply Hkeep | done].
    + unfold in_progress. rewrite HP. simpl.
      rewrite slot_at_set_same by lia. simpl.
      split; [intros _; apply H1; lia |].
      split; [intros _; apply H2; lia |].
      split; [intros _; apply H3; lia | done].
    + apply Hwrite; [done | lia].
  - eexists _, (S P). split; [reflexivity |].
    split; simpl; try done; try lia.
    + rewrite rem_next by mod_lia. mod_lia.
    + intros n ft Hn HnP Hnear.
      destruct (decide (n = P)) as [-> | Hne].
      * rewrite HP in Hn. injection Hn as <-.
        unfold build_value, view. simpl.
        rewrite H1, H2, H4 by lia. rewrite u8_small by lia.
        f_equal. apply H3. lia.
      * apply Hslots; [done | lia | left; lia].
    + unfold in_progress. simpl.
      destruct (all !! S P) as [[f' t'] |]; [| done]. repeat split; lia.
    + eapply reader_ok_producer; [exact Hreader | done | lia |].
      simpl. intros _ n Hn Hmod [Hnear | [_ Hzero]]; [| done].
      destruct (decide (S P - n < 256)%nat); [by left | right; lia].
Qed.

Lemma take_sublist_take {A} (l : list A) (i j : nat) :
  (i <= j)%nat -> take i l `sublist_of` take j l.
Proof.
  intros Hij. replace (take i l) with (take i (take j l)).
  - apply sublist_take.
  - rewrite take_take. f_equal. lia.
Qed.

(** What the slot under [read_ptr] holds while the reader reads frame
    [n]. *)
Lemma reading_slot all m P R n ft :
  inv all m P R -> reading all m P R n ft ->
  build_value (slot_at (frame_buffer (m_ring m)) (read_ptr (m_ring m))) = view ft.
Proof.
  intros Hinv (Hn & Hmod & Hft & Hnear).
  rewrite (inv_rp _ _ _ _ Hinv), <- Hmod.
  apply (inv_slots _ _ _ _ Hinv); [done | lia | done].
Qed.

(** A statement of the reader keeps the invariant, unless it is the
    first load from the slot that a registration in progress is writing. *)
Lemma consumer_step_inv all m P R :
  inv all m P R -> reads_slot_in_progress m = false ->
  exists R', inv all (consumer_step m) P R'.
Proof.
  intros Hinv Hclean.
  pose proof Hinv as [Hpend Hdone Hlen Hbp Hrp Hle Hppc Hslots Hpart Hreader Hout].
  pose proof (reading_slot all m P R) as Hslot. specialize (Hslot).
  unfold consumer_step, reads_slot_in_progress, reader_ok in *.
  destruct m as [[b bp rp] pend ppc cpc out]. simpl in *.
  destruct cpc as [| | id | id l | id l l2 | id l l2 ts | v].
  - destruct (Z.eqb_spec rp bp) as [Heq | Hne].
    + exists R. split; simpl; try done.
      unfold frames_of in *. rewrite omap_app. simpl. by rewrite app_nil_r.
    + exists R. split; simpl; try done.
      unfold reader_ok. simpl. subst. mod_lia.
  - set (n := (R + 256 * ((P - 1 - R) / 256))%nat).
    assert (Hn : (R <= n < P)%nat /\ (P - n <= 256)%nat /\
                 (n mod 256 = R mod 256)%nat /\
                 ((P - n = 256)%nat -> (P mod 256 = R mod 256)%nat))
      by (subst n; mod_lia).
    destruct Hn as (Hrange & Hnear & Hmod & Hfull).
    destruct (lookup_lt_is_Some_2 all n ltac:(lia)) as [ft Hft].
    assert (Hread : reading all {| m_ring := {| frame_buffer := b; buffer_ptr := bp;
                                                read_ptr := rp |};
                                   m_pending := pend; m_ppc := ppc;
                                   m_cpc := C_checked; m_out := out |} P R n ft).
    { repeat split; try done; try lia. simpl.
      destruct (decide (P - n = 256)%nat) as [H256 | H256]; [right | left; lia].
      split; [done |].
      assert (Hsame : rp = bp) by (rewrite Hrp, Hbp, (Hfull H256); done).
      rewrite Hsame, Z.eqb_refl, andb_true_r in Hclean.
      destruct ppc; [done | discriminate]. }
    exists R. split; simpl; try done.
    unfold reader_ok. cbn [m_cpc]. exists n, ft. split; [exact Hread |].
    exact (f_equal py_id (Hslot n ft Hinv Hread)).
  - destruct Hreader as (n & ft & Hread & Hid).
    exists R. split; simpl; try done.
    unfold reader_ok. cbn [m_cpc]. exists n, ft.
    split; [exact Hread |]. split; [exact Hid |].
    exact (f_equal py_len (Hslot n ft Hinv Hread)).
  - destruct Hreader as (n & ft & Hread & Hid & Hl).
    exists R. split; simpl; try done.
    unfold reader_ok. cbn [m_cpc]. exists n, ft.
    split; [exact Hread |]. split; [exact Hid |]. split; [exact Hl |].
    exact (f_equal py_len (Hslot n ft Hinv Hread)).
  - destruct Hreader as (n & ft & Hread & Hid & Hl & Hl2).
    exists R. split; simpl; try done.
    unfold reader_ok. cbn [m_cpc]. exists n, ft.
    split; [exact Hread |]. split; [exact Hid |]. split; [exact Hl |].
    split; [exact Hl2 |].
    exact (f_equal py_ts (Hslot n ft Hinv Hread)).
  - destruct Hreader as (n & ft & Hread & Hid & Hl & Hl2 & Hts).
    exists R. split; simpl; try done.
    unfold reader_ok. cbn [m_cpc]. exists n, ft.
    pose proof (Hslot n ft Hinv Hread) as Hs.
    destruct Hread as (Hn & Hmod & Hft & Hnear).
    split; [done |]. split; [done |]. split; [done |].
    subst id l l2 ts.
    pose proof (f_equal py_len Hs) as Hlen'. pose proof (f_equal py_data Hs) as Hdata'.
    unfold build_value, view in Hlen', Hdata'. cbn [py_len py_data] in Hlen', Hdata'.
    unfold view. f_equal. rewrite <- Hlen'. exact Hdata'.
  - destruct Hreader as (n & ft & Hrange & Hmod & Hft & ->).
    exists (S n). split; simpl; try done; try lia.
    + rewrite rem_next by mod_lia. rewrite Hrp. mod_lia.
    + unfold frames_of in *. rewrite omap_app. simpl.
      rewrite (take_S_r _ _ _ Hft), map_app. simpl.
      apply sublist_app; [| done].
      etrans; [exact Hout |].
      apply fmap_sublist, take_sublist_take. lia.
Qed.

Lemma run_schedule_total (sched : list actor) :
  forall m, Forall (fun ft => classic_frame ft.1) (m_pending m) ->
            exists m', run_schedule sched m = Some m'.
Proof.
  induction sched as [| a sched IH]; intros m Hcl; simpl; [by eexists |].
  destruct a; simpl.
  - unfold producer_step.
    destruct (m_pending m) as [| [f t] rest] eqn:Hp; simpl.
    + apply IH. by rewrite Hp.
    + pose proof Hcl as Hall.
      apply Forall_cons in Hcl as [[Hf _] Hrest]. simpl in Hf.
      destruct (m_ppc m) as [| [| [| [| k]]]]; simpl; try (apply IH; simpl; done).
      unfold store_data.
      replace ((0 <=? fd_len f) && (fd_len f <=? 8)) with true
        by (symmetry; apply andb_true_intro; split; lia).
      simpl. apply IH. simpl. done.
  - apply IH. unfold consumer_step.
    destruct (m_cpc m); [destruct (_ =? _) | | | | | |]; done.
Qed.

Lemma run_schedule_inv all (sched : list actor) :
  Forall (fun ft => classic_frame ft.1) all ->
  forall m P R m',
    inv all m P R -> undisturbed sched m = true ->
    run_schedule sched m = Some m' ->
    exists P' R', inv all m' P' R'.
Proof.
  intros Hcl. induction sched as [| a sched IH]; intros m P R m' Hinv Hclean Hrun.
  - simpl in Hrun. injection Hrun as <-. by exists P, R.
  - simpl in Hrun, Hclean. apply andb_prop in Hclean as [Hnow Hlater].
    destruct a; apply negb_true_iff in Hnow; simpl in *.
    + destruct (producer_step_inv all m P R Hcl Hinv Hnow) as (m1 & P1 & Hstep & Hinv1).
      rewrite Hstep in Hrun, Hlater. simpl in Hrun.
      by apply (IH m1 P1 R m').
    + destruct (consumer_step_inv all m P R Hinv Hnow) as (R1 & Hinv1).
      by apply (IH (consumer_step m) P R1 m').
Qed.

(** ** C9: order and wholeness of what the reader gets *)

(** C9, as the code has it, for frames of at most 8 data bytes: under
    any schedule of the statements of the two threads the run goes on,
    and as long as the reader never takes its first load from a slot that
    a registration in progress is writing and the capture thread never
    writes a slot between the reader's first load from it and the copy of
    its data, the frames the reader has been given are, in the order of
    their registration, among the frames whose registration was
    complete. *)
Theorem reader_gets_whole_frames_in_order
    (fs : list (canfd_frame * timeval)) (sched : list actor) :
  Forall (fun ft => classic_frame ft.1) fs ->
  exists m,
    run_schedule sched (machine_start fs) = Some m /\
    (undisturbed sched (machine_start fs) = true ->
     exists P, m_pending m = drop P fs /\
               frames_of (m_out m) `sublist_of` map view (take P fs)).
Proof.
  intros Hcl.
  destruct (run_schedule_total sched (machine_start fs) Hcl) as [m Hrun].
  exists m. split; [done |]. intros Hclean.
  destruct (run_schedule_inv fs sched Hcl _ _ _ _ (inv_start fs) Hclean Hrun)
    as (P & R & Hinv).
  exists P. split; [apply Hinv |].
  etrans; [apply Hinv |].
  apply fmap_sublist, take_sublist_take, Hinv.
Qed.

Lemma sample_frames_classic (n : nat) :
  Forall (fun ft => classic_frame ft.1) (sample_frames n).
Proof.
  apply Forall_forall. intros ft Hin.
  apply list_elem_of_fmap in Hin as (k & -> & _).
  split; simpl; lia.
Qed.

(** The theorem on a schedule in which the two threads take turns
    statement by statement: the registrations of two frames interleaved
    with the reads; the schedule is undisturbed, and what comes out is in
    order. *)
Lemma reader_gets_whole_frames_in_order_witness :
  undisturbed (replicate 5 Producer
                 ++ concat (replicate 7 [Consumer; Producer])
                 ++ replicate 8 Consumer)
    (machine_start (sample_frames 2)) = true /\
  exists m P,
    run_schedule (replicate 5 Producer
                    ++ concat (replicate 7 [Consumer; Producer])
                    ++ replicate 8 Consumer)
      (machine_start (sample_frames 2)) = Some m /\
    m_pending m = drop P (sample_frames 2) /\
    frames_of (m_out m) `sublist_of` map view (take P (sample_frames 2)).
Proof.
  assert (Hclean : undisturbed (replicate 5 Producer
                                  ++ concat (replicate 7 [Consumer; Producer])
                                  ++ replicate 8 Consumer)
                     (machine_start (sample_frames 2)) = true)
    by (vm_compute; reflexivity).
  split; [exact Hclean |].
  destruct (reader_gets_whole_frames_in_order (sample_frames 2)
              (replicate 5 Producer
                 ++ concat (replicate 7 [Consumer; Producer])
                 ++ replicate 8 Consumer)
              (sample_frames_classic 2)) as (m & Hrun & Hsafe).
  destruct (Hsafe Hclean) as (P & Hpend & Hsub).
  exists m, P. split; [exact Hrun |]. split; [exact Hpend | exact Hsub].
Defined.

(** C9 as stated fails when the capture thread catches up with the read
    cursor from behind.  Under the first schedule the reader is handed
    the id of frame 256 with the length, data and timestamp of frame 0;
    under the second the id, length and timestamp of frame 0 with the
    data of frame 256.  Neither tuple is a frame that was registered. *)
Lemma reader_gets_torn_frame :
  option_map m_out (run_schedule lapping_schedule (machine_start lapping_frames))
  = Some [Py_Frame {| py_id := 511; py_len := 1; py_data := [0]; py_ts := 0%float |}] /\
  option_map m_out (run_schedule copy_lapping_schedule (machine_start lapping_frames))
  = Some [Py_Frame {| py_id := 0; py_len := 1; py_data := [255]; py_ts := 0%float |}] /\
  view (sample_frame 0 1)
  = {| py_id := 0; py_len := 1; py_data := [0]; py_ts := 0%float |} /\
  view (sample_frame 511 2)
  = {| py_id := 511; py_len := 2; py_data := [255; 255]; py_ts := 511%float |} /\
  filter (fun ft => (can_id ft.1 =? 511) && (fd_len ft.1 =? 1)) lapping_frames = [] /\
  filter (fun ft => (can_id ft.1 =? 0) && (default 0 (fd_data ft.1 !! 0%nat) =? 255))
    lapping_frames = [] /\
  undisturbed lapping_schedule (machine_start lapping_frames) = false /\
  undisturbed copy_lapping_schedule (machine_start lapping_frames) = false.
Proof. repeat split; vm_compute; reflexivity. Qed.

(** ** Whole operations as schedules *)

Lemma run_schedule_app (s1 s2 : list actor) :
  forall m, run_schedule (s1 ++ s2) m = m' ← run_schedule s1 m; run_schedule s2 m'.
Proof.
  induction s1 as [| a s1 IH]; intros m; simpl; [done |].
  destruct (step a m) as [m1 |]; simpl; [apply IH | done].
Qed.

Lemma undisturbed_app (s1 s2 : list actor) :
  forall m m1, run_schedule s1 m = Some m1 ->
    undisturbed (s1 ++ s2) m = undisturbed s1 m && undisturbed s2 m1.
Proof.
  induction s1 as [| a s1 IH]; intros m m1 Hrun; simpl in *.
  - by injection Hrun as ->.
  - destruct (step a m) as [m' |]; simpl in *; [| done].
    rewrite (IH m' m1 Hrun). by rewrite andb_assoc.
Qed.

(** The statements of one read, run without a statement of the capture
    thread in between. *)
Lemma consumer_step_eq (r : ring) pend ppc c out :
  consumer_step {| m_ring := r; m_pending := pend; m_ppc := ppc; m_cpc := c;
                   m_out := out |}
  = let sl := slot_at (frame_buffer r) (read_ptr r) in
    let at_pc c' := {| m_ring := r; m_pending := pend; m_ppc := ppc; m_cpc := c';
                       m_out := out |} in
    match c with
    | C_idle =>
        if read_ptr r =? buffer_ptr r then
          {| m_ring := r; m_pending := pend; m_ppc := ppc; m_cpc := C_idle;
             m_out := out ++ [Py_None] |}
        else at_pc C_checked
    | C_checked => at_pc (C_id (arbitration_id sl))
    | C_id id => at_pc (C_len id (len sl))
    | C_len id n => at_pc (C_len2 id n (len sl))
    | C_len2 id n n2 => at_pc (C_args id n n2 (timestamp sl))
    | C_args id n n2 ts =>
        at_pc (C_built {| py_id := id; py_len := n;
                          py_data := take (Z.to_nat n2) (data sl); py_ts := ts |})
    | C_built v =>
        {| m_ring := advance_read_ptr r; m_pending := pend; m_ppc := ppc;
           m_cpc := C_idle; m_out := out ++ [Py_Frame v] |}
    end.
Proof. reflexivity. Qed.

Lemma pop_steps (r : ring) pend out :
  (read_ptr r =? buffer_ptr r) = false ->
  run_schedule (replicate 7 Consumer)
    {| m_ring := r; m_pending := pend; m_ppc := 0; m_cpc := C_idle; m_out := out |}
  = Some {| m_ring := advance_read_ptr r; m_pending := pend; m_ppc := 0;
            m_cpc := C_idle;
            m_out := out ++ [Py_Frame (build_value
                               (slot_at (frame_buffer r) (read_ptr r)))] |} /\
  undisturbed (replicate 7 Consumer)
    {| m_ring := r; m_pending := pend; m_ppc := 0; m_cpc := C_idle; m_out := out |}
  = true.
Proof.
  intros Hne.
  assert (Hstep : forall m rest,
            run_schedule (Consumer :: rest) m = run_schedule rest (consumer_step m))
    by reflexivity.
  assert (Hclean : forall m rest,
            undisturbed (Consumer :: rest) m
            = negb (reads_slot_in_progress m) && undisturbed rest (consumer_step m))
    by reflexivity.
  cbn [replicate].
  repeat (rewrite ?Hstep, ?Hclean, consumer_step_eq; cbv zeta iota beta;
          rewrite ?Hne).
  split; [reflexivity |].
  unfold reads_slot_in_progress. cbn [m_cpc m_ppc Nat.eqb negb andb]. reflexivity.
Qed.

(** A run of whole operations is the run of a schedule in which no
    statement of one thread falls between the statements of an operation
    of the other. *)
Lemma run_ops_as_schedule (ops : list op) :
  forall m outs r',
    m_ppc m = 0%nat -> m_cpc m = C_idle ->
    (exists later, m_pending m = pushes_of ops ++ later) ->
    run_ops ops (m_ring m) = Some (outs, r') ->
    exists sched m',
      run_schedule sched m = Some m' /\ undisturbed sched m = true /\
      m_ring m' = r' /\ m_out m' = m_out m ++ outs /\
      m_pending m' = drop (length (pushes_of ops)) (m_pending m).
Proof.
  induction ops as [| o ops IH]; intros m outs r' Hppc Hcpc [later Hpend] Hrun.
  - simpl in Hrun. injection Hrun as <- <-.
    exists [], m. simpl. by rewrite app_nil_r.
  - destruct m as [r pend ppc cpc out]. simpl in Hppc, Hcpc, Hpend. subst.
    destruct o as [frame t |]; simpl in Hrun.
    + destruct (register_frame frame t r) as [r1 |] eqn:Hreg; [| done].
      simpl in Hrun. unfold register_frame in Hreg.
      destruct (store_data frame (store_len frame (store_id frame r)))
        as [r3 |] eqn:Hdata; [| done].
      simpl in Hreg. injection Hreg as <-.
      destruct (IH {| m_ring := advance_buffer_ptr (store_timestamp t r3);
                      m_pending := pushes_of ops ++ later; m_ppc := 0;
                      m_cpc := C_idle; m_out := out |} outs r')
        as (sched & m' & Hs & Hu & Hr & Ho & Hp); try done; [by exists later |].
      exists (replicate 5 Producer ++ sched), m'.
      assert (Hfive : run_schedule (replicate 5 Producer)
                {| m_ring := r; m_pending := (frame, t) :: pushes_of ops ++ later;
                   m_ppc := 0; m_cpc := C_idle; m_out := out |}
              = Some {| m_ring := advance_buffer_ptr (store_timestamp t r3);
                        m_pending := pushes_of ops ++ later; m_ppc := 0;
                        m_cpc := C_idle; m_out := out |}).
      { cbn -[store_id store_len store_data store_timestamp advance_buffer_ptr].
        rewrite Hdata. reflexivity. }
      change (((frame, t) :: pushes_of ops) ++ later)
        with ((frame, t) :: pushes_of ops ++ later).
      rewrite run_schedule_app, Hfive. simpl mbind.
      rewrite (undisturbed_app _ _ _ _ Hfive).
      split; [done |]. split; [| done].
      rewrite Hu, andb_true_r.
      cbn -[store_id store_len store_data store_timestamp advance_buffer_ptr].
      rewrite Hdata. reflexivity.
    + destruct (get_frame_from_buffer r) as [v r1] eqn:Hget.
      destruct (run_ops ops r1) as [[vs r2] |] eqn:Hrest; [| done].
      simpl in Hrun. injection Hrun as <- <-.
      unfold get_frame_from_buffer in Hget.
      destruct (read_ptr r =? buffer_ptr r) eqn:Hempty; injection Hget as <- <-.
      * destruct (IH {| m_ring := r; m_pending := pushes_of ops ++ later; m_ppc := 0;
                        m_cpc := C_idle; m_out := out ++ [Py_None] |} vs r2)
          as (sched & m' & Hs & Hu & Hr & Ho & Hp); try done; [by exists later |].
        exists (Consumer :: sched), m'. simpl. unfold consumer_step. simpl.
        rewrite Hempty. simpl in Ho. rewrite <- app_assoc in Ho. done.
      * destruct (IH {| m_ring := advance_read_ptr r;
                        m_pending := pushes_of ops ++ later; m_ppc := 0;
                        m_cpc := C_idle;
                        m_out := out ++ [Py_Frame (build_value
                                   (slot_at (frame_buffer r) (read_ptr r)))] |} vs r2)
          as (sched & m' & Hs & Hu & Hr & Ho & Hp); try done; [by exists later |].
        exists (replicate 7 Consumer ++ sched), m'.
        destruct (pop_steps r (pushes_of ops ++ later) out Hempty) as [Hseven Hclean].
        rewrite run_schedule_app, Hseven. simpl mbind.
        rewrite (undisturbed_app _ _ _ _ Hseven), Hclean, Hu.
        split; [done |]. split; [done |].
        simpl in Ho. rewrite <- app_assoc in Ho. done.
Qed.

Lemma run_ops_total (ops : list op) :
  Forall (fun ft => classic_frame ft.1) (pushes_of ops) ->
  forall r, exists outs r', run_ops ops r = Some (outs, r').
Proof.
  induction ops as [| o ops IH]; intros Hcl r; simpl; [by eexists _, _ |].
  destruct o as [frame t |]; simpl in Hcl.
  - apply Forall_cons in Hcl as [[Hf _] Hcl]. simpl in Hf.
    unfold register_frame, store_data.
    replace ((0 <=? fd_len frame) && (fd_len frame <=? 8)) with true
      by (symmetry; apply andb_true_intro; split; lia).
    simpl. apply IH, Hcl.
  - destruct (get_frame_from_buffer r) as [v r1].
    destruct (IH Hcl r1) as (vs & r2 & ->). simpl. by eexists _, _.
Qed.

(** Whatever the order of whole registrations and reads, the frames read
    are registered frames, in the order of their registration. *)
Lemma run_ops_in_order (ops : list op) outs r :
  Forall (fun ft => classic_frame ft.1) (pushes_of ops) ->
  run_ops ops ring_start = Some (outs, r) ->
  frames_of outs `sublist_of` map view (pushes_of ops).
Proof.
  intros Hcl Hrun.
  destruct (run_ops_as_schedule ops (machine_start (pushes_of ops)) outs r)
    as (sched & m' & Hs & Hu & _ & Ho & _); try done.
  { exists []. simpl. by rewrite app_nil_r. }
  destruct (run_schedule_inv (pushes_of ops) sched Hcl _ _ _ _
              (inv_start (pushes_of ops)) Hu Hs) as (P & R & Hinv).
  simpl in Ho. rewrite <- Ho.
  etrans; [apply Hinv |]. apply fmap_sublist, sublist_take.
Qed.

(** ** C3: what a frame read carries *)

Lemma land_mask_mod (x : Z) : Z.land x CAN_EXTENDED_ID_MASK = x mod 2 ^ 29.
Proof. change CAN_EXTENDED_ID_MASK with (Z.ones 29). apply Z.land_ones. lia. Qed.

Lemma view_id (ft : canfd_frame * timeval) :
  py_id (view ft) = Z.land (can_id ft.1) CAN_EXTENDED_ID_MASK /\
  forall n, 29 <= n -> Z.testbit (py_id (view ft)) n = false.
Proof.
  unfold view. cbn [py_id]. rewrite land_mask_mod.
  assert (Hb : 0 <= can_id ft.1 mod 2 ^ 29 < 2 ^ 29) by (apply Z.mod_pos_bound; lia).
  unfold u32. rewrite Z.mod_small by lia. split; [done |].
  intros n Hn. apply Z.mod_pow2_bits_high. lia.
Qed.

(** C3, as the code has it.  Take any run of whole registrations and
    reads from the initial ring in which every received frame has at most
    8 data bytes.  The run goes through, and every frame read comes from
    a registered frame and carries its [can_id] reduced to the low 29
    bits, so that the extended-frame flag (bit 31), like bits 30 and 29,
    is cleared in it; its payload length; that many payload bytes; and
    the binary64 timestamp [tv_sec + tv_usec / 1E6]. *)
Theorem frame_read_has_masked_id (ops : list op) :
  Forall (fun ft => classic_frame ft.1) (pushes_of ops) ->
  exists outs r,
    run_ops ops ring_start = Some (outs, r) /\
    forall v, Py_Frame v ∈ outs ->
      exists frame t,
        Push frame t ∈ ops /\
        py_id v = Z.land (can_id frame) CAN_EXTENDED_ID_MASK /\
        Z.testbit (py_id v) 31 = false /\
        Z.testbit (py_id v) 30 = false /\
        Z.testbit (py_id v) 29 = false /\
        py_len v = fd_len frame /\
        py_data v = take (Z.to_nat (fd_len frame)) (fd_data frame) /\
        length (py_data v) = Z.to_nat (py_len v) /\
        py_ts v = timestamp_of t.
Proof.
  intros Hcl.
  destruct (run_ops_total ops Hcl ring_start) as (outs & r & Hrun).
  exists outs, r. split; [done |]. intros v Hv.
  assert (Hin : v ∈ frames_of outs).
  { unfold frames_of. apply list_elem_of_omap. by exists (Py_Frame v). }
  pose proof (elem_of_sublist _ _ _ Hin (run_ops_in_order ops outs r Hcl Hrun))
    as Hpushed.
  apply list_elem_of_fmap in Hpushed as (ft & -> & Hft).
  assert (Hclassic : classic_frame ft.1).
  { rewrite Forall_forall in Hcl. by apply Hcl. }
  unfold pushes_of in Hft. apply list_elem_of_omap in Hft as (o & Ho & Hsome).
  destruct o as [frame t |]; [| done]. injection Hsome as <-.
  destruct Hclassic as (Hlen & Hdata). simpl in Hlen, Hdata.
  destruct (view_id (frame, t)) as (Hid & Hbits).
  exists frame, t. split; [done |]. split; [done |].
  rewrite !Hbits by lia. unfold view. simpl.
  rewrite u8_small by lia.
  repeat split; try done; try lia.
  rewrite length_take. lia.
Qed.

Lemma frame_read_has_masked_id_witness :
  exists outs r,
    run_ops [Push eff_frame {| tv_sec := 1; tv_usec := 500000 |}; Pop] ring_start
    = Some (outs, r) /\
    forall v, Py_Frame v ∈ outs -> Z.testbit (py_id v) 31 = false.
Proof.
  destruct (frame_read_has_masked_id
              [Push eff_frame {| tv_sec := 1; tv_usec := 500000 |}; Pop])
    as (outs & r & Hrun & Hall).
  - repeat constructor; simpl; lia.
  - exists outs, r. split; [exact Hrun |].
    intros v Hv. destruct (Hall v Hv) as (frame & t & _ & _ & Hbit & _). exact Hbit.
Defined.

(** C3 as stated fails: the extended frame 0x80000123 is read back with
    the id 0x123, flag gone, exactly as the standard frame 0x123 is. *)
Lemma eff_flag_is_masked_out :
  option_map fst
    (run_ops [Push eff_frame {| tv_sec := 1; tv_usec := 500000 |}; Pop] ring_start)
  = Some [Py_Frame {| py_id := 0x123; py_len := 2; py_data := [0xAB; 0xCD];
                      py_ts := 1.5%float |}] /\
  option_map fst
    (run_ops [Push sff_frame {| tv_sec := 1; tv_usec := 500000 |}; Pop] ring_start)
  = Some [Py_Frame {| py_id := 0x123; py_len := 2; py_data := [0xAB; 0xCD];
                      py_ts := 1.5%float |}] /\
  Z.testbit (can_id eff_frame) 31 = true /\
  Z.testbit 0x123 31 = false.
Proof. repeat split; vm_compute; reflexivity. Qed.

(** * Further properties of the code *)

(** ** Ring buffer: what a reader can get *)

(** Draining any ring returns the slots from the read cursor up to the
    write cursor, wrapping at the end of the array. *)
Lemma drain_wrapping (fuel : nat) :
  forall r, ring_ok r ->
  (Z.to_nat ((buffer_ptr r - read_ptr r) mod 256) <= fuel)%nat ->
  drain fuel r
  = (map (fun j : nat =>
            build_value (slot_at (frame_buffer r) ((read_ptr r + Z.of_nat j) mod 256)))
       (seq 0 (Z.to_nat ((buffer_ptr r - read_ptr r) mod 256))),
     {| frame_buffer := frame_buffer r; buffer_ptr := buffer_ptr r;
        read_ptr := buffer_ptr r |}).
Proof.
  induction fuel as [| fuel IH]; intros [b bp rp] (Hlen & Hbp & Hrp) Hfuel;
    simpl in *.
  - assert (Heq : (bp - rp) mod 256 = 0) by lia.
    assert (rp = bp) by mod_lia. subst rp.
    rewrite Heq. done.
  - destruct (Z.eq_dec rp bp) as [-> | Hne].
    + rewrite get_frame_empty by done.
      rewrite Z.sub_diag. done.
    + rewrite get_frame_nonempty by done. unfold advance_read_ptr; simpl.
      rewrite rem_next by lia.
      assert (Hc : Z.to_nat ((bp - rp) mod 256)
                   = S (Z.to_nat ((bp - (rp + 1) mod 256) mod 256))) by mod_lia.
      rewrite IH; simpl; [| repeat split; simpl; try lia | ]. all: try mod_lia.
      rewrite Hc. simpl. rewrite Z.add_0_r, (Z.mod_small rp) by lia.
      f_equal. f_equal. rewrite <- fmap_S_seq.
      rewrite <- list_fmap_compose. apply list_fmap_ext.
      intros i j _. simpl. do 2 f_equal. mod_lia.
Qed.

(** Wherever the cursors of an empty ring stand, up to 255 frames
    registered in a row are read back complete, each once and in the order
    of registration, across the end of the array; the ring is empty
    again afterwards. *)
Theorem fifo_round_trip (fs : list (canfd_frame * timeval)) (r : ring) :
  ring_ok r -> read_ptr r = buffer_ptr r ->
  Forall (fun ft => classic_frame ft.1) fs -> (length fs <= 255)%nat ->
  exists r1 r2,
    push_all fs r = Some r1 /\
    drain (Z.to_nat FRAME_BUFFER_SIZE) r1 = (map view fs, r2) /\
    get_frame_from_buffer r2 = (Py_None, r2).
Proof.
  intros Hok Hempty Hcl Hshort.
  destruct (push_all_spec fs r Hok Hcl) as (r1 & Hpush & Hok1 & Hrp & Hbp & Hslots & _).
  assert (Hb : 0 <= buffer_ptr r < 256) by apply Hok.
  assert (Hcount : Z.to_nat ((buffer_ptr r1 - read_ptr r1) mod 256) = length fs).
  { rewrite Hrp, Hbp, Hempty. mod_lia. }
  exists r1, {| frame_buffer := frame_buffer r1; buffer_ptr := buffer_ptr r1;
                read_ptr := buffer_ptr r1 |}.
  split; [done |]. split; [| by apply get_frame_empty].
  rewrite drain_wrapping; [| done | unfold FRAME_BUFFER_SIZE; lia].
  f_equal. rewrite Hcount. apply list_eq. intros i.
  rewrite !list_lookup_fmap.
  destruct (fs !! i) as [ft |] eqn:Hft.
  - rewrite lookup_seq_lt by (by apply lookup_lt_Some in Hft).
    cbn [fmap option_fmap option_map]. f_equal.
    rewrite Hrp, Hempty. apply Hslots; [done | lia].
  - rewrite lookup_seq_ge by (by apply lookup_ge_None in Hft). done.
Qed.

Lemma fifo_round_trip_witness :
  exists r1 r2,
    push_all (sample_frames 5) ring_near_end = Some r1 /\
    drain (Z.to_nat FRAME_BUFFER_SIZE) r1 = (map view (sample_frames 5), r2) /\
    get_frame_from_buffer r2 = (Py_None, r2).
Proof.
  apply (fifo_round_trip (sample_frames 5) ring_near_end).
  - repeat split; try reflexivity; simpl; lia.
  - reflexivity.
  - apply sample_frames_classic.
  - simpl. lia.
Defined.

(** A reader can take exactly [(buffer_ptr - read_ptr) mod 256] frames
    from a ring before the empty answer, hence never more than 255; the
    reads leave the array and the write cursor as they were. *)
Theorem readable_count (r : ring) :
  ring_ok r ->
  exists vs r',
    drain (Z.to_nat FRAME_BUFFER_SIZE) r = (vs, r') /\
    length vs = Z.to_nat ((buffer_ptr r - read_ptr r) mod 256) /\
    (length vs <= 255)%nat /\
    get_frame_from_buffer r' = (Py_None, r') /\
    frame_buffer r' = frame_buffer r /\ buffer_ptr r' = buffer_ptr r.
Proof.
  intros Hok.
  assert (Hc : (Z.to_nat ((buffer_ptr r - read_ptr r) mod 256) <= 255)%nat) by mod_lia.
  eexists _, _. split.
  - apply drain_wrapping; [done | unfold FRAME_BUFFER_SIZE; lia].
  - rewrite length_map, length_seq.
    split; [done |]. split; [done |]. split; [by apply get_frame_empty |].
    split; reflexivity.
Qed.

Lemma readable_count_witness :
  exists vs r',
    drain (Z.to_nat FRAME_BUFFER_SIZE) ring_across_end = (vs, r') /\
    length vs = 3%nat /\ get_frame_from_buffer r' = (Py_None, r').
Proof.
  destruct (readable_count ring_across_end) as (vs & r' & Hd & Hl & _ & He & _).
  - repeat split; try reflexivity; simpl; lia.
  - exists vs, r'. split; [exact Hd |]. split; [exact Hl | exact He].
Defined.

(** Whole registrations and reads, in any order and number, keep the
    array at its 256 slots and both cursors within it, and every read is
    answered. *)
Theorem whole_ops_keep_cursors_in_range (ops : list op) (r : ring) :
  ring_ok r -> Forall (fun ft => classic_frame ft.1) (pushes_of ops) ->
  exists outs r',
    run_ops ops r = Some (outs, r') /\ ring_ok r' /\
    length outs = length (List.filter is_pop ops).
Proof.
  revert r. induction ops as [| o ops IH]; intros r Hok Hcl; simpl.
  - by eexists _, _.
  - destruct o as [frame t |]; simpl in Hcl.
    + apply Forall_cons in Hcl as [Hf Hcl]. simpl in Hf.
      destruct (register_frame_spec frame t r Hok Hf) as (r1 & -> & Hok1 & _).
      simpl. by apply IH.
    + destruct (get_frame_from_buffer r) as [v r1] eqn:Hget.
      assert (Hok1 : ring_ok r1).
      { destruct Hok as (Hlen & Hbp & Hrp). unfold get_frame_from_buffer in Hget.
        destruct (read_ptr r =? buffer_ptr r); injection Hget as <- <-;
          [done |].
        unfold ring_ok, advance_read_ptr; simpl. rewrite rem_next by lia.
        repeat split; try done; mod_lia. }
      destruct (IH r1 Hok1 Hcl) as (outs & r' & -> & Hok' & Hn).
      simpl. eexists _, _. split; [done |]. split; [done |]. simpl. by rewrite Hn.
Qed.

Lemma whole_ops_keep_cursors_in_range_witness :
  exists outs r',
    run_ops [Pop; Push (sample_frame 1 1).1 (sample_frame 1 1).2; Pop; Pop]
      ring_near_end = Some (outs, r') /\
    ring_ok r' /\ length outs = 3%nat.
Proof.
  apply (whole_ops_keep_cursors_in_range
           [Pop; Push (sample_frame 1 1).1 (sample_frame 1 1).2; Pop; Pop]
           ring_near_end).
  - repeat split; try reflexivity; simpl; lia.
  - repeat constructor; simpl; lia.
Defined.

(** From the start of the program, any sequence of whole registrations
    and reads hands the reader registered frames only, in the order of
    their registration and each at most once: the frames read are a
    subsequence of the frames registered. *)
Theorem whole_ops_in_order (ops : list op) :
  Forall (fun ft => classic_frame ft.1) (pushes_of ops) ->
  exists outs r,
    run_ops ops ring_start = Some (outs, r) /\
    frames_of outs `sublist_of` map view (pushes_of ops).
Proof.
  intros Hcl.
  destruct (run_ops_total ops Hcl ring_start) as (outs & r & Hrun).
  exists outs, r. split; [done |]. by apply run_ops_in_order with (r := r).
Qed.

Lemma whole_ops_in_order_witness :
  exists outs r,
    run_ops [Push (sample_frame 1 1).1 (sample_frame 1 1).2; Pop;
             Push (sample_frame 2 1).1 (sample_frame 2 1).2; Pop; Pop]
      ring_start = Some (outs, r) /\
    frames_of outs `sublist_of` [view (sample_frame 1 1); view (sample_frame 2 1)].
Proof.
  apply (whole_ops_in_order
           [Push (sample_frame 1 1).1 (sample_frame 1 1).2; Pop;
            Push (sample_frame 2 1).1 (sample_frame 2 1).2; Pop; Pop]).
  repeat constructor; simpl; lia.
Defined.

Lemma clear_slots (b : list canframe) (n : nat) :
  (n <= length b)%nat ->
  foldl (fun b i => <[i := zero_frame]> b) b (seq 0 n)
  = replicate n zero_frame ++ drop n b.
Proof.
  induction n as [| n IH]; intros Hn; [done |].
  rewrite seq_S, foldl_app, IH by lia. simpl.
  rewrite insert_app_r_alt by (rewrite length_replicate; lia).
  rewrite length_replicate, Nat.sub_diag.
  destruct (drop n b) as [| x rest] eqn:Hd.
  { apply (f_equal length) in Hd. rewrite length_drop in Hd. simpl in Hd. lia. }
  simpl. rewrite app_comm_cons.
  change (zero_frame :: replicate n zero_frame) with (replicate (S n) zero_frame).
  rewrite replicate_S_end, <- app_assoc. simpl. do 2 f_equal.
  change rest with (drop 1 (x :: rest)). rewrite <- Hd, drop_drop. f_equal. lia.
Qed.

Lemma init_buffer_clears (b : list canframe) :
  length b = 256%nat -> init_buffer b = replicate 256 zero_frame.
Proof.
  intros Hlen. unfold init_buffer. rewrite clear_slots by (rewrite Hlen; reflexivity).
  change (Z.to_nat FRAME_BUFFER_SIZE) with 256%nat.
  rewrite drop_ge by lia. apply app_nil_r.
Qed.

(** [init_buffer] clears the slots and leaves the cursors: frames not yet
    read when [loop] starts again are still counted as unread, and each of
    them is read back as the empty frame (id 0, length 0, no data,
    timestamp 0). *)
Theorem init_buffer_keeps_unread_count (r : ring) :
  ring_ok r ->
  exists r',
    drain (Z.to_nat FRAME_BUFFER_SIZE) (ring_after_init r)
    = (replicate (Z.to_nat ((buffer_ptr r - read_ptr r) mod 256))
         {| py_id := 0; py_len := 0; py_data := []; py_ts := 0%float |}, r') /\
    frame_buffer r' = replicate 256 zero_frame.
Proof.
  intros Hok. pose proof Hok as (Hlen & Hbp & Hrp).
  assert (Hok' : ring_ok (ring_after_init r)).
  { unfold ring_ok, ring_after_init. cbn [frame_buffer buffer_ptr read_ptr].
    rewrite init_buffer_clears by done. rewrite length_replicate. done. }
  assert (Hc : (Z.to_nat ((buffer_ptr r - read_ptr r) mod 256) <= 255)%nat) by mod_lia.
  exists {| frame_buffer := replicate 256 zero_frame; buffer_ptr := buffer_ptr r;
            read_ptr := buffer_ptr r |}.
  split; [| reflexivity].
  rewrite drain_wrapping;
    [| done | unfold FRAME_BUFFER_SIZE; cbn [ring_after_init buffer_ptr read_ptr]; lia].
  cbn [ring_after_init buffer_ptr read_ptr frame_buffer].
  rewrite init_buffer_clears by done.
  f_equal. apply list_eq. intros i.
  rewrite list_lookup_fmap.
  destruct (decide (i < Z.to_nat ((buffer_ptr r - read_ptr r) mod 256))%nat) as [Hi | Hi].
  - rewrite lookup_seq_lt by done. rewrite (lookup_replicate_2 _ _ i Hi).
    cbn [fmap option_fmap option_map]. f_equal.
    unfold slot_at. rewrite lookup_replicate_2 by mod_lia. reflexivity.
  - rewrite lookup_seq_ge by lia. symmetry. apply lookup_replicate_None. lia.
Qed.

Lemma init_buffer_keeps_unread_count_witness :
  exists r',
    drain (Z.to_nat FRAME_BUFFER_SIZE) (ring_after_init ring_across_end)
    = (replicate 3 {| py_id := 0; py_len := 0; py_data := []; py_ts := 0%float |}, r') /\
    frame_buffer r' = replicate 256 zero_frame.
Proof.
  apply (init_buffer_keeps_unread_count ring_across_end).
  repeat split; try reflexivity; simpl; lia.
Defined.

(** ** Control messages *)

Lemma set_slot_twice (b : list canframe) i x y :
  set_slot (set_slot b i x) i y = set_slot b i y.
Proof. unfold set_slot. apply list_insert_insert_eq. Qed.

Lemma register_after_hw_timestamp frame t t' (r : ring) :
  (Z.to_nat (buffer_ptr r) < length (frame_buffer r))%nat -> 0 <= buffer_ptr r ->
  register_frame frame t (store_hw_timestamp t' r) = register_frame frame t r.
Proof.
  intros Hin Hpos. destruct r as [b bp rp]. simpl in *.
  unfold register_frame, store_data, store_len, store_id, store_hw_timestamp.
  cbn [frame_buffer buffer_ptr read_ptr].
  destruct ((0 <=? fd_len frame) && (fd_len frame <=? 8)); [| done].
  cbn [mbind option_bind]. unfold store_timestamp, advance_buffer_ptr.
  cbn [frame_buffer buffer_ptr read_ptr].
  repeat (rewrite ?set_slot_twice;
          rewrite ?slot_at_set_same by (rewrite ?length_set_slot; lia);
          cbn [timestamp len arbitration_id data]).
  reflexivity.
Qed.

Lemma walk_cmsgs_ring (cmsgs : list cmsghdr) :
  forall t drops (r : ring),
    (Z.to_nat (buffer_ptr r) < length (frame_buffer r))%nat -> 0 <= buffer_ptr r ->
    let r' := (walk_cmsgs cmsgs t drops r).2 in
    buffer_ptr r' = buffer_ptr r /\ read_ptr r' = read_ptr r /\
    length (frame_buffer r') = length (frame_buffer r) /\
    (forall frame tx, register_frame frame tx r' = register_frame frame tx r) /\
    (forall j, 0 <= j -> j <> buffer_ptr r ->
               slot_at (frame_buffer r') j = slot_at (frame_buffer r) j).
Proof.
  induction cmsgs as [| c rest IH]; intros t drops r Hin Hpos; simpl.
  - repeat split; done.
  - destruct (cmsg_level c =? SOL_SOCKET); [| repeat split; done].
    destruct (cmsg_type c =? SO_TIMESTAMP); [by apply IH |].
    destruct (cmsg_type c =? SO_TIMESTAMPING).
    + set (t' := {| tv_sec := _; tv_usec := _ |}).
      destruct (IH t' drops (store_hw_timestamp t' r)) as (Hb & Hr & Hl & Hreg & Hsl).
      * simpl. by rewrite length_set_slot.
      * done.
      * simpl in *. rewrite length_set_slot in Hl.
        repeat split; try done.
        -- intros frame tx. rewrite Hreg. by apply register_after_hw_timestamp.
        -- intros j Hj Hne. rewrite Hsl by done.
           by rewrite slot_at_set_other.
    + destruct (cmsg_type c =? SO_RXQ_OVFL); by apply IH.
Qed.

(** The write of the hardware timestamp into the slot under
    [buffer_ptr] (line 704) never shows: whatever control messages came,
    the registration that follows leaves the ring exactly as if the walk
    had not touched it, and the walk touches no other slot and no cursor. *)
Theorem hw_timestamp_store_is_overwritten
    (cmsgs : list cmsghdr) (t : timeval) (drops : Z) (r : ring)
    (frame : canfd_frame) (tx : timeval) :
  ring_ok r ->
  register_frame frame tx (walk_cmsgs cmsgs t drops r).2 = register_frame frame tx r /\
  buffer_ptr (walk_cmsgs cmsgs t drops r).2 = buffer_ptr r /\
  read_ptr (walk_cmsgs cmsgs t drops r).2 = read_ptr r /\
  forall j, 0 <= j -> j <> buffer_ptr r ->
    slot_at (frame_buffer (walk_cmsgs cmsgs t drops r).2) j = slot_at (frame_buffer r) j.
Proof.
  intros (Hlen & Hbp & Hrp).
  destruct (walk_cmsgs_ring cmsgs t drops r) as (Hb & Hr & _ & Hreg & Hsl); try lia.
  repeat split; try done.
Qed.

Lemma hw_timestamp_store_is_overwritten_witness :
  register_frame sff_frame {| tv_sec := 7; tv_usec := 250000 |}
    (walk_cmsgs [hw_stamp_cmsg] {| tv_sec := 0; tv_usec := 0 |} 0 ring_near_end).2
  = register_frame sff_frame {| tv_sec := 7; tv_usec := 250000 |} ring_near_end.
Proof.
  apply (hw_timestamp_store_is_overwritten [hw_stamp_cmsg]
           {| tv_sec := 0; tv_usec := 0 |} 0 ring_near_end sff_frame
           {| tv_sec := 7; tv_usec := 250000 |}).
  repeat split; try reflexivity; simpl; lia.
Defined.

(** ** Interface index cache: hits, round trip, invariants *)

Lemma idx2dindex_hit ioctl name0 (ifidx : Z) (c : ifcache) (i : nat) :
  (i < MAXIFNAMES)%nat -> dindex_at (dindex c) i = ifidx ->
  (forall j, (j < i)%nat -> dindex_at (dindex c) j <> ifidx) ->
  idx2dindex ioctl name0 ifidx c = Idx_return i c [].
Proof.
  intros Hi Hat Hbefore. unfold idx2dindex.
  destruct (scan_spec (fun x => x =? ifidx) (dindex c) MAXIFNAMES 0%nat)
    as (Hrange & Hnone & Hfound).
  set (hit := scan (fun x => x =? ifidx) (dindex c) 0 MAXIFNAMES) in *.
  assert (Hhit : hit = i).
  { destruct (lt_eq_lt_dec hit i) as [[Hlt | Heq] | Hgt]; [| done |].
    - specialize (Hfound ltac:(lia)). simpl in Hfound.
      apply Z.eqb_eq in Hfound. by apply Hbefore in Hfound.
    - specialize (Hnone i ltac:(lia)). simpl in Hnone.
      apply Z.eqb_neq in Hnone. done. }
  rewrite Hhit. destruct (Nat.ltb_spec i MAXIFNAMES); [done | lia].
Qed.

(** What a miss does, in terms of the swept table and its first free
    slot. *)
Lemma idx2dindex_miss ioctl name0 (ifidx : Z) (c : ifcache) :
  (forall i, (i < MAXIFNAMES)%nat -> dindex_at (dindex c) i <> ifidx) ->
  let d1 := (sweep ioctl (dindex c) name0 0 MAXIFNAMES).1 in
  let name1 := (sweep ioctl (dindex c) name0 0 MAXIFNAMES).2 in
  let i := scan (fun x => x =? 0) d1 0 MAXIFNAMES in
  (i <= MAXIFNAMES)%nat /\
  (forall j, (j < i)%nat -> dindex_at d1 j <> 0) /\
  if (i =? MAXIFNAMES)%nat then
    idx2dindex ioctl name0 ifidx c
    = Idx_exit 1 {| dindex := d1; devname := devname c;
                    max_devname_len := max_devname_len c |} [cache_exhausted_msg]
  else
    dindex_at d1 i = 0 /\
    exists name2 err,
      (name2, err) = match ioctl ifidx with
                     | Some name => (name, [])
                     | None => (name1, ["SIOCGIFNAME"%string])
                     end /\
      idx2dindex ioctl name0 ifidx c
      = Idx_return i
          {| dindex := <[i := ifidx]> d1; devname := <[i := name2]> (devname c);
             max_devname_len :=
               if max_devname_len c <? Z.of_nat (String.length name2)
               then Z.of_nat (String.length name2) else max_devname_len c |} err.
Proof.
  intros Hmiss d1 name1 i. unfold idx2dindex.
  destruct (scan_spec (fun x => x =? ifidx) (dindex c) MAXIFNAMES 0%nat)
    as (_ & _ & Hhit_at).
  destruct (Nat.ltb_spec (scan (fun x => x =? ifidx) (dindex c) 0 MAXIFNAMES) MAXIFNAMES)
    as [Hlt | _].
  { specialize (Hhit_at ltac:(lia)). simpl in Hhit_at.
    apply Z.eqb_eq in Hhit_at. by apply Hmiss in Hhit_at. }
  subst d1 name1 i.
  destruct (sweep ioctl (dindex c) name0 0 MAXIFNAMES) as [d1 name1]. cbn [fst snd].
  destruct (scan_spec (fun x => x =? 0) d1 MAXIFNAMES 0%nat)
    as (Hfree & Hbefore & Hfree_at).
  set (i := scan (fun x => x =? 0) d1 0 MAXIFNAMES) in *.
  split; [lia |]. split.
  { intros j Hj. specialize (Hbefore j ltac:(lia)). simpl in Hbefore. lia. }
  destruct (Nat.eqb_spec i MAXIFNAMES) as [Hfull | Hroom]; [done |].
  specialize (Hfree_at ltac:(lia)). simpl in Hfree_at. apply Z.eqb_eq in Hfree_at.
  split; [done |].
  destruct (ioctl ifidx) as [nm |]; eexists _, _; split; reflexivity.
Qed.

(** A lookup of an index that the table holds returns the first slot
    holding it and leaves the table, the names and [max_devname_len] as
    they are, without asking the system for any name. *)
Theorem cache_hit_returns_first_slot ioctl name0 (ifidx : Z) (c : ifcache) (i : nat) :
  (i < MAXIFNAMES)%nat -> dindex_at (dindex c) i = ifidx ->
  (forall j, (j < i)%nat -> dindex_at (dindex c) j <> ifidx) ->
  idx2dindex ioctl name0 ifidx c = Idx_return i c [].
Proof. apply idx2dindex_hit. Qed.

Lemma cache_hit_returns_first_slot_witness :
  idx2dindex (fun _ => None) "" 5 two_cached = Idx_return 1 two_cached [].
Proof.
  apply (cache_hit_returns_first_slot (fun _ => None) "" 5 two_cached 1).
  - unfold MAXIFNAMES. lia.
  - reflexivity.
  - intros j Hj. assert (j = 0%nat) as -> by lia. vm_compute. discriminate.
Defined.

(** An index entered on a miss is found again: the next lookup of it,
    whatever the system answers by then, returns the slot it was given
    and changes nothing. *)
Theorem cache_lookup_after_insert ioctl ioctl' name0 name0' (ifidx : Z)
    (c c' : ifcache) (i : nat) (err : list string) :
  length (dindex c) = MAXIFNAMES ->
  (forall j, (j < MAXIFNAMES)%nat -> dindex_at (dindex c) j <> ifidx) ->
  idx2dindex ioctl name0 ifidx c = Idx_return i c' err ->
  idx2dindex ioctl' name0' ifidx c' = Idx_return i c' [].
Proof.
  intros Hlen Hmiss Hrun.
  destruct (idx2dindex_miss ioctl name0 ifidx c Hmiss) as (Hle & Hbefore & Hcase).
  set (d1 := (sweep ioctl (dindex c) name0 0 MAXIFNAMES).1) in *.
  set (k := scan (fun x => x =? 0) d1 0 MAXIFNAMES) in *.
  assert (Hlen1 : length d1 = MAXIFNAMES) by (subst d1; by rewrite sweep_length).
  destruct (Nat.eqb_spec k MAXIFNAMES) as [Hfull | Hroom].
  { rewrite Hcase in Hrun. discriminate. }
  destruct Hcase as (Hzero & name2 & err2 & _ & Hret).
  rewrite Hret in Hrun. injection Hrun as <- <- <-.
  apply idx2dindex_hit; cbn [dindex].
  - lia.
  - rewrite dindex_at_insert by lia. by destruct (decide (k = k)).
  - intros j Hj. rewrite dindex_at_insert by lia.
    destruct (decide (j = k)); [lia |].
    pose proof (Hbefore j Hj) as Hnz. subst d1.
    rewrite sweep_spec in Hnz |- * by lia.
    destruct (decide (0 <= j < 0 + MAXIFNAMES)%nat); [| lia].
    destruct (zombie ioctl (dindex_at (dindex c) j)); [done |].
    apply Hmiss. lia.
Qed.

Lemma cache_lookup_after_insert_witness :
  idx2dindex (fun _ => None) "" 9
    (cache_after (idx2dindex (fun _ => Some "can2"%string) "" 9 two_cached))
  = Idx_return 2
      (cache_after (idx2dindex (fun _ => Some "can2"%string) "" 9 two_cached)) [].
Proof.
  apply (cache_lookup_after_insert (fun _ => Some "can2"%string) (fun _ => None)
           "" "" 9 two_cached _ 2 []).
  - reflexivity.
  - intros j Hj. unfold MAXIFNAMES in Hj.
    do 30 (destruct j as [| j]; [vm_compute; discriminate |]). lia.
  - reflexivity.
Defined.

Lemma swept_entry ioctl (d : list Z) name0 (j : nat) :
  length d = MAXIFNAMES -> (j < MAXIFNAMES)%nat ->
  dindex_at (sweep ioctl d name0 0 MAXIFNAMES).1 j <> 0 ->
  dindex_at (sweep ioctl d name0 0 MAXIFNAMES).1 j = dindex_at d j.
Proof.
  intros Hlen Hj. rewrite sweep_spec by lia.
  destruct (decide (0 <= j < 0 + MAXIFNAMES)%nat); [| lia].
  by destruct (zombie ioctl (dindex_at d j)).
Qed.

Lemma hit_or_miss (d : list Z) (ifidx : Z) :
  (exists i, (i < MAXIFNAMES)%nat /\ dindex_at d i = ifidx /\
             forall j, (j < i)%nat -> dindex_at d j <> ifidx) \/
  (forall i, (i < MAXIFNAMES)%nat -> dindex_at d i <> ifidx).
Proof.
  destruct (scan_spec (fun x => x =? ifidx) d MAXIFNAMES 0%nat)
    as (Hrange & Hnone & Hfound).
  set (hit := scan (fun x => x =? ifidx) d 0 MAXIFNAMES) in *.
  destruct (lt_dec hit MAXIFNAMES) as [Hlt | Hge].
  - left. exists hit. split; [done |]. split.
    + specialize (Hfound ltac:(lia)). simpl in Hfound. by apply Z.eqb_eq.
    + intros j Hj. specialize (Hnone j ltac:(lia)). simpl in Hnone.
      by apply Z.eqb_neq.
  - right. intros i Hi. specialize (Hnone i ltac:(lia)). simpl in Hnone.
    by apply Z.eqb_neq.
Qed.

(** If no interface index occupies two slots before a lookup, none does
    after it, whether the lookup hits, enters the index or ends the
    process. *)
Theorem lookup_keeps_indices_distinct ioctl name0 (ifidx : Z) (c : ifcache) :
  length (dindex c) = MAXIFNAMES -> distinct_indices (dindex c) ->
  distinct_indices (dindex (cache_after (idx2dindex ioctl name0 ifidx c))).
Proof.
  intros Hlen Hdist.
  destruct (hit_or_miss (dindex c) ifidx) as [(i & Hi & Hat & Hbefore) | Hmiss].
  { by rewrite (idx2dindex_hit ioctl name0 ifidx c i Hi Hat Hbefore). }
  destruct (idx2dindex_miss ioctl name0 ifidx c Hmiss) as (Hle & Hbefore & Hcase).
  set (d1 := (sweep ioctl (dindex c) name0 0 MAXIFNAMES).1) in *.
  set (k := scan (fun x => x =? 0) d1 0 MAXIFNAMES) in *.
  assert (Hlen1 : length d1 = MAXIFNAMES) by (subst d1; by rewrite sweep_length).
  assert (Hd1 : distinct_indices d1).
  { intros a b Ha Hb Heq Hnz. subst d1.
    assert (Hnzb : dindex_at (sweep ioctl (dindex c) name0 0 MAXIFNAMES).1 b <> 0)
      by (by rewrite <- Heq).
    pose proof (swept_entry ioctl _ name0 a Hlen Ha Hnz) as Ea.
    pose proof (swept_entry ioctl _ name0 b Hlen Hb Hnzb) as Eb.
    rewrite Ea in Hnz. rewrite Ea, Eb in Heq. by apply Hdist. }
  destruct (Nat.eqb_spec k MAXIFNAMES) as [Hfull | Hroom].
  { by rewrite Hcase. }
  destruct Hcase as (Hzero & name2 & err2 & _ & ->). cbn [cache_after dindex].
  intros a b Ha Hb. rewrite !dindex_at_insert by lia.
  destruct (decide (a = k)) as [-> | Hak]; destruct (decide (b = k)) as [-> | Hbk];
    try done.
  - intros Heq Hnz. exfalso. apply (Hmiss b Hb).
    subst d1. rewrite Heq in Hnz.
    rewrite <- (swept_entry ioctl _ name0 b Hlen Hb Hnz). by symmetry.
  - intros Heq Hnz. exfalso. apply (Hmiss a Ha).
    subst d1. by rewrite <- (swept_entry ioctl _ name0 a Hlen Ha Hnz).
  - by apply Hd1.
Qed.

Lemma two_cached_distinct : distinct_indices (dindex two_cached).
Proof.
  assert (Hrest : forall j, dindex_at (dindex two_cached) (S (S j)) = 0).
  { intros j. unfold dindex_at, two_cached. cbn [dindex app lookup list_lookup].
    destruct (replicate 28 0 !! j) as [x |] eqn:Hx; [| done].
    apply lookup_replicate in Hx as [-> _]. done. }
  intros j k _ _ Heq Hnz.
  destruct j as [| [| j]]; destruct k as [| [| k]];
    rewrite ?Hrest in Heq; rewrite ?Hrest in Hnz; try done;
    vm_compute in Heq; discriminate.
Qed.

Lemma lookup_keeps_indices_distinct_witness :
  distinct_indices
    (dindex (cache_after (idx2dindex (fun _ => Some "can2"%string) "" 9 two_cached))).
Proof.
  apply (lookup_keeps_indices_distinct (fun _ => Some "can2"%string) "" 9 two_cached).
  - reflexivity.
  - apply two_cached_distinct.
Defined.

(** [max_devname_len] never shrinks and stays at least as long as every
    cached name, through any lookup. *)
Theorem lookup_keeps_names_fit ioctl name0 (ifidx : Z) (c : ifcache) :
  names_fit c ->
  names_fit (cache_after (idx2dindex ioctl name0 ifidx c)) /\
  max_devname_len c <= max_devname_len (cache_after (idx2dindex ioctl name0 ifidx c)).
Proof.
  intros Hfit.
  destruct (hit_or_miss (dindex c) ifidx) as [(i & Hi & Hat & Hbefore) | Hmiss].
  { rewrite (idx2dindex_hit ioctl name0 ifidx c i Hi Hat Hbefore).
    cbn [cache_after]. split; [done | lia]. }
  destruct (idx2dindex_miss ioctl name0 ifidx c Hmiss) as (_ & _ & Hcase).
  destruct (_ =? _)%nat.
  { rewrite Hcase. cbn [cache_after max_devname_len]. split; [| lia].
    intros j. specialize (Hfit j). unfold devname_at in *.
    by cbn [devname max_devname_len]. }
  destruct Hcase as (_ & name2 & err2 & _ & ->). cbn [cache_after max_devname_len].
  set (i := scan _ _ _ _).
  split.
  - intros j. unfold devname_at. cbn [devname max_devname_len].
    specialize (Hfit j). unfold devname_at in Hfit.
    destruct (decide (j = i /\ (i < length (devname c))%nat)) as [[-> Hin] | Hne].
    + rewrite list_lookup_insert_eq by done. simpl.
      destruct (Z.ltb_spec (max_devname_len c) (Z.of_nat (String.length name2))); lia.
    + assert (Hsame : <[i := name2]> (devname c) !! j = devname c !! j).
      { destruct (decide (j = i)) as [-> | Hji].
        - rewrite list_insert_ge; [done | lia].
        - by rewrite list_lookup_insert_ne. }
      rewrite Hsame.
      destruct (Z.ltb_spec (max_devname_len c) (Z.of_nat (String.length name2))); lia.
  - destruct (Z.ltb_spec (max_devname_len c) (Z.of_nat (String.length name2))); lia.
Qed.

Lemma two_cached_names_fit : names_fit two_cached.
Proof.
  intros i. unfold devname_at, two_cached. cbn [devname max_devname_len].
  destruct i as [| [| i]]; cbn [app lookup list_lookup default from_option id String.length length];
    try (simpl; lia).
  destruct (replicate 28 EmptyString !! i) as [x |] eqn:Hx; simpl; [| lia].
  apply lookup_replicate in Hx as [-> _]. simpl. lia.
Qed.

Lemma lookup_keeps_names_fit_witness :
  names_fit (cache_after (idx2dindex (fun _ => Some "vcan12"%string) "" 9 two_cached)) /\
  4 <= max_devname_len
         (cache_after (idx2dindex (fun _ => Some "vcan12"%string) "" 9 two_cached)).
Proof.
  apply (lookup_keeps_names_fit (fun _ => Some "vcan12"%string) "" 9 two_cached).
  apply two_cached_names_fit.
Defined.

Lemma dindex_at_insert_ne (d : list Z) (i j : nat) (v : Z) :
  j <> i -> dindex_at (<[i := v]> d) j = dindex_at d j.
Proof. intros Hne. unfold dindex_at. by rewrite list_lookup_insert_ne. Qed.

Lemma sweep_spec' ioctl (n : nat) :
  forall d name from j, (j < from)%nat ->
    dindex_at (sweep ioctl d name from n).1 j = dindex_at d j.
Proof.
  induction n as [| n IH]; intros d name from j Hj; simpl; [done |].
  destruct (dindex_at d from =? 0); [apply IH; lia |].
  destruct (ioctl (dindex_at d from)); rewrite IH by lia; [done |].
  apply dindex_at_insert_ne. lia.
Qed.

(** A sweep in which no occupied slot gets a name leaves [ifr.ifr_name]
    as it was and the slots it visits free. *)
Lemma sweep_unresolved ioctl (n : nat) :
  forall d name from,
    (forall j, (from <= j < from + n)%nat ->
               dindex_at d j = 0 \/ ioctl (dindex_at d j) = None) ->
    (sweep ioctl d name from n).2 = name /\
    forall j, (from <= j < from + n)%nat -> (j < length d)%nat ->
              dindex_at (sweep ioctl d name from n).1 j = 0.
Proof.
  induction n as [| n IH]; intros d name from Hun; simpl.
  - split; [done |]. intros j Hj. lia.
  - destruct (Z.eqb_spec (dindex_at d from) 0) as [Hz | Hnz].
    + destruct (IH d name (S from)) as (Hname & Hfree).
      { intros j Hj. apply Hun. lia. }
      split; [done |]. intros j Hj Hlen.
      destruct (decide (j = from)) as [-> | Hne]; [| apply Hfree; lia].
      rewrite sweep_spec' by lia. done.
    + destruct (Hun from ltac:(lia)) as [Hz | Hio]; [done |]. rewrite Hio.
      destruct (IH (<[from := 0]> d) name (S from)) as (Hname & Hfree).
      { intros j Hj. rewrite dindex_at_insert_ne by lia. apply Hun. lia. }
      split; [done |]. intros j Hj Hlen.
      destruct (decide (j = from)) as [-> | Hne].
      * rewrite sweep_spec' by lia. rewrite dindex_at_insert by done.
        by destruct (decide (from = from)).
      * apply Hfree; [lia | by rewrite length_insert].
Qed.

(** A name that the system does not give is not fatal.  When none of the
    cached indices resolves any more and neither does the new one, the
    lookup frees every slot, enters the new index in slot 0, writes the
    SIOCGIFNAME diagnostic and stores as its name whatever the local
    [ifr] held on entry, which nothing has initialised. *)
Theorem unresolved_name_is_stored ioctl name0 (ifidx : Z) (c : ifcache) :
  length (dindex c) = MAXIFNAMES -> length (devname c) = MAXIFNAMES ->
  (forall j, (j < MAXIFNAMES)%nat -> dindex_at (dindex c) j <> ifidx) ->
  (forall j, (j < MAXIFNAMES)%nat ->
             dindex_at (dindex c) j = 0 \/ ioctl (dindex_at (dindex c) j) = None) ->
  ioctl ifidx = None ->
  exists c',
    idx2dindex ioctl name0 ifidx c = Idx_return 0 c' ["SIOCGIFNAME"%string] /\
    devname_at c' 0 = name0 /\
    dindex_at (dindex c') 0 = ifidx /\
    forall j, (0 < j < MAXIFNAMES)%nat -> dindex_at (dindex c') j = 0.
Proof.
  intros Hlen Hlenn Hmiss Hun Hio.
  destruct (idx2dindex_miss ioctl name0 ifidx c Hmiss) as (_ & Hbefore & Hcase).
  destruct (sweep_unresolved ioctl MAXIFNAMES (dindex c) name0 0) as (Hname & Hfree).
  { intros j Hj. apply Hun. lia. }
  set (d1 := (sweep ioctl (dindex c) name0 0 MAXIFNAMES).1) in *.
  set (i := scan (fun x => x =? 0) d1 0 MAXIFNAMES) in *.
  assert (Hlen1 : length d1 = MAXIFNAMES) by (subst d1; by rewrite sweep_length).
  assert (Hi : i = 0%nat).
  { destruct i as [| i']; [done |]. exfalso. apply (Hbefore 0%nat); [lia |].
    apply Hfree; unfold MAXIFNAMES in *; lia. }
  rewrite Hi in Hcase. change (0 =? MAXIFNAMES)%nat with false in Hcase.
  destruct Hcase as (_ & name2 & err2 & Hpair & Hret).
  rewrite Hio, Hname in Hpair. injection Hpair as -> ->.
  eexists. split; [exact Hret |]. unfold devname_at. cbn [devname dindex].
  split; [| split].
  - rewrite list_lookup_insert_eq; [done | rewrite Hlenn; unfold MAXIFNAMES; lia].
  - rewrite dindex_at_insert by (rewrite Hlen1; unfold MAXIFNAMES; lia).
    by destruct (decide (0%nat = 0%nat)).
  - intros j Hj. rewrite dindex_at_insert_ne by lia.
    apply Hfree; [lia | rewrite Hlen; lia].
Qed.

Lemma unresolved_name_is_stored_witness :
  exists c',
    idx2dindex (fun _ => None) "garbage" 9 two_cached
    = Idx_return 0 c' ["SIOCGIFNAME"%string] /\
    devname_at c' 0 = "garbage"%string.
Proof.
  destruct (unresolved_name_is_stored (fun _ => None) "garbage" 9 two_cached)
    as (c' & Hrun & Hname & _).
  - reflexivity.
  - reflexivity.
  - intros j Hj. unfold MAXIFNAMES in Hj.
    do 30 (destruct j as [| j]; [vm_compute; discriminate |]). lia.
  - intros j _. by right.
  - reflexivity.
  - exists c'. split; [exact Hrun | exact Hname].
Defined.

(** ** Filter options: what each form compiles to *)

Lemma scan_digits_value (ds : list ascii) :
  Forall (fun c => is_hex c = true) ds ->
  forall (acc : Z) (tail : list ascii),
    stops tail ->
    scan_digits (ds ++ tail) acc = ((scan_digits ds acc).1, tail).
Proof.
  induction 1 as [| d ds Hd Hds IH]; intros acc tail Htail; simpl.
  - destruct tail as [| c rest]; [done |]. simpl.
    destruct Htail as (Hc & _). unfold is_hex in Hc.
    by destruct (hex_value c).
  - unfold is_hex in Hd. destruct (hex_value d) as [v |]; [| discriminate].
    by apply IH.
Qed.

Lemma scan_x_value (ds tail : list ascii) :
  hex_digits ds -> stops tail ->
  scan_x (ds ++ tail) = Conv_ok (u32 (hex_number ds)) tail.
Proof.
  intros Hds Htail.
  destruct (scan_x_digits ds tail Hds Htail) as (v & Hscan & _).
  destruct (scan_x_digits ds [] Hds I) as (w & Hscan' & _).
  rewrite Hscan. f_equal.
  (* both runs read the same digits *)
  destruct Hds as [Hne Hall]. destruct ds as [| d ds]; [done |].
  apply Forall_cons in Hall as [Hd Hall].
  destruct (is_hex_plain d Hd) as (Hsp & Hminus & Hplus & _).
  unfold scan_x in Hscan. cbn [app skip_space] in Hscan.
  rewrite Hsp, Hminus, Hplus in Hscan.
  assert (Hnoprefix :
    match d :: ds ++ tail with
    | z :: x :: t' =>
        if Ascii.eqb z "0" && (Ascii.eqb x "x" || Ascii.eqb x "X") then t'
        else d :: ds ++ tail
    | _ => d :: ds ++ tail
    end = d :: ds ++ tail).
  { destruct ds as [| e ds]; cbn [app].
    - destruct tail as [| c rest]; [done |].
      destruct Htail as (_ & Hx & HX). by rewrite Hx, HX, andb_false_r.
    - apply Forall_cons in Hall as [He _].
      destruct (is_hex_plain e He) as (_ & _ & _ & Hex & HeX & _).
      by rewrite Hex, HeX, andb_false_r. }
  rewrite Hnoprefix, Hd in Hscan.
  pose proof (scan_digits_value (d :: ds) (Forall_cons_2 _ _ _ Hd Hall) 0 tail Htail)
    as Hval.
  cbn [app] in Hval. rewrite Hval in Hscan. by injection Hscan.
Qed.

Lemma hex_number_small (ds : list ascii) :
  Forall (fun c => is_hex c = true) ds -> (length ds <= 8)%nat ->
  u32 (hex_number ds) = hex_number ds.
Proof.
  intros Hds Hlen.
  destruct (scan_digits_spec ds Hds 0 [] I) as (v & Hrun & Hv); [lia |].
  rewrite app_nil_r in Hrun. unfold hex_number. rewrite Hrun. cbn [fst].
  unfold u32. apply Z.mod_small. split; [lia |].
  apply Z.lt_le_trans with (16 ^ Z.of_nat (length ds)); [lia |].
  change (2 ^ 32) with (16 ^ 8). apply Z.pow_le_mono_r; lia.
Qed.

Lemma sscanf_two_values (ids masks : list ascii) (sep : ascii) :
  hex_digits ids -> hex_digits masks -> sep = ":"%char \/ sep = "~"%char ->
  sscanf_x_sep_x sep (ids ++ sep :: masks)
  = (2, Some (u32 (hex_number ids)), Some (u32 (hex_number masks))) /\
  forall other, Ascii.eqb sep other = false ->
    sscanf_x_sep_x other (ids ++ sep :: masks) = (1, Some (u32 (hex_number ids)), None).
Proof.
  intros Hids Hmasks Hsep.
  assert (Hstop : stops (sep :: masks)) by (destruct Hsep as [-> | ->]; by repeat split).
  pose proof (scan_x_value ids (sep :: masks) Hids Hstop) as Hid.
  pose proof (scan_x_value masks [] Hmasks I) as Hmask. rewrite app_nil_r in Hmask.
  unfold sscanf_x_sep_x. rewrite Hid. split.
  - by rewrite Ascii.eqb_refl, Hmask.
  - intros other Hother. by rewrite Hother.
Qed.

Lemma cstring_of_option (ids masks rest : list ascii) (sep : ascii) :
  hex_digits ids -> hex_digits masks -> sep = ":"%char \/ sep = "~"%char ->
  cstring (ids ++ sep :: masks ++ NUL :: rest) = ids ++ sep :: masks.
Proof.
  intros Hids Hmasks Hsep.
  replace (ids ++ sep :: masks ++ NUL :: rest)
    with ((ids ++ sep :: masks) ++ NUL :: rest) by (by rewrite <- app_assoc).
  apply cstring_terminated. apply Forall_app. split.
  - apply hex_digits_no_nul, Hids.
  - apply Forall_cons. split; [by destruct Hsep as [-> | ->] |].
    apply hex_digits_no_nul, Hmasks.
Qed.

(** An option of plain hexadecimal digits, [:] or [~], and plain
    hexadecimal digits, with at most eight digits on either side and at
    least eight characters in all, adds one rule.  Its id is the number
    that the id digits spell, with CAN_INV_FILTER or-ed in for [~] and
    CAN_EFF_FLAG or-ed in when the separator is the ninth character; its
    mask is the number of the mask digits with CAN_ERR_FLAG cleared.
    The rules already compiled, the error mask and the join flag are
    kept. *)
Theorem plain_option_compiles_to_its_numbers
    (ids masks rest : list ascii) (sep : ascii) (fs : filter_set) :
  hex_digits ids -> hex_digits masks -> sep = ":"%char \/ sep = "~"%char ->
  (length ids = 8 \/ length ids < 8 /\ 8 <= length ids + 1 + length masks)%nat ->
  (length masks <= 8)%nat ->
  parse_filter (ids ++ sep :: masks ++ NUL :: rest) fs
  = Parse_ok
      (add_filter fs
         (let id := if Ascii.eqb sep "~"
                    then Z.lor (hex_number ids) CAN_INV_FILTER
                    else hex_number ids in
          if (length ids =? 8)%nat then Z.lor id CAN_EFF_FLAG else id)
         (Z.land (hex_number masks) 0xDFFFFFFF)).
Proof.
  intros Hids Hmasks Hsep Hlen Hshort.
  rewrite <- (hex_number_small ids (proj2 Hids)) by lia.
  rewrite <- (hex_number_small masks (proj2 Hmasks) Hshort).
  destruct (sscanf_two_values ids masks sep Hids Hmasks Hsep) as (Htwo & Hone).
  destruct (byte_at_8 ids masks rest sep (proj2 Hmasks) Hsep) as (Hat8 & Hat8').
  pose proof (cstring_of_option ids masks rest sep Hids Hmasks Hsep) as Hstr.
  assert (Hbyte : exists c, (ids ++ sep :: masks ++ NUL :: rest) !! 8%nat = Some c /\
                            Ascii.eqb c sep = (length ids =? 8)%nat).
  { destruct Hlen as [Hlen | [Hlt Hge]].
    - exists sep. rewrite (Hat8 Hlen), Hlen, Ascii.eqb_refl. done.
    - destruct (Hat8' Hlt Hge) as (c & Hc & Hne). exists c. split; [done |].
      rewrite Hne. symmetry. apply Nat.eqb_neq. lia. }
  destruct Hbyte as (c & Hc & Hceq).
  change 0xDFFFFFFF with (u32 (Z.lnot CAN_ERR_FLAG)).
  unfold parse_filter, eff_by_position. rewrite Hstr, Hc. cbn [mbind option_bind].
  destruct Hsep as [-> | ->].
  - rewrite Htwo. cbv iota beta. rewrite Hceq.
    change (Ascii.eqb ":" "~") with false. reflexivity.
  - rewrite (Hone ":"%char) by reflexivity. cbv iota beta. rewrite Htwo. cbv iota beta.
    rewrite Hceq. change (Ascii.eqb "~" "~") with true. reflexivity.
Qed.

Lemma plain_option_compiles_to_its_numbers_witness :
  parse_filter (c_string "00000400~7F0") filter_set_start
  = Parse_ok (add_filter filter_set_start 0xA0000400 0x7F0).
Proof.
  apply (plain_option_compiles_to_its_numbers
           (list_ascii_of_string "00000400") (list_ascii_of_string "7F0") []
           "~"%char filter_set_start).
  - split; [discriminate | repeat constructor].
  - split; [discriminate | repeat constructor].
  - by right.
  - left. reflexivity.
  - simpl. lia.
Defined.

(** An option that begins with [#] followed by one to eight hexadecimal
    digits sets the error mask to the number they spell, replacing the
    one set before; it adds no rule and keeps the join flag. *)
Theorem error_mask_option (ds rest : list ascii) (fs : filter_set) :
  hex_digits ds -> (length ds <= 8)%nat ->
  parse_filter ("#"%char :: ds ++ NUL :: rest) fs
  = Parse_ok {| rfilter := rfilter fs; err_mask := hex_number ds;
                join_filter := join_filter fs |}.
Proof.
  intros Hds Hshort.
  rewrite <- (hex_number_small ds (proj2 Hds) Hshort).
  pose proof (scan_x_value ds [] Hds I) as Hval. rewrite app_nil_r in Hval.
  assert (Hstr : cstring ("#"%char :: ds ++ NUL :: rest) = "#"%char :: ds).
  { change ("#"%char :: ds ++ NUL :: rest) with (("#"%char :: ds) ++ NUL :: rest).
    apply cstring_terminated. apply Forall_cons. split; [done |].
    apply hex_digits_no_nul, Hds. }
  assert (Hno : forall sep, sscanf_x_sep_x sep ("#"%char :: ds) = (0, None, None)).
  { intros sep. unfold sscanf_x_sep_x, scan_x. cbn [skip_space].
    change (isspace "#") with false. cbv iota beta.
    change (Ascii.eqb "#" "-") with false. change (Ascii.eqb "#" "+") with false.
    cbv iota beta.
    destruct ds as [| x t']; [done |].
    change (Ascii.eqb "#" "0") with false. cbn [andb].
    change (is_hex "#") with false. done. }
  unfold parse_filter. rewrite Hstr, !Hno. cbv iota beta.
  change (Ascii.eqb "#" "j" || Ascii.eqb "#" "J") with false. cbv iota beta.
  unfold sscanf_hash_x. change (Ascii.eqb "#" "#") with true. cbv iota beta.
  rewrite Hval. reflexivity.
Qed.

Lemma error_mask_option_witness :
  parse_filter (c_string "#000000FF")
    {| rfilter := []; err_mask := 0x1FFFFFFF; join_filter := 0 |}
  = Parse_ok {| rfilter := []; err_mask := 0xFF; join_filter := 0 |}.
Proof.
  apply (error_mask_option (list_ascii_of_string "000000FF") []
           {| rfilter := []; err_mask := 0x1FFFFFFF; join_filter := 0 |}).
  - split; [discriminate | repeat constructor].
  - simpl. lia.
Defined.

Lemma scan_x_no_number (c : ascii) (t : list ascii) :
  isspace c = false -> is_hex c = false ->
  Ascii.eqb c "+" = false -> Ascii.eqb c "-" = false ->
  scan_x (c :: t) = Conv_mismatch.
Proof.
  intros Hsp Hhex Hplus Hminus. unfold scan_x. cbn [skip_space].
  rewrite Hsp, Hminus, Hplus.
  assert (Hzero : Ascii.eqb c "0" = false).
  { destruct (Ascii.eqb_spec c "0") as [-> |]; [discriminate Hhex | done]. }
  destruct t as [| x t']; cbn [andb]; rewrite ?Hzero; cbn [andb]; by rewrite Hhex.
Qed.

(** An option whose first character is [j] or [J] sets the join flag,
    whatever follows the letter; it adds no rule and keeps the error
    mask. *)
Theorem join_option (c : ascii) (rest : list ascii) (fs : filter_set) :
  c = "j"%char \/ c = "J"%char ->
  parse_filter (c :: rest) fs
  = Parse_ok {| rfilter := rfilter fs; err_mask := err_mask fs; join_filter := 1 |}.
Proof.
  intros Hc.
  assert (Hno : forall sep, sscanf_x_sep_x sep (cstring (c :: rest)) = (0, None, None)).
  { intros sep. unfold sscanf_x_sep_x. cbn [cstring].
    destruct Hc as [-> | ->].
    - change (Ascii.eqb "j" NUL) with false. cbv iota. by rewrite scan_x_no_number.
    - change (Ascii.eqb "J" NUL) with false. cbv iota. by rewrite scan_x_no_number. }
  unfold parse_filter. rewrite !Hno. cbv iota beta.
  by destruct Hc as [-> | ->].
Qed.

Lemma join_option_witness :
  parse_filter (c_string "junk:7FF") filter_set_start
  = Parse_ok {| rfilter := []; err_mask := 0; join_filter := 1 |}.
Proof.
  apply (join_option "j"%char (c_string "unk:7FF") filter_set_start). by left.
Defined.

(** An option that begins with none of: white space, a sign, a
    hexadecimal digit, [j], [J], [#] is rejected, and the error quotes
    the option.  The empty option is one of them. *)
Theorem unrecognized_option_is_rejected (c : ascii) (rest : list ascii) (fs : filter_set) :
  starts_no_option c ->
  parse_filter (c :: rest) fs = Parse_error (cstring (c :: rest)).
Proof.
  intros (Hsp & Hhex & Hplus & Hminus & Hj & HJ & Hhash).
  assert (Hno : forall sep, exists n,
             sscanf_x_sep_x sep (cstring (c :: rest)) = (n, None, None) /\ n <> 2).
  { intros sep. unfold sscanf_x_sep_x. cbn [cstring].
    destruct (Ascii.eqb c NUL).
    - exists (-1). by split.
    - exists 0. rewrite scan_x_no_number by done. by split. }
  assert (Hhashno : exists n, sscanf_hash_x (cstring (c :: rest)) = (n, None)).
  { unfold sscanf_hash_x. cbn [cstring]. destruct (Ascii.eqb c NUL); [by eexists |].
    rewrite Hhash. by eexists. }
  unfold parse_filter.
  destruct (Hno ":"%char) as (n1 & -> & Hn1). destruct (Hno "~"%char) as (n2 & -> & Hn2).
  destruct Hhashno as (n3 & ->). rewrite Hj, HJ. cbn [orb].
  destruct n1 as [| [[] | [] |] |], n2 as [| [[] | [] |] |], n3 as [| [] |]; done.
Qed.

Lemma unrecognized_option_is_rejected_witness :
  parse_filter (c_string "") filter_set_start = Parse_error [] /\
  parse_filter (c_string "x123:7FF") filter_set_start
  = Parse_error (list_ascii_of_string "x123:7FF").
Proof.
  split.
  - apply (unrecognized_option_is_rejected NUL [] filter_set_start). by repeat split.
  - apply (unrecognized_option_is_rejected "x"%char (c_string "123:7FF") filter_set_start).
    by repeat split.
Defined.

Lemma parse_filter_adds_at_most_one (mem : list ascii) (fs fs' : filter_set) :
  parse_filter mem fs = Parse_ok fs' ->
  rfilter fs' = rfilter fs \/
  exists id m, rfilter fs' = rfilter fs ++ [{| filter_can_id := id;
                                               filter_can_mask := clear_err_flag m |}].
Proof.
  unfold parse_filter, add_filter. intros H.
  repeat case_match; simplify_eq; cbn [rfilter]; eauto.
Qed.

Lemma clear_err_flag_bit (m : Z) : Z.testbit (clear_err_flag m) 29 = false.
Proof.
  unfold clear_err_flag. rewrite Z.land_spec.
  replace (Z.testbit (u32 (Z.lnot CAN_ERR_FLAG)) 29) with false by reflexivity.
  apply andb_false_r.
Qed.

Lemma parse_filters_rules (filters : list (list ascii)) :
  forall fs fs',
    parse_filters filters fs = Parse_ok fs' ->
    exists added,
      rfilter fs' = rfilter fs ++ added /\
      (length added <= length filters)%nat /\
      Forall (fun f => Z.testbit (filter_can_mask f) 29 = false) added.
Proof.
  induction filters as [| mem filters IH]; intros fs fs' H; cbn [parse_filters] in H.
  - injection H as <-. exists []. by rewrite app_nil_r.
  - destruct (parse_filter mem fs) as [fs1 | |] eqn:Hone; try discriminate H.
    destruct (IH fs1 fs' H) as (added & Heq & Hlen & Hall).
    destruct (parse_filter_adds_at_most_one mem fs fs1 Hone) as [Hsame | (id & m & Hadd)].
    + exists added. rewrite Heq, Hsame. cbn [length]. split; [done |]. split; [lia | done].
    + exists ({| filter_can_id := id; filter_can_mask := clear_err_flag m |} :: added).
      rewrite Heq, Hadd, <- app_assoc. cbn [length app]. split; [done |].
      split; [lia |]. apply Forall_cons. split; [apply clear_err_flag_bit | done].
Qed.

(** When all options are accepted, the rules compiled are at most as
    many as the options, so that the array allocated for [total_filters]
    rules holds them all, and no rule's mask has CAN_ERR_FLAG set. *)
Theorem compiled_rules_fit_and_mask_no_error_flag
    (filters : list (list ascii)) (fs : filter_set) :
  parse_filters filters filter_set_start = Parse_ok fs ->
  (numfilter fs <= length filters)%nat /\
  Forall (fun f => Z.testbit (filter_can_mask f) 29 = false) (rfilter fs).
Proof.
  intros H. destruct (parse_filters_rules filters _ _ H) as (added & Heq & Hlen & Hall).
  cbn [filter_set_start rfilter app] in Heq. unfold numfilter. rewrite Heq. by split.
Qed.

Lemma compiled_rules_fit_and_mask_no_error_flag_witness :
  (numfilter {| rfilter := [ {| filter_can_id := 0x123; filter_can_mask := 0xDFFFFFFF |} ];
                err_mask := 0xFF; join_filter := 1 |} <= 3)%nat /\
  Forall (fun f => Z.testbit (filter_can_mask f) 29 = false)
    [ {| filter_can_id := 0x123; filter_can_mask := 0xDFFFFFFF |} ].
Proof.
  apply (compiled_rules_fit_and_mask_no_error_flag
           [c_string "123:FFFFFFFF"; c_string "j"; c_string "#FF"]).
  vm_compute. reflexivity.
Defined.

(** ** Timestamps *)

(** [sprint_timestamp] in the modes [d] and [z], on times whose
    microseconds are within a second.  The first call (no reference yet)
    prints zero and takes the time as reference.  Later calls print the
    time elapsed since the reference, as seconds and microseconds within
    a second, and zero when the time lies before the reference; mode [d]
    moves the reference to the time, mode [z] keeps it. *)
Theorem delta_timestamp_is_elapsed_time (mode : Z) (t last : timeval) :
  mode = 100 \/ mode = 122 ->
  0 <= tv_usec t < 1000000 -> 0 <= tv_usec last < 1000000 ->
  (tv_sec last = 0 ->
   sprint_timestamp mode t last = (Stamp_delta {| tv_sec := 0; tv_usec := 0 |}, t)) /\
  (tv_sec last <> 0 ->
   exists diff,
     sprint_timestamp mode t last
     = (Stamp_delta diff, if mode =? 100 then t else last) /\
     0 <= tv_sec diff /\ 0 <= tv_usec diff < 1000000 /\
     micros diff = Z.max 0 (micros t - micros last)).
Proof.
  intros Hmode Ht Hlast. unfold sprint_timestamp, micros.
  assert (Hm : (mode =? 97) = false /\ (mode =? 65) = false /\
               ((mode =? 100) || (mode =? 122)) = true)
    by (destruct Hmode as [-> | ->]; done).
  destruct Hm as (-> & -> & ->). split.
  - intros H0. rewrite H0, Z.eqb_refl, !Z.sub_diag. cbn [Z.ltb Z.compare].
    by destruct (mode =? 100).
  - intros Hne. destruct (Z.eqb_spec (tv_sec last) 0) as [| _]; [done |].
    destruct (Z.ltb_spec (tv_usec t - tv_usec last) 0) as [Hu | Hu].
    + destruct (Z.ltb_spec (tv_sec t - tv_sec last - 1) 0) as [Hs | Hs].
      * eexists. split; [reflexivity |]. cbn [tv_sec tv_usec]. lia.
      * eexists. split; [reflexivity |]. cbn [tv_sec tv_usec]. lia.
    + destruct (Z.ltb_spec (tv_sec t - tv_sec last) 0) as [Hs | Hs].
      * eexists. split; [reflexivity |]. cbn [tv_sec tv_usec]. lia.
      * eexists. split; [reflexivity |]. cbn [tv_sec tv_usec]. lia.
Qed.

Lemma delta_timestamp_is_elapsed_time_witness :
  exists diff,
    sprint_timestamp 122 {| tv_sec := 12; tv_usec := 100 |}
      {| tv_sec := 10; tv_usec := 900000 |}
    = (Stamp_delta diff, {| tv_sec := 10; tv_usec := 900000 |}) /\
    micros diff = 1100100.
Proof.
  destruct (delta_timestamp_is_elapsed_time 122 {| tv_sec := 12; tv_usec := 100 |}
              {| tv_sec := 10; tv_usec := 900000 |}) as [_ H].
  - by right.
  - simpl; lia.
  - simpl; lia.
  - destruct H as (diff & Heq & _ & _ & Hm); [discriminate |].
    exists diff. split; [exact Heq | exact Hm].
Defined.

(** ** The capture loop: one received frame *)

Lemma present_keeps (cfg : settings) (idx : nat) (c : ifcache)
    (frame : canfd_frame) (maxdlen : Z) (extra : string) (l : locals) :
  count (present cfg idx c frame maxdlen extra l).2 = count l /\
  tv (present cfg idx c frame maxdlen extra l).2 = tv l /\
  view_flags (present cfg idx c frame maxdlen extra l).2 = view_flags l.
Proof.
  unfold present.
  destruct (log cfg =? 0);
    repeat match goal with
           | |- context [sprint_timestamp ?m ?t ?l] =>
               destruct (sprint_timestamp m t l) as [? ?]
           end;
    destruct (negb (logfrmt cfg =? 0) && (silent cfg =? SILENT_OFF));
    repeat match goal with
           | |- context [sprint_timestamp ?m ?t ?l] =>
               destruct (sprint_timestamp m t l) as [? ?]
           end;
    try done;
    destruct (negb (silent cfg =? SILENT_OFF));
    repeat match goal with
           | |- context [sprint_timestamp ?m ?t ?l] =>
               destruct (sprint_timestamp m t l) as [? ?]
           end;
    try done;
    destruct (silent cfg =? SILENT_ANI); done.
Qed.

Lemma register_frame_long (frame : canfd_frame) (t : timeval) (r : ring) :
  8 < fd_len frame -> register_frame frame t r = None.
Proof.
  intros Hlong. unfold register_frame, store_data.
  cbn [mbind option_bind].
  replace ((0 <=? fd_len frame) && (fd_len frame <=? 8)) with false; [done |].
  symmetry. apply andb_false_iff. right. lia.
Qed.

Lemma accepted_size (nbytes : Z) :
  nbytes = CAN_MTU \/ nbytes = CANFD_MTU ->
  (nbytes <? 0) = false /\ exists maxdlen, maxdlen_of nbytes = Some maxdlen.
Proof. intros [-> | ->]; split; try done; by eexists. Qed.

Lemma recv_ring (p : program) :
  (recv p).1 = (get_frame_from_buffer (the_ring p)).1 /\
  the_ring (recv p).2 = (get_frame_from_buffer (the_ring p)).2 /\
  running (recv p).2 = running p.
Proof. unfold recv. by destruct (get_frame_from_buffer (the_ring p)). Qed.

(** A frame received into an empty ring is what the next call of
    [get_frame_from_buffer] returns, and the call after that finds the
    ring empty.  For an event of an accepted size whose frame has at most
    8 data bytes and whose interface index [idx2dindex] resolves, the
    turn of the loop continues; the tuple read back has the identifier
    masked to 29 bits, the length, the first [len] data bytes, and the
    time that the loop's [tv] holds after the control messages. *)
Theorem received_frame_is_read_back ioctl name0 (cfg : settings) (ev : recv_event)
    (st : cstate) (idx : nat) (c : ifcache) (err : list string) :
  ring_ok (the_ring (prog st)) ->
  read_ptr (the_ring (prog st)) = buffer_ptr (the_ring (prog st)) ->
  classic_frame (ev_frame ev) ->
  ev_nbytes ev = CAN_MTU \/ ev_nbytes ev = CANFD_MTU ->
  idx2dindex ioctl name0 (ev_ifindex ev) (cache (prog st)) = Idx_return idx c err ->
  exists st',
    dispatch ioctl name0 cfg ev st = Next st' /\
    (recv (prog st')).1 = Py_Frame (view (ev_frame ev, tv (loc st'))) /\
    (recv (recv (prog st')).2).1 = Py_None.
Proof.
  intros Hok Hempty Hframe Hsize Hidx.
  destruct (accepted_size _ Hsize) as (Hneg & maxdlen & Hmax).
  unfold dispatch. rewrite Hidx, Hneg, Hmax.
  set (obj := default no_if_info (sock_info (prog st) !! ev_obj ev)).
  destruct (walk_cmsgs (ev_cmsgs ev) (tv (loc st)) (dropcnt obj) (the_ring (prog st)))
    as [[tv' drops] r1] eqn:Hwalk.
  destruct (check_dropcnt cfg (devname_at c idx) _) as [out_drop obj'].
  pose proof Hok as (Hlen & Hbp & Hrp).
  destruct (walk_cmsgs_ring (ev_cmsgs ev) (tv (loc st)) (dropcnt obj) (the_ring (prog st)))
    as (_ & _ & _ & Hreg & _); try lia.
  rewrite Hwalk in Hreg. cbn [snd] in Hreg. rewrite Hreg.
  destruct (register_frame_spec (ev_frame ev) tv' (the_ring (prog st)) Hok Hframe)
    as (r2 & -> & Hok2 & Hrp2 & Hbp2 & Hview & _).
  match goal with
  | |- context [present cfg idx c ?f ?m ?e ?l] =>
      pose proof (present_keeps cfg idx c f m e l) as (_ & Htv & _);
      destruct (present cfg idx c f m e l) as [out_text l']
  end.
  cbn [snd tv] in Htv.
  eexists. split; [reflexivity |]. cbn [prog loc].
  assert (Hne : read_ptr r2 <> buffer_ptr r2).
  { rewrite Hrp2, Hbp2, Hempty. mod_lia. }
  match goal with
  | |- context [recv ?p] =>
      destruct (recv_ring p) as (-> & Hring & _);
      destruct (recv_ring (recv p).2) as (-> & _ & _); rewrite Hring
  end.
  cbn [the_ring]. rewrite (get_frame_nonempty r2 Hne). cbn [fst snd].
  split.
  - rewrite Hrp2, Hempty, Hview, Htv. reflexivity.
  - rewrite get_frame_empty; [done |].
    unfold advance_read_ptr. cbn [read_ptr buffer_ptr].
    rewrite Hrp2, Hbp2, Hempty, rem_next by lia. reflexivity.
Qed.

Lemma ring_near_end_ok : ring_ok ring_near_end.
Proof. repeat split; try reflexivity; simpl; lia. Qed.

Lemma received_frame_is_read_back_witness :
  exists st',
    dispatch (fun _ => None) EmptyString loop_settings
      (classic_event {| tv_sec := 7; tv_usec := 250000 |}) near_end_state = Next st' /\
    (recv (prog st')).1 = Py_Frame (view (eff_frame, tv (loc st'))) /\
    (recv (recv (prog st')).2).1 = Py_None.
Proof.
  apply (received_frame_is_read_back (fun _ => None) EmptyString loop_settings
           (classic_event {| tv_sec := 7; tv_usec := 250000 |}) near_end_state
           0%nat two_cached []).
  - exact ring_near_end_ok.
  - reflexivity.
  - split; [simpl; lia | simpl; lia].
  - by left.
  - reflexivity.
Defined.

(** The size test lets a frame with more than 8 data bytes through: an
    event of an accepted size, CANFD_MTU among them, whose frame has a
    length above 8 reaches the copy of [len] bytes into the 8-byte data
    field of the slot, which writes past the field. *)
Theorem long_frame_overruns_slot ioctl name0 (cfg : settings) (ev : recv_event)
    (st : cstate) (idx : nat) (c : ifcache) (err : list string) :
  ev_nbytes ev = CAN_MTU \/ ev_nbytes ev = CANFD_MTU ->
  8 < fd_len (ev_frame ev) ->
  idx2dindex ioctl name0 (ev_ifindex ev) (cache (prog st)) = Idx_return idx c err ->
  dispatch ioctl name0 cfg ev st = Undefined_behaviour.
Proof.
  intros Hsize Hlong Hidx.
  destruct (accepted_size _ Hsize) as (Hneg & maxdlen & Hmax).
  unfold dispatch. rewrite Hidx, Hneg, Hmax.
  destruct (walk_cmsgs _ _ _ _) as [[tv' drops] r1].
  destruct (check_dropcnt _ _ _) as [out_drop obj'].
  by rewrite register_frame_long.
Qed.

Lemma long_frame_overruns_slot_witness :
  dispatch (fun _ => None) EmptyString loop_settings long_fd_event near_end_state
  = Undefined_behaviour.
Proof.
  apply (long_frame_overruns_slot (fun _ => None) EmptyString loop_settings
           long_fd_event near_end_state 0%nat two_cached []).
  - by right.
  - reflexivity.
  - reflexivity.
Defined.

(** A receive that fails.  After [perror("read")] the turn calls
    [_raise_system_error], which here ends the process, the ring
    untouched; unless [errno], as it is when line 667 tests it, after
    [idx2dindex] has run, is ENETDOWN and [down_causes_exit] is zero:
    then the turn writes the interface down message and the loop goes
    on.  [loop] sets [down_causes_exit] to 1, so for it every failed
    receive is fatal. *)
Theorem failed_receive ioctl name0 (cfg : settings) (ev : recv_event)
    (st : cstate) (idx : nat) (c : ifcache) (err : list string) :
  ev_nbytes ev < 0 ->
  idx2dindex ioctl name0 (ev_ifindex ev) (cache (prog st)) = Idx_return idx c err ->
  (errno_at_read_test ev (cache (prog st)) <> ENETDOWN \/ down_causes_exit cfg <> 0 ->
   exists st',
     dispatch ioctl name0 cfg ev st = Process_killed st' /\
     py_error (prog st') = py_error (prog st) /\
     the_ring (prog st') = the_ring (prog st) /\
     out st' = out st ++ map Perror err ++ [Perror "read"]) /\
  (errno_at_read_test ev (cache (prog st)) = ENETDOWN /\ down_causes_exit cfg = 0 ->
   exists st',
     dispatch ioctl name0 cfg ev st = Next st' /\
     py_error (prog st') = py_error (prog st) /\
     running (prog st') = running (prog st) /\
     the_ring (prog st') = the_ring (prog st) /\
     out st' = out st ++ map Perror err
                      ++ [Stderr (devname_at c idx ++ ": interface down")]) /\
  (idx_cached (ev_ifindex ev) (cache (prog st)) = true ->
   errno_at_read_test ev (cache (prog st)) = ev_errno ev) /\
  (idx_cached (ev_ifindex ev) (cache (prog st)) = false ->
   errno_at_read_test ev (cache (prog st)) = ev_errno_lookup ev) /\
  forall st', dispatch ioctl name0 loop_settings ev st <> Next st'.
Proof.
  intros Hneg Hidx.
  assert (Hlt : (ev_nbytes ev <? 0) = true) by lia.
  unfold dispatch. rewrite Hidx, Hlt. split; [| split; [| split; [| split]]].
  - intros Hfatal.
    assert (Hgate : (errno_at_read_test ev (cache (prog st)) =? ENETDOWN)
                    && (down_causes_exit cfg =? 0) = false).
    { apply andb_false_iff. destruct Hfatal; [left | right]; lia. }
    rewrite Hgate. eexists. split; [reflexivity |]. by cbn.
  - intros [Herrno Hdown]. rewrite Herrno, Hdown. cbn [Z.eqb andb].
    change (ENETDOWN =? ENETDOWN) with true. cbv iota.
    eexists. split; [reflexivity |]. by cbn.
  - intros Hhit. unfold errno_at_read_test. by rewrite Hhit.
  - intros Hmiss. unfold errno_at_read_test. by rewrite Hmiss.
  - intros st'. change (down_causes_exit loop_settings =? 0) with false.
    rewrite andb_false_r. discriminate.
Qed.

Lemma failed_receive_witness :
  exists st',
    dispatch (fun _ => None) EmptyString loop_settings (failed_read ENETDOWN)
      near_end_state = Process_killed st' /\
    py_error (prog st') = None /\
    out st' = [Perror "read"].
Proof.
  destruct (failed_receive (fun _ => None) EmptyString loop_settings
              (failed_read ENETDOWN) near_end_state 0%nat two_cached [])
    as (Hfatal & _).
  - reflexivity.
  - reflexivity.
  - destruct Hfatal as (st' & Hrun & Herr & _ & Hout); [right; discriminate |].
    exists st'. split; [exact Hrun |]. split; [exact Herr | exact Hout].
Defined.

Lemma dispatch_next ioctl name0 (cfg : settings) (ev : recv_event) (st st' : cstate) :
  dispatch ioctl name0 cfg ev st = Next st' ->
  count (loc st) = 0 ->
  running (prog st') = running (prog st) /\ count (loc st') = 0 /\
  py_error (prog st') = py_error (prog st) /\
  frame_ctr (prog st') = frame_ctr (prog st).
Proof.
  intros H Hcount. unfold dispatch in H. rewrite Hcount in H.
  change (0 =? 0) with true in H. cbn [negb andb] in H.
  destruct (idx2dindex ioctl name0 (ev_ifindex ev) (cache (prog st)))
    as [idx c err | status c err]; [| discriminate H].
  destruct (ev_nbytes ev <? 0).
  - destruct ((errno_at_read_test ev (cache (prog st)) =? ENETDOWN)
              && (down_causes_exit cfg =? 0));
      [| discriminate H].
    injection H as <-. by cbn.
  - destruct (maxdlen_of (ev_nbytes ev)) as [maxdlen |]; [| discriminate H].
    destruct (walk_cmsgs _ _ _ _) as [[tv' drops] r1].
    destruct (check_dropcnt _ _ _) as [out_drop obj'].
    destruct (register_frame _ _ _) as [r2 |]; [| discriminate H].
    match type of H with
    | context [present cfg idx c ?f ?m ?e ?l] =>
        pose proof (present_keeps cfg idx c f m e l) as (Hc & _ & _);
        destruct (present cfg idx c f m e l) as [out_text l']
    end.
    injection H as <-. cbn [prog loc running snd count py_error frame_ctr] in *. done.
Qed.

Lemma dispatch_all_next ioctl name0 (cfg : settings) (evs : list recv_event) :
  forall st st',
    dispatch_all ioctl name0 cfg evs st = Next st' ->
    count (loc st) = 0 ->
    running (prog st') = running (prog st) /\ count (loc st') = 0 /\
    py_error (prog st') = py_error (prog st) /\
    frame_ctr (prog st') = frame_ctr (prog st).
Proof.
  induction evs as [| ev evs IH]; intros st st' H Hcount; cbn [dispatch_all] in H.
  - by injection H as <-.
  - destruct (dispatch ioctl name0 cfg ev st) as [st1 | | |] eqn:Hone; try discriminate H.
    destruct (dispatch_next _ _ _ _ _ _ Hone Hcount) as (Hr1 & Hc1 & He1 & Hf1).
    destruct (IH st1 st' H Hc1) as (Hr & Hc & He & Hf).
    repeat split; congruence.
Qed.

(** With the option values that [loop] hard-codes (silent mode, no log
    file), a turn that continues writes nothing about the frame or about
    dropped frames: the only output is the SIOCGIFNAME diagnostic of
    [idx2dindex], if it gave one. *)
Theorem configured_loop_prints_no_frame ioctl name0 (ev : recv_event)
    (st st' : cstate) (idx : nat) (c : ifcache) (err : list string) :
  idx2dindex ioctl name0 (ev_ifindex ev) (cache (prog st)) = Idx_return idx c err ->
  dispatch ioctl name0 loop_settings ev st = Next st' ->
  out st' = out st ++ map Perror err.
Proof.
  intros Hidx H. unfold dispatch in H. rewrite Hidx in H.
  destruct (ev_nbytes ev <? 0).
  - change (down_causes_exit loop_settings =? 0) with false in H.
    rewrite andb_false_r in H. discriminate H.
  - destruct (maxdlen_of (ev_nbytes ev)) as [maxdlen |]; [| discriminate H].
    destruct (walk_cmsgs _ _ _ _) as [[tv' drops] r1].
    match type of H with
    | context [check_dropcnt loop_settings ?d ?o] =>
        assert (Hdrop : (check_dropcnt loop_settings d o).1 = [])
          by (unfold check_dropcnt; by destruct (dropcnt o =? last_dropcnt o));
        destruct (check_dropcnt loop_settings d o) as [out_drop obj']
    end.
    cbn [fst] in Hdrop. subst out_drop.
    destruct (register_frame _ _ _) as [r2 |]; [| discriminate H].
    match type of H with
    | context [present loop_settings idx c ?f ?m ?e ?l] =>
        assert (Hpres : (present loop_settings idx c f m e l).1 = [])
          by reflexivity;
        destruct (present loop_settings idx c f m e l) as [out_text l']
    end.
    cbn [fst] in Hpres. subst out_text.
    injection H as <-. cbn [out]. by rewrite !app_nil_r.
Qed.

Lemma configured_loop_prints_no_frame_witness :
  exists st',
    dispatch (fun _ => None) EmptyString loop_settings
      (classic_event {| tv_sec := 7; tv_usec := 250000 |}) near_end_state = Next st' /\
    out st' = [].
Proof.
  destruct (dispatch (fun _ => None) EmptyString loop_settings
              (classic_event {| tv_sec := 7; tv_usec := 250000 |}) near_end_state)
    as [st' | | |] eqn:H.
  - exists st'. split; [reflexivity |].
    apply (configured_loop_prints_no_frame (fun _ => None) EmptyString
             (classic_event {| tv_sec := 7; tv_usec := 250000 |}) near_end_state st'
             0%nat two_cached []); [reflexivity | exact H].
  - exfalso. vm_compute in H. discriminate H.
  - exfalso. vm_compute in H. discriminate H.
  - exfalso. vm_compute in H. discriminate H.
Defined.

(** ** The capture loop: how it ends *)

Lemma timeout_value : int_of_double DEFAULT_TIMEOUT = Some 0.
Proof. reflexivity. Qed.

Lemma stopped_loop ioctl name0 (cfg : settings) (total_devices : Z)
    (env : list env_step) :
  forall st,
    running (prog st) = 0 ->
    exists st',
      (loop_while ioctl name0 cfg total_devices env st = Loop_none st' \/
       loop_while ioctl name0 cfg total_devices env st = Loop_killed st') /\
      running (prog st') = 0 /\
      the_ring (prog st') = the_ring (prog st) /\
      frame_ctr (prog st') = frame_ctr (prog st) /\
      (exists added, out st' = out st ++ added /\
                     Forall (fun o => is_epoll_wait o = false) added) /\
      (no_signal_first env ->
       loop_while ioctl name0 cfg total_devices env st
       = Loop_none (close_sockets total_devices st)).
Proof.
  induction env as [| e env IH]; intros st Hstop.
  - cbn [loop_while]. rewrite Hstop. cbn [Z.eqb].
    eexists. split; [left; reflexivity |]. cbn. repeat split; try done.
    exists [Sys_close_all total_devices]. split; [done |]. by repeat constructor.
  - destruct e as [signo [|] | w].
    + cbn [loop_while].
      destruct (IH (sigterm signo st)) as (st' & Hrun & Hr & Hring & Hctr & Hout & _);
        [done |].
      exists st'. split; [done |]. cbn [sigterm prog the_ring frame_ctr out] in *.
      repeat split; try done.
      destruct Hout as (added & -> & Hadded).
      exists (Stdout_text "%d frame received" (frame_ctr (prog st)) :: added).
      split; [by rewrite <- app_assoc |]. by constructor.
    + cbn [loop_while].
      eexists. split; [right; reflexivity |]. cbn. repeat split; try done.
      eexists. split; [reflexivity |]. by repeat constructor.
    + cbn [loop_while]. rewrite Hstop. cbn [Z.eqb].
      eexists. split; [left; reflexivity |]. cbn. repeat split; try done.
      exists [Sys_close_all total_devices]. split; [done |]. by repeat constructor.
Qed.

Lemma loop_ends_stopped ioctl name0 (cfg : settings) (total_devices : Z)
    (env : list env_step) :
  forall st st1,
    loop_while ioctl name0 cfg total_devices env st = Loop_none st1 ->
    running (prog st1) = 0.
Proof.
  induction env as [| e env IH]; intros st st1 H; cbn [loop_while] in H.
  - destruct (Z.eqb_spec (running (prog st)) 0) as [Hz |]; [| discriminate H].
    by injection H as <-.
  - destruct e as [signo [|] | w]; [by eapply IH | discriminate H |].
    destruct (Z.eqb_spec (running (prog st)) 0) as [Hz |].
    + by injection H as <-.
    + rewrite timeout_value in H. destruct w as [errno | evs]; [by eapply IH |].
      destruct (dispatch_all _ _ _ _ _) as [st3 | | |]; try discriminate H.
      by eapply IH.
Qed.

(** [running] is cleared and never set again: once the loop has
    returned normally, the [while] of a later call of [loop], reached
    after [init_buffer] has cleared the slots, does not wait and does
    not receive, whatever then arrives.  It returns at once when no
    signal comes first, and otherwise returns or is ended by the signal;
    it makes no [epoll_wait], and the frame counter and the cleared ring
    are what they were on entry. *)
Theorem ended_loop_does_not_restart ioctl name0 (cfg : settings) (total_devices : Z)
    (env env' : list env_step) (st st1 st2 : cstate) :
  loop_while ioctl name0 cfg total_devices env st = Loop_none st1 ->
  reentered st1 st2 ->
  exists st3,
    (loop_while ioctl name0 cfg total_devices env' st2 = Loop_none st3 \/
     loop_while ioctl name0 cfg total_devices env' st2 = Loop_killed st3) /\
    (no_signal_first env' ->
     loop_while ioctl name0 cfg total_devices env' st2
     = Loop_none (close_sockets total_devices st2)) /\
    the_ring (prog st3) = ring_after_init (the_ring (prog st1)) /\
    frame_ctr (prog st3) = frame_ctr (prog st1) /\
    exists added, out st3 = out st2 ++ added /\
                  Forall (fun o => is_epoll_wait o = false) added.
Proof.
  intros H (Hrun & Hctr & Hring). apply loop_ends_stopped in H.
  destruct (stopped_loop ioctl name0 cfg total_devices env' st2)
    as (st3 & Hend & _ & Hring3 & Hctr3 & Hout & Hnone); [congruence |].
  exists st3. split; [done |]. split; [done |].
  split; [congruence |]. split; [congruence | done].
Qed.

Lemma ended_loop_does_not_restart_witness :
  exists st3,
    (loop_while (fun _ => None) EmptyString loop_settings 1
       [Env_wait (Wait_ready [classic_event {| tv_sec := 7; tv_usec := 0 |}])]
       second_call_state = Loop_none st3 \/
     loop_while (fun _ => None) EmptyString loop_settings 1
       [Env_wait (Wait_ready [classic_event {| tv_sec := 7; tv_usec := 0 |}])]
       second_call_state = Loop_killed st3) /\
    (no_signal_first
       [Env_wait (Wait_ready [classic_event {| tv_sec := 7; tv_usec := 0 |}])] ->
     loop_while (fun _ => None) EmptyString loop_settings 1
       [Env_wait (Wait_ready [classic_event {| tv_sec := 7; tv_usec := 0 |}])]
       second_call_state = Loop_none (close_sockets 1 second_call_state)) /\
    the_ring (prog st3) = ring_after_init (the_ring (prog interrupted_state)) /\
    frame_ctr (prog st3) = frame_ctr (prog interrupted_state) /\
    exists added,
      out st3 = out second_call_state ++ added /\
      Forall (fun o => is_epoll_wait o = false) added.
Proof.
  apply (ended_loop_does_not_restart (fun _ => None) EmptyString loop_settings 1
           [Env_signal 2 With_thread_state]
           [Env_wait (Wait_ready [classic_event {| tv_sec := 7; tv_usec := 0 |}])]
           idle_state interrupted_state second_call_state).
  - reflexivity.
  - repeat split; reflexivity.
Defined.

(** An [epoll_wait] that fails with an error other than EINTR ends the
    loop as a normal return: [running] is cleared, the sockets are
    closed, nothing is written and no Python error is set. *)
Theorem failed_wait_ends_loop_silently ioctl name0 (cfg : settings)
    (total_devices : Z) (errno : Z) (env : list env_step) (st : cstate) :
  running (prog st) <> 0 -> errno <> EINTR -> no_signal_first env ->
  loop_while ioctl name0 cfg total_devices (Env_wait (Wait_failed errno) :: env) st
  = Loop_none {| prog := set_running 0 (prog st); loc := loc st;
                 out := out st ++ [Sys_epoll_wait total_devices 0;
                                   Sys_close_all total_devices] |}.
Proof.
  intros Hrun Herrno Henv. cbn [loop_while].
  destruct (Z.eqb_spec (running (prog st)) 0) as [| _]; [done |].
  rewrite timeout_value.
  destruct (Z.eqb_spec errno EINTR) as [| _]; [done |].
  match goal with
  | |- loop_while _ _ _ _ _ ?s = _ =>
      destruct (stopped_loop ioctl name0 cfg total_devices env s)
        as (st' & _ & _ & _ & _ & _ & Hst'); [done |]
  end.
  rewrite (Hst' Henv). unfold close_sockets. cbn [prog loc out].
  by rewrite <- app_assoc.
Qed.

Lemma failed_wait_ends_loop_silently_witness :
  loop_while (fun _ => None) EmptyString loop_settings 1
    [Env_wait (Wait_failed 9)] idle_state
  = Loop_none {| prog := set_running 0 (prog idle_state); loc := loc idle_state;
                 out := out idle_state ++ [Sys_epoll_wait 1 0; Sys_close_all 1] |}.
Proof.
  apply (failed_wait_ends_loop_silently (fun _ => None) EmptyString loop_settings 1 9
           [] idle_state).
  - discriminate.
  - discriminate.
  - exact I.
Defined.

(** With [count] at zero, as [loop] sets it, received frames never end
    the loop normally: while [running] is set and the environment only
    delivers ready sockets, the loop is still running or has ended with
    an error, whatever the number of frames. *)
Theorem loop_runs_until_stopped ioctl name0 (cfg : settings) (total_devices : Z)
    (env : list env_step) (st : cstate) :
  running (prog st) <> 0 -> count (loc st) = 0 ->
  Forall (fun e => is_ready e = true) env ->
  returns_none (loop_while ioctl name0 cfg total_devices env st) = false.
Proof.
  intros Hrun Hcount Henv. revert st Hrun Hcount.
  induction Henv as [| e env He _ IH]; intros st Hrun Hcount; cbn [loop_while].
  - by destruct (Z.eqb_spec (running (prog st)) 0).
  - destruct e as [signo | [errno | evs]]; try discriminate He.
    destruct (Z.eqb_spec (running (prog st)) 0) as [| _]; [done |].
    rewrite timeout_value.
    match goal with
    | |- context [dispatch_all ioctl name0 cfg evs ?s] =>
        pose proof (dispatch_all_next ioctl name0 cfg evs s) as Hnext;
        destruct (dispatch_all ioctl name0 cfg evs s) as [st3 | | |]; try done
    end.
    destruct (Hnext st3 eq_refl Hcount) as (Hr & Hc & _).
    apply IH; [by rewrite Hr | done].
Qed.

Lemma loop_runs_until_stopped_witness :
  returns_none
    (loop_while (fun _ => None) EmptyString loop_settings 1
       [Env_wait (Wait_ready [classic_event {| tv_sec := 7; tv_usec := 0 |};
                              classic_event {| tv_sec := 8; tv_usec := 0 |}])]
       near_end_state) = false.
Proof.
  apply (loop_runs_until_stopped (fun _ => None) EmptyString loop_settings 1
           [Env_wait (Wait_ready [classic_event {| tv_sec := 7; tv_usec := 0 |};
                                  classic_event {| tv_sec := 8; tv_usec := 0 |}])]
           near_end_state).
  - discriminate.
  - reflexivity.
  - repeat constructor.
Defined.

(** ** Byte reversal in place *)

Lemma reverse_endian_loop_in_place (p : nat) (len : Z) (mem : list Z) (n : nat) :
  forall (i : nat) (cur : list Z),
    (i + n)%nat = Z.to_nat len -> 0 <= len ->
    (p + Z.to_nat len <= length mem)%nat ->
    length cur = length mem ->
    (forall j : nat,
       cur !! j =
       if decide (p <= j < p + i /\ 2 * (j - p) < Z.to_nat len)%nat
       then mem !! (p + (Z.to_nat len - 1 - (j - p)))%nat
       else mem !! j) ->
    exists mem',
      reverse_endian_loop p p len i n cur = Some mem' /\
      length mem' = length mem /\
      forall j : nat,
        mem' !! j =
        if decide (p <= j < p + Z.to_nat len /\ 2 * (j - p) < Z.to_nat len)%nat
        then mem !! (p + (Z.to_nat len - 1 - (j - p)))%nat
        else mem !! j.
Proof.
  induction n as [| n IH]; intros i cur Hin Hlen Hfit Hcur Hinv.
  - exists cur. cbn [reverse_endian_loop]. split; [done |]. split; [done |].
    intros j. rewrite Hinv.
    destruct (decide _) as [Ha | Ha], (decide _) as [Hb | Hb]; try done; lia.
  - cbn [reverse_endian_loop].
    assert (Hidx : Z.to_nat (len - Z.of_nat i - 1) = (Z.to_nat len - 1 - i)%nat) by lia.
    rewrite Hidx.
    destruct (cur !! (p + (Z.to_nat len - 1 - i))%nat) as [b |] eqn:Hb.
    2: { apply lookup_ge_None in Hb. lia. }
    cbn [mbind option_bind].
    destruct (decide (p + i < length cur)%nat) as [_ | Hout]; [| lia].
    apply IH; try done; try lia.
    + by rewrite length_insert.
    + intros j. destruct (decide (j = p + i)%nat) as [-> | Hne].
      * rewrite list_lookup_insert_eq by lia. rewrite <- Hb, Hinv.
        destruct (decide _) as [Ha | Ha], (decide _) as [Hc | Hc];
          try lia; f_equal; lia.
      * rewrite list_lookup_insert_ne by lia. rewrite Hinv.
        destruct (decide _) as [Ha | Ha], (decide _) as [Hc | Hc]; try done; lia.
Qed.

(** [reverse_endian] with [dst] equal to [src]: the call returns, the
    upper half of the buffer (with the middle byte of an odd length) is
    unchanged, the lower half becomes its mirror image, so that the
    buffer reads the same in both directions, and no byte outside the
    buffer changes. *)
Theorem in_place_reversal_mirrors_upper_half (p : nat) (len : Z) (mem : list Z) :
  0 <= len -> (p + Z.to_nat len <= length mem)%nat ->
  exists mem',
    reverse_endian p p len mem = Some mem' /\
    (forall i : nat, (i < Z.to_nat len)%nat ->
       mem' !! (p + i)%nat = mem' !! (p + (Z.to_nat len - 1 - i))%nat) /\
    (forall i : nat, (i < Z.to_nat len)%nat -> (Z.to_nat len <= 2 * i + 1)%nat ->
       mem' !! (p + i)%nat = mem !! (p + i)%nat) /\
    (forall j : nat, ~ (p <= j < p + Z.to_nat len)%nat -> mem' !! j = mem !! j).
Proof.
  intros Hlen Hfit.
  destruct (reverse_endian_loop_in_place p len mem (Z.to_nat len) 0 mem)
    as (mem' & Hrun & _ & Hget); try done.
  { intros j. destruct (decide _); [lia | done]. }
  exists mem'. split; [done |]. split; [| split].
  - intros i Hi. rewrite !Hget.
    destruct (decide _) as [Ha | Ha], (decide _) as [Hc | Hc];
      try lia; f_equal; lia.
  - intros i Hi Hupper. rewrite Hget.
    destruct (decide _) as [Ha | Ha]; [f_equal; lia | done].
  - intros j Hj. rewrite Hget. destruct (decide _); [lia | done].
Qed.

Lemma in_place_reversal_mirrors_upper_half_witness :
  exists mem',
    reverse_endian 1 1 4 [9; 1; 2; 3; 4; 9] = Some mem' /\
    (forall i : nat, (i < Z.to_nat 4)%nat ->
       mem' !! (1 + i)%nat = mem' !! (1 + (Z.to_nat 4 - 1 - i))%nat) /\
    (forall i : nat, (i < Z.to_nat 4)%nat -> (Z.to_nat 4 <= 2 * i + 1)%nat ->
       mem' !! (1 + i)%nat = [9; 1; 2; 3; 4; 9] !! (1 + i)%nat) /\
    (forall j : nat, ~ (1 <= j < 1 + Z.to_nat 4)%nat ->
       mem' !! j = [9; 1; 2; 3; 4; 9] !! j).
Proof.
  apply (in_place_reversal_mirrors_upper_half 1 4 [9; 1; 2; 3; 4; 9]);
    simpl; lia.
Defined.

(** ** What [call_loop] returns *)

Lemma dispatch_interrupt ioctl name0 (cfg : settings) (ev : recv_event) (st : cstate) :
  match dispatch ioctl name0 cfg ev st with
  | Next st' | Process_killed st' | Process_exit _ st' =>
      _got_keyboard_interrupt (prog st') = _got_keyboard_interrupt (prog st)
  | Undefined_behaviour => True
  end.
Proof.
  unfold dispatch.
  destruct (idx2dindex ioctl name0 (ev_ifindex ev) (cache (prog st)))
    as [idx c err | status c err]; [| done].
  destruct (ev_nbytes ev <? 0).
  - by destruct ((errno_at_read_test ev (cache (prog st)) =? ENETDOWN)
                 && (down_causes_exit cfg =? 0)).
  - destruct (maxdlen_of (ev_nbytes ev)) as [maxdlen |]; [| done].
    destruct (walk_cmsgs _ _ _ _) as [[tv' drops] r1].
    destruct (check_dropcnt _ _ _) as [out_drop obj'].
    destruct (register_frame _ _ _) as [r2 |]; [| done].
    by destruct (present _ _ _ _ _ _ _) as [out_text l'].
Qed.

Lemma dispatch_all_interrupt ioctl name0 (cfg : settings) (evs : list recv_event) :
  forall st,
    match dispatch_all ioctl name0 cfg evs st with
    | Next st' | Process_killed st' | Process_exit _ st' =>
        _got_keyboard_interrupt (prog st') = _got_keyboard_interrupt (prog st)
    | Undefined_behaviour => True
    end.
Proof.
  induction evs as [| ev evs IH]; intros st; cbn [dispatch_all]; [done |].
  pose proof (dispatch_interrupt ioctl name0 cfg ev st) as Hone.
  destruct (dispatch ioctl name0 cfg ev st) as [st1 | st1 | status st1 |]; try done.
  specialize (IH st1).
  destruct (dispatch_all ioctl name0 cfg evs st1) as [st2 | st2 | status st2 |];
    try done; try congruence.
Qed.

Lemma loop_interrupt ioctl name0 (cfg : settings) (total_devices : Z)
    (env : list env_step) :
  forall st st',
    final_state (loop_while ioctl name0 cfg total_devices env st) = Some st' ->
    (_got_keyboard_interrupt (prog st) <> 0 ->
     _got_keyboard_interrupt (prog st') <> 0) /\
    (Forall (fun e => is_signal e = false) env ->
     _got_keyboard_interrupt (prog st') = _got_keyboard_interrupt (prog st)).
Proof.
  induction env as [| e env IH]; intros st st' H; cbn [loop_while] in *.
  - destruct (running (prog st) =? 0); injection H as <-; by repeat split.
  - destruct e as [signo [|] | w].
    + destruct (IH _ _ H) as (Hset & _). split.
      * intros _. by apply Hset.
      * intros Hno. apply Forall_cons in Hno as [Hno _]. discriminate Hno.
    + injection H as <-. split; [done |].
      intros Hno. apply Forall_cons in Hno as [Hno _]. discriminate Hno.
    + destruct (running (prog st) =? 0).
      { injection H as <-. by repeat split. }
      rewrite timeout_value in *.
      destruct w as [errno | evs].
      * destruct (IH _ _ H) as (Hset & Hsame).
        destruct (errno =? EINTR); cbn [prog set_running _got_keyboard_interrupt] in *;
          (split; [done |]);
          intros Hno; apply Forall_cons in Hno as [_ Hno]; by apply Hsame.
      * match type of H with
        | context [dispatch_all ioctl name0 cfg evs ?s] =>
            pose proof (dispatch_all_interrupt ioctl name0 cfg evs s) as Hall;
            destruct (dispatch_all ioctl name0 cfg evs s)
              as [st3 | st3 | status st3 |]
        end; cbn [prog add_frame_ctr _got_keyboard_interrupt final_state] in *.
        -- destruct (IH _ _ H) as (Hset & Hsame). rewrite Hall in *.
           split; [done |].
           intros Hno. apply Forall_cons in Hno as [_ Hno]. by apply Hsame.
        -- injection H as <-. rewrite Hall. by split.
        -- injection H as <-. rewrite Hall. by split.
        -- discriminate H.
Qed.

(** [_got_keyboard_interrupt] is set by the signal handler and cleared
    nowhere: once it is set, [call_loop] returns NULL after every later
    run of the loop, however that run ends and also when no signal
    arrives during it. *)
Theorem interrupt_makes_later_calls_return_null ioctl name0 (cfg : settings)
    (total_devices : Z) (env : list env_step) (st st' : cstate) :
  _got_keyboard_interrupt (prog st) <> 0 ->
  final_state (loop_while ioctl name0 cfg total_devices env st) = Some st' ->
  call_loop_return (prog st') = None.
Proof.
  intros Hset H.
  destruct (loop_interrupt ioctl name0 cfg total_devices env st st' H) as (Hkeep & _).
  unfold call_loop_return.
  by destruct (Z.eqb_spec (_got_keyboard_interrupt (prog st')) 0) as [Hz |];
    [destruct (Hkeep Hset) |].
Qed.

Lemma interrupt_makes_later_calls_return_null_witness :
  call_loop_return
    (prog (close_sockets 1 (close_sockets 1 (sigterm 2 idle_state)))) = None.
Proof.
  apply (interrupt_makes_later_calls_return_null (fun _ => None) EmptyString
           loop_settings 1 [Env_wait (Wait_ready [])]
           (close_sockets 1 (sigterm 2 idle_state))).
  - discriminate.
  - reflexivity.
Defined.
